(** * LogPipeline: agent shipper, server receiver, file store, query engine,
      file tailer and the shared data model, embedded from the Go sources.

    Each Go package is a [Module] holding the translation of the functions the
    properties below talk about.  Values of Go type [int], [int64] and
    [time.Duration] are integers in [Z] with the 64-bit wrap-around written
    out; [uint64] counters wrap modulo 2^64.  An instant ([time.Time]) is the
    number of nanoseconds since the zero [time.Time].  Every [time.Now()] of
    the source is an explicit clock reading passed to the function that makes
    the call.  The embedding comes first; the properties, each with the
    notions it is stated in, follow it. *)

From Stdlib Require Import ZArith Lia Bool List.
From stdpp Require Import gmap strings list fin_maps pretty.
Import ListNotations.

Set Warnings "-register-all".
Local Open Scope Z_scope.

(* ===================================================================== *)
(** ** Go integers, durations and instants                                *)
(* ===================================================================== *)

Module Go.

Definition int64_min : Z := - 2 ^ 63.
Definition int64_max : Z := 2 ^ 63 - 1.

(** Result of an [int] / [int64] / [time.Duration] operation. *)
Definition wrap64 (z : Z) : Z := (z + 2 ^ 63) mod 2 ^ 64 - 2 ^ 63.

(** Result of a [uint64] operation. *)
Definition wrapu64 (z : Z) : Z := z mod 2 ^ 64.

(** [x++] on an [int]. *)
Definition incr (x : Z) : Z := wrap64 (x + 1).

(** [x--] on an [int]. *)
Definition decr (x : Z) : Z := wrap64 (x - 1).

(** [atomic.AddUint64(&c, d)]. *)
Definition AddUint64 (c d : Z) : Z := wrapu64 (c + d).

(** [time.Duration(1 << uint(n))] for [0 <= n]: a shift count of 64 or more
    gives 0, bit 63 is the sign bit. *)
Definition shl1 (n : Z) : Z :=
  if 64 <=? n then 0 else wrap64 (Z.shiftl 1 n).

(** Product of two durations. *)
Definition mul (a b : Z) : Z := wrap64 (a * b).

Definition Nanosecond : Z := 1.
Definition Millisecond : Z := 1000000.
Definition Second : Z := 1000000000.
Definition Minute : Z := 60 * Second.
Definition Hour : Z := 60 * Minute.

(** [t.Before(u)], [t.After(u)]: comparison of instants. *)
Definition Before (t u : Z) : bool := t <? u.
Definition After (t u : Z) : bool := u <? t.

(** [t.IsZero()]. *)
Definition IsZero (t : Z) : bool := t =? 0.

(** [t.Sub(u)]: the difference saturates at the ends of [Duration]. *)
Definition Sub (t u : Z) : Z :=
  if int64_max <? t - u then int64_max
  else if t - u <? int64_min then int64_min
  else t - u.

(** [time.Since(t)], evaluated when the clock shows [now]. *)
Definition Since (now t : Z) : Z := Sub now t.

(** [int(d.Seconds())] goes through a float64:
    [float64(d / Second) + float64(d % Second) / 1e9], truncated.  Functions
    that make this conversion take it as an argument [secs]; what is used of
    it is that it is exact below two seconds and at least 1 from one second
    on (the float64 sum is exact enough for that; for durations of months it
    may round up to the next second). *)
Definition seconds_conversion (secs : Z -> Z) : Prop :=
  (forall d, 0 <= d < Second -> secs d = 0)
  /\ (forall d, Second <= d < 2 * Second -> secs d = 1)
  /\ (forall d, 2 * Second <= d -> 1 <= secs d).

(** The conversion without rounding: the whole seconds of a duration,
    truncated towards zero. *)
Definition whole_seconds (d : Z) : Z := Z.quot d Second.

(** Seconds between the zero [time.Time] and the Unix epoch. *)
Definition unix_epoch_seconds : Z := 62135596800.

(** [t.Unix()]. *)
Definition Unix (t : Z) : Z := t / Second - unix_epoch_seconds.

(** [t.Truncate(d)]: [t] rounded down to a multiple of [d] since the zero
    time; [t] itself when [d <= 0]. *)
Definition Truncate (t d : Z) : Z :=
  if d <=? 0 then t else t - t mod d.

(** [t.Add(d)]. *)
Definition Add (t d : Z) : Z := t + d.

End Go.

(* ===================================================================== *)
(** ** pkg/models: log entries, time ranges, queries, batches             *)
(* ===================================================================== *)

Module Models.

Definition LogLevel := string.
Definition LogLevelDebug : LogLevel := "DEBUG".
Definition LogLevelInfo : LogLevel := "INFO".
Definition LogLevelWarn : LogLevel := "WARN".
Definition LogLevelError : LogLevel := "ERROR".
Definition LogLevelFatal : LogLevel := "FATAL".

(** A value stored in [Fields] ([interface{}] after JSON decoding). *)
Inductive FieldValue :=
  | FNil
  | FBool (b : bool)
  | FNum (z : Z)
  | FStr (s : string)
  | FObj (kvs : list (string * FieldValue))
  | FArr (vs : list FieldValue).

(** The content of a [LogEntry]. *)
Record LogEntry := mkLogEntry {
  ID : string;
  Timestamp : Z;
  Level : LogLevel;
  Message : string;
  Source : string;
  Host : string;
  Service : string;
  Fields : list (string * FieldValue);
  Tags : list string;
  Raw : string
}.

Record TimeRange := mkTimeRange {
  Start : Z;
  End_ : Z
}.

(** [TimeRange.Contains]. *)
Definition Contains (tr : TimeRange) (t : Z) : bool :=
  negb (Go.Before t (Start tr)) && negb (Go.After t (End_ tr)).

Record SearchQuery := mkSearchQuery {
  Query : string;
  Range : TimeRange;
  Filters : list (string * FieldValue);
  Limit : Z;
  Offset : Z;
  SortBy : string;
  SortOrder : string;
  Projection : list string
}.

Record SearchResult := mkSearchResult {
  Hits : list LogEntry;
  Total : Z;
  Took : Z;
  TimedOut : bool
}.

Record Batch := mkBatch {
  Entries : list LogEntry;
  BatchID : string;
  BatchSource : string;
  BatchTimestamp : Z;
  Compressed : bool;
  CompressionType : string
}.

End Models.

(* ===================================================================== *)
(** ** internal/agent/shipper: circuit breaker and retry loop             *)
(* ===================================================================== *)

Module Shipper.

Record Config := mkConfig {
  Endpoints : list string;
  BatchSize : Z;
  BatchTimeout : Z;
  MaxRetries : Z;
  RetryBackoff : Z;
  FailureThreshold : Z;
  SuccessThreshold : Z;
  OpenTimeout : Z
}.

Definition DefaultConfig : Config :=
  {| Endpoints := ["http://localhost:9090"%string];
     BatchSize := 1000;
     BatchTimeout := 5 * Go.Second;
     MaxRetries := 3;
     RetryBackoff := 1 * Go.Second;
     FailureThreshold := 5;
     SuccessThreshold := 2;
     OpenTimeout := 30 * Go.Second |}.

Inductive circuitState := circuitClosed | circuitOpen | circuitHalfOpen.

Record endpoint := mkEndpoint {
  url : string;
  state : circuitState;
  failures : Z;
  successes : Z;
  lastFailure : Z;
  consecutiveFail : Z
}.

(** The endpoints built by [New]: closed, counters and [lastFailure] zero. *)
Definition new_endpoint (u : string) : endpoint :=
  {| url := u; state := circuitClosed; failures := 0; successes := 0;
     lastFailure := 0; consecutiveFail := 0 |}.

Definition set_state (ep : endpoint) (s : circuitState) : endpoint :=
  {| url := url ep; state := s; failures := failures ep;
     successes := successes ep; lastFailure := lastFailure ep;
     consecutiveFail := consecutiveFail ep |}.

(** [recordSuccess]. *)
Definition recordSuccess (cfg : Config) (ep : endpoint) : endpoint :=
  let succ := Go.incr (successes ep) in
  match state ep with
  | circuitHalfOpen =>
      if SuccessThreshold cfg <=? succ then
        {| url := url ep; state := circuitClosed; failures := 0;
           successes := 0; lastFailure := lastFailure ep;
           consecutiveFail := 0 |}
      else
        {| url := url ep; state := circuitHalfOpen; failures := failures ep;
           successes := succ; lastFailure := lastFailure ep;
           consecutiveFail := 0 |}
  | s =>
      {| url := url ep; state := s; failures := failures ep;
         successes := succ; lastFailure := lastFailure ep;
         consecutiveFail := 0 |}
  end.

(** [recordFailure]; [now] is the reading of [time.Now()]. *)
Definition recordFailure (cfg : Config) (now : Z) (ep : endpoint) : endpoint :=
  let fails := Go.incr (failures ep) in
  let cons := Go.incr (consecutiveFail ep) in
  match state ep with
  | circuitHalfOpen =>
      {| url := url ep; state := circuitOpen; failures := fails;
         successes := 0; lastFailure := now; consecutiveFail := cons |}
  | s =>
      {| url := url ep;
         state := if FailureThreshold cfg <=? cons then circuitOpen else s;
         failures := fails; successes := successes ep; lastFailure := now;
         consecutiveFail := cons |}
  end.

(** The loop of [selectEndpoint] from index [i] on: the indices of the
    endpoints found available, and the endpoints after the Open -> HalfOpen
    transitions.  [now j] is the clock read by [time.Since] for endpoint [j]. *)
Fixpoint scan_endpoints (cfg : Config) (now : nat -> Z) (i : nat)
    (eps : list endpoint) : list nat * list endpoint :=
  match eps with
  | [] => ([], [])
  | ep :: rest =>
      let '(avail, rest') := scan_endpoints cfg now (S i) rest in
      match state ep with
      | circuitClosed => (i :: avail, ep :: rest')
      | circuitHalfOpen => (i :: avail, ep :: rest')
      | circuitOpen =>
          if OpenTimeout cfg <? Go.Since (now i) (lastFailure ep)
          then (i :: avail, set_state ep circuitHalfOpen :: rest')
          else (avail, ep :: rest')
      end
  end.

(** [selectEndpoint]: [None] when no endpoint is available, otherwise the
    index [available[rand.Intn(len(available))]]; [r] is the random source,
    reduced to the range of [rand.Intn]. *)
Definition selectEndpoint (cfg : Config) (now : nat -> Z) (r : nat)
    (eps : list endpoint) : option nat * list endpoint :=
  let '(avail, eps') := scan_endpoints cfg now 0 eps in
  match avail with
  | [] => (None, eps')
  | _ => (nth_error avail (r mod length avail)%nat, eps')
  end.

(** What one attempt of [sendWithRetry] sees of the outside world. *)
Record attempt_env := mkAttemptEnv {
  select_clock : nat -> Z;   (* clock readings inside selectEndpoint *)
  select_rand : nat;         (* rand.Intn source *)
  send_ok : nat -> bool;     (* does send to endpoint i succeed *)
  failure_clock : Z          (* time.Now() inside recordFailure *)
}.

Inductive event :=
  | EvSend (attempt : Z) (ep : nat) (ok : bool)
  | EvSleep (attempt : Z) (d : Z).

Inductive outcome :=
  | Sent
  | NoEndpoints
  | FailedAfter (n : Z)
  | OutOfFuel.

Definition update_endpoint (eps : list endpoint) (i : nat)
    (f : endpoint -> endpoint) : list endpoint :=
  match eps !! i with
  | Some ep => <[i := f ep]> eps
  | None => eps
  end.

(** The loop of [sendWithRetry], entered with the loop variable [attempt].
    [env a] is the world during attempt [a]; the events are appended to
    [tr] in the order in which they happen. *)
Fixpoint sendWithRetry_loop (cfg : Config) (env : Z -> attempt_env)
    (fuel : nat) (attempt : Z) (eps : list endpoint) (tr : list event)
    : outcome * list endpoint * list event :=
  match fuel with
  | O => (OutOfFuel, eps, tr)
  | S fuel' =>
      if attempt <=? MaxRetries cfg then
        let e := env attempt in
        match selectEndpoint cfg (select_clock e) (select_rand e) eps with
        | (None, eps1) => (NoEndpoints, eps1, tr)
        | (Some i, eps1) =>
            if send_ok e i then
              (Sent, update_endpoint eps1 i (recordSuccess cfg),
               tr ++ [EvSend attempt i true])
            else
              let eps2 :=
                update_endpoint eps1 i (recordFailure cfg (failure_clock e)) in
              let tr2 := tr ++ [EvSend attempt i false] in
              let tr3 :=
                if attempt <? MaxRetries cfg
                then tr2 ++ [EvSleep attempt
                               (Go.mul (RetryBackoff cfg) (Go.shl1 attempt))]
                else tr2 in
              sendWithRetry_loop cfg env fuel' (Go.incr attempt) eps2 tr3
        end
      else (FailedAfter (MaxRetries cfg), eps, tr)
  end.

(** [sendWithRetry]. *)
Definition sendWithRetry (cfg : Config) (env : Z -> attempt_env) (fuel : nat)
    (eps : list endpoint) : outcome * list endpoint * list event :=
  sendWithRetry_loop cfg env fuel 0 eps [].

Definition is_send (e : event) : bool :=
  match e with EvSend _ _ _ => true | EvSleep _ _ => false end.

(** Number of send attempts in a trace. *)
Definition count_sends (tr : list event) : nat :=
  length (filter (fun e => is_send e = true) tr).

End Shipper.

(* ===================================================================== *)
(** ** internal/server/receiver: rate limiter and ingest handler          *)
(* ===================================================================== *)

Module Receiver.

Record Config := mkConfig {
  HTTPAddr : string;
  MaxBatchSize : Z;
  RateLimit : Z;
  Timeout : Z;
  RequireAuth : bool;
  APIKeys : gmap string string
}.

Record Stats := mkStats {
  RequestsReceived : Z;
  LogsReceived : Z;
  BytesReceived : Z;
  Errors : Z;
  LastReceived : Z
}.

Record rateLimiter := mkRateLimiter {
  tokens : Z;
  maxTokens : Z;
  lastRefill : Z
}.

(** [rateLimiter.allow]; [now] is the reading of [time.Now()], [secs] the
    conversion [int(elapsed.Seconds())]. *)
Definition allow (secs : Z -> Z) (now : Z) (rl : rateLimiter)
    : bool * rateLimiter :=
  let elapsed := Go.Sub now (lastRefill rl) in
  let tokensToAdd := secs elapsed in
  let rl1 :=
    if 0 <? tokensToAdd then
      let t := Go.wrap64 (tokens rl + tokensToAdd) in
      {| tokens := if maxTokens rl <? t then maxTokens rl else t;
         maxTokens := maxTokens rl;
         lastRefill := now |}
    else rl in
  if 0 <? tokens rl1 then
    (true, {| tokens := Go.decr (tokens rl1); maxTokens := maxTokens rl1;
              lastRefill := lastRefill rl1 |})
  else (false, rl1).

(** The two clock readings of one [checkRateLimit] call: the one stored in a
    newly made bucket and the one taken by [allow]. *)
Record clocks := mkClocks {
  clock_new : Z;
  clock_allow : Z
}.

(** [Receiver.checkRateLimit] on the table of buckets. *)
Definition checkRateLimit (secs : Z -> Z) (cfg : Config) (c : clocks)
    (agentID : string) (rls : gmap string rateLimiter)
    : bool * gmap string rateLimiter :=
  let rl :=
    match rls !! agentID with
    | Some rl => rl
    | None => {| tokens := RateLimit cfg; maxTokens := RateLimit cfg;
                 lastRefill := clock_new c |}
    end in
  let '(ok, rl') := allow secs (clock_allow c) rl in
  (ok, <[agentID := rl']> rls).

(** A stream of requests of several agents, served one after the other (the
    table's mutex serialises them): the answers, and the table afterwards. *)
Fixpoint serve_rate_limit (secs : Z -> Z) (cfg : Config)
    (reqs : list (string * clocks)) (rls : gmap string rateLimiter)
    : list (string * bool) * gmap string rateLimiter :=
  match reqs with
  | [] => ([], rls)
  | (a, c) :: rest =>
      let '(ok, rls1) := checkRateLimit secs cfg c a rls in
      let '(answers, rls2) := serve_rate_limit secs cfg rest rls1 in
      ((a, ok) :: answers, rls2)
  end.

(** Number of accepted requests of agent [a] among the answers. *)
Definition accepted (a : string) (answers : list (string * bool)) : Z :=
  Z.of_nat (length (filter (fun x => fst x = a /\ snd x = true) answers)).

(** The receiver: configuration, the output channel (its buffered entries,
    oldest first, and its capacity), the cancellation flag of [ctx], the
    counters and the rate-limit table.  [handed_off] is the history of the
    channel: every entry ever sent on it, in order. *)
Record Receiver := mkReceiver {
  config : Config;
  output : list Models.LogEntry;
  output_cap : nat;
  ctx_done : bool;
  stats : Stats;
  rateLimits : gmap string rateLimiter;
  handed_off : list Models.LogEntry
}.

Record Request := mkRequest {
  Method : string;
  XAgentID : string;
  RemoteAddr : string;
  ContentEncoding : string;
  Body : string
}.

(** The library calls of the handler: on the request body, and the
    conversion of a duration to whole seconds in the rate limiter. *)
Record Library := mkLibrary {
  gzip_NewReader : string -> bool;          (* is the gzip header accepted *)
  io_ReadAll : bool -> string -> option string;  (* gzip?, raw body *)
  json_Unmarshal : string -> option Models.Batch;
  duration_seconds : Z -> Z                 (* int(d.Seconds()) *)
}.

Record Response := mkResponse {
  status : Z;
  received : option Z
}.

Definition StatusOK : Z := 200.
Definition StatusBadRequest : Z := 400.
Definition StatusMethodNotAllowed : Z := 405.
Definition StatusRequestEntityTooLarge : Z := 413.
Definition StatusTooManyRequests : Z := 429.
Definition StatusServiceUnavailable : Z := 503.

(** [http.Error(w, _, code)]. *)
Definition http_Error (code : Z) : Response :=
  {| status := code; received := None |}.

(** What the rest of the server does between two iterations of the hand-off
    loop: the pipeline workers take [consumed] entries off the channel, the
    context may get cancelled, and [choose_done] is the choice [select] makes
    when both the send and [ctx.Done()] are ready. *)
Record tick := mkTick {
  consumed : nat;
  cancelled : bool;
  choose_done : bool
}.

Definition with_stats (r : Receiver) (s : Stats) : Receiver :=
  {| config := config r; output := output r; output_cap := output_cap r;
     ctx_done := ctx_done r; stats := s; rateLimits := rateLimits r;
     handed_off := handed_off r |}.

Definition with_rateLimits (r : Receiver) (rls : gmap string rateLimiter) : Receiver :=
  {| config := config r; output := output r; output_cap := output_cap r;
     ctx_done := ctx_done r; stats := stats r; rateLimits := rls;
     handed_off := handed_off r |}.

Definition add_RequestsReceived (s : Stats) : Stats :=
  {| RequestsReceived := Go.AddUint64 (RequestsReceived s) 1;
     LogsReceived := LogsReceived s; BytesReceived := BytesReceived s;
     Errors := Errors s; LastReceived := LastReceived s |}.

Definition add_LogsReceived (s : Stats) : Stats :=
  {| RequestsReceived := RequestsReceived s;
     LogsReceived := Go.AddUint64 (LogsReceived s) 1;
     BytesReceived := BytesReceived s;
     Errors := Errors s; LastReceived := LastReceived s |}.

Definition add_BytesReceived (n : Z) (s : Stats) : Stats :=
  {| RequestsReceived := RequestsReceived s;
     LogsReceived := LogsReceived s;
     BytesReceived := Go.AddUint64 (BytesReceived s) n;
     Errors := Errors s; LastReceived := LastReceived s |}.

Definition add_Errors (s : Stats) : Stats :=
  {| RequestsReceived := RequestsReceived s;
     LogsReceived := LogsReceived s; BytesReceived := BytesReceived s;
     Errors := Go.AddUint64 (Errors s) 1; LastReceived := LastReceived s |}.

Definition set_LastReceived (now : Z) (s : Stats) : Stats :=
  {| RequestsReceived := RequestsReceived s;
     LogsReceived := LogsReceived s; BytesReceived := BytesReceived s;
     Errors := Errors s; LastReceived := now |}.

(** The environment's move before a [select]. *)
Definition env_step (t : tick) (r : Receiver) : Receiver :=
  {| config := config r; output := drop (consumed t) (output r);
     output_cap := output_cap r; ctx_done := ctx_done r || cancelled t;
     stats := stats r; rateLimits := rateLimits r;
     handed_off := handed_off r |}.

(** [r.output <- entry] followed by the increment of [LogsReceived]. *)
Definition send_entry (e : Models.LogEntry) (r : Receiver) : Receiver :=
  {| config := config r; output := output r ++ [e];
     output_cap := output_cap r; ctx_done := ctx_done r;
     stats := add_LogsReceived (stats r); rateLimits := rateLimits r;
     handed_off := handed_off r ++ [e] |}.

Inductive handoff := HandoffComplete | HandoffShutdown | HandoffFull.

(** The loop [for _, entry := range batch.Entries { select ... }];
    [env k] is the environment's move before the select of entry [k]. *)
Fixpoint handoff_loop (env : nat -> tick) (k : nat)
    (entries : list Models.LogEntry) (r : Receiver) : handoff * Receiver :=
  match entries with
  | [] => (HandoffComplete, r)
  | e :: rest =>
      let t := env k in
      let r1 := env_step t r in
      let send_ready := (length (output r1) <? output_cap r1)%nat in
      if send_ready && negb (ctx_done r1 && choose_done t) then
        handoff_loop env (S k) rest (send_entry e r1)
      else if ctx_done r1 then (HandoffShutdown, r1)
      else (HandoffFull, with_stats r1 (add_Errors (stats r1)))
  end.

Definition fail (r : Receiver) (code : Z) : Receiver * Response :=
  (with_stats r (add_Errors (stats r)), http_Error code).

(** [Receiver.handleIngest].  [c] holds the clock readings of the rate
    limiter, [now] the one stored in [LastReceived]. *)
Definition handleIngest (io : Library) (env : nat -> tick) (c : clocks)
    (now : Z) (req : Request) (r : Receiver) : Receiver * Response :=
  if negb (String.eqb (Method req) "POST") then
    (r, http_Error StatusMethodNotAllowed)
  else
    let r := with_stats r (add_RequestsReceived (stats r)) in
    let agentID :=
      if String.eqb (XAgentID req) "" then RemoteAddr req else XAgentID req in
    let '(ok, rls) :=
      checkRateLimit (duration_seconds io) (config r) c agentID (rateLimits r) in
    let r := with_rateLimits r rls in
    if negb ok then fail r StatusTooManyRequests
    else
      let gz := String.eqb (ContentEncoding req) "gzip" in
      if gz && negb (gzip_NewReader io (Body req)) then fail r StatusBadRequest
      else
        match io_ReadAll io gz (Body req) with
        | None => fail r StatusBadRequest
        | Some body =>
            let r := with_stats r
                       (add_BytesReceived (Z.of_nat (String.length body)) (stats r)) in
            match json_Unmarshal io body with
            | None => fail r StatusBadRequest
            | Some batch =>
                if MaxBatchSize (config r) <? Z.of_nat (length (Models.Entries batch))
                then fail r StatusRequestEntityTooLarge
                else
                  match handoff_loop env 0 (Models.Entries batch) r with
                  | (HandoffShutdown, r') =>
                      (r', http_Error StatusServiceUnavailable)
                  | (HandoffFull, r') =>
                      (r', http_Error StatusServiceUnavailable)
                  | (HandoffComplete, r') =>
                      (with_stats r' (set_LastReceived now (stats r')),
                       {| status := StatusOK;
                          received := Some (Z.of_nat (length (Models.Entries batch))) |})
                  end
            end
        end.

End Receiver.

(* ===================================================================== *)
(** ** internal/storage: gob partitions, in-memory index, FileStore       *)
(* ===================================================================== *)

Module Storage.

Import Models.

Record Config := mkConfig {
  Path : string;
  RetentionDays : Z;
  PartitionInterval : Z;
  SyncWrites : bool
}.

Definition DefaultConfig : Config :=
  {| Path := "/var/lib/logpipeline/data";
     RetentionDays := 30;
     PartitionInterval := 24 * Go.Hour;
     SyncWrites := false |}.

(** *** encoding/gob, as far as the store relies on it

    A gob stream is a sequence of messages.  An [Encoder] describes a type
    once, in a type-definition message, before the first value of that type;
    later values of the type are sent without it.  A [Decoder] accepts a
    value only after the definition of its type, and rejects a definition
    it already has. *)
Inductive gobMessage :=
  | GobTypeDef
  | GobValue (e : LogEntry).

(** What the model does not compute: the byte length of the messages, which
    entries gob can encode (a value held in [Fields] must be of a registered
    type), the layout "2006-01-02-15" of [Time.Format], [filepath.Base]. *)
Record Platform := mkPlatform {
  type_def_size : Z;
  value_size : LogEntry -> Z;
  encodable : LogEntry -> bool;
  format_hour : Z -> string;
  filepath_Base : string -> string
}.

Definition message_size (pf : Platform) (m : gobMessage) : Z :=
  match m with
  | GobTypeDef => type_def_size pf
  | GobValue e => value_size pf e
  end.

(** [info.Size()] of a partition file. *)
Fixpoint file_size (pf : Platform) (f : list gobMessage) : Z :=
  match f with
  | [] => 0
  | m :: f' => message_size pf m + file_size pf f'
  end.

(** [Encoder.Encode(entry)] on an encoder that has ([sent]) or has not yet
    sent the type: the messages written, the encoder afterwards, and whether
    the call succeeded.  The type definition goes out before the value is
    encoded, so a failed first call leaves it in the file. *)
Definition gob_Encode (pf : Platform) (sent : bool) (e : LogEntry)
    : list gobMessage * bool * bool :=
  let defs := if sent then [] else [GobTypeDef] in
  if encodable pf e then (defs ++ [GobValue e], true, true)
  else (defs, true, false).

(** [Decoder.Decode(&entry)] on a decoder that knows ([known]) or does not
    know the type, reading [stream]: the entry, the decoder and the rest of
    the stream, or [None] for an error (end of file, "unknown type id or
    corrupted data", "duplicate type received"). *)
Fixpoint gob_Decode (known : bool) (stream : list gobMessage)
    : option (LogEntry * bool * list gobMessage) :=
  match stream with
  | [] => None
  | GobTypeDef :: rest => if known then None else gob_Decode true rest
  | GobValue e :: rest => if known then Some (e, true, rest) else None
  end.

(** [file.Seek(off, 0)]: the part of the file that starts at byte [off].
    [None] stands for an offset that is not the start of a message or lies
    beyond the end of the file: nothing can be decoded there. *)
Fixpoint seek (pf : Platform) (off : Z) (f : list gobMessage)
    : option (list gobMessage) :=
  if off =? 0 then Some f
  else
    match f with
    | [] => None
    | m :: f' =>
        if message_size pf m <=? off then seek pf (off - message_size pf m) f'
        else None
    end.

(** *** The store *)

Record partition := mkPartition {
  path : string;
  startTime : Z;
  endTime : Z;
  encoder_sent : bool;   (* state of the partition's gob.Encoder *)
  count : Z
}.

Record indexEntry := mkIndexEntry {
  id : string;
  ixPartition : string;
  offset : Z;
  timestamp : Z
}.

Record StoreStats := mkStoreStats {
  TotalEntries : Z;
  TotalSize : Z;
  OldestEntry : Z;
  NewestEntry : Z
}.

(** The store together with the files of its directory. *)
Record FileStore := mkFileStore {
  config : Config;
  partitions : gmap string partition;
  stats : StoreStats;
  index : gmap string indexEntry;
  disk : gmap string (list gobMessage)
}.

Inductive error :=
  | ErrEncode        (* "failed to encode entry" *)
  | ErrNotFound      (* "entry not found" *)
  | ErrOpen          (* os.Open failed *)
  | ErrDecode.       (* the decoder's error *)

Definition filepath_Join (dir name : string) : string :=
  (dir +:+ "/" +:+ name)%string.

(** [os.OpenFile(name, O_APPEND|O_CREATE|O_WRONLY, 0644)]. *)
Definition open_append (name : string) (d : gmap string (list gobMessage))
    : gmap string (list gobMessage) :=
  match d !! name with
  | Some _ => d
  | None => <[name := []]> d
  end.

(** [loadPartitions] over the files [filepath.Glob] found. *)
Fixpoint loadPartitions (pf : Platform) (files : list string) (fs : FileStore)
    : FileStore :=
  match files with
  | [] => fs
  | filename :: rest =>
      let part := {| path := filename; startTime := 0; endTime := 0;
                     encoder_sent := false; count := 0 |} in
      loadPartitions pf rest
        {| config := config fs;
           partitions := <[filepath_Base pf filename := part]> (partitions fs);
           stats := stats fs; index := index fs;
           disk := open_append filename (disk fs) |}
  end.

(** [NewFileStore] in a directory holding [d]; [files] is the result of
    the glob "partition_*.gob". *)
Definition NewFileStore (pf : Platform) (cfg : Config) (files : list string)
    (d : gmap string (list gobMessage)) : FileStore :=
  loadPartitions pf files
    {| config := cfg; partitions := ∅;
       stats := {| TotalEntries := 0; TotalSize := 0; OldestEntry := 0;
                   NewestEntry := 0 |};
       index := ∅; disk := d |}.

(** [getPartition]: the key of the partition of instant [t], and the store
    with that partition in its table ([os.OpenFile] is taken to succeed). *)
Definition getPartition (pf : Platform) (t : Z) (fs : FileStore)
    : string * partition * FileStore :=
  let partTime := Go.Truncate t (PartitionInterval (config fs)) in
  let key := format_hour pf partTime in
  match partitions fs !! key with
  | Some part => (key, part, fs)
  | None =>
      let filename :=
        filepath_Join (Path (config fs)) ("partition_" +:+ key +:+ ".gob") in
      let part := {| path := filename; startTime := partTime;
                     endTime := Go.Add partTime (PartitionInterval (config fs));
                     encoder_sent := false; count := 0 |} in
      (key, part,
       {| config := config fs; partitions := <[key := part]> (partitions fs);
          stats := stats fs; index := index fs;
          disk := open_append filename (disk fs) |})
  end.

Definition file_of (fs : FileStore) (p : string) : list gobMessage :=
  default [] (disk fs !! p).

(** [FileStore.Write]. *)
Definition Write (pf : Platform) (entry : LogEntry) (fs : FileStore)
    : option error * FileStore :=
  let '(key, part, fs1) := getPartition pf (Timestamp entry) fs in
  let off := file_size pf (file_of fs1 (path part)) in
  let '(msgs, sent', ok) := gob_Encode pf (encoder_sent part) entry in
  let disk' := <[path part := file_of fs1 (path part) ++ msgs]> (disk fs1) in
  if negb ok then
    (Some ErrEncode,
     {| config := config fs1;
        partitions :=
          <[key := {| path := path part; startTime := startTime part;
                      endTime := endTime part; encoder_sent := sent';
                      count := count part |}]> (partitions fs1);
        stats := stats fs1; index := index fs1; disk := disk' |})
  else
    let part' := {| path := path part; startTime := startTime part;
                    endTime := endTime part; encoder_sent := sent';
                    count := Go.incr (count part) |} in
    let ix := {| id := ID entry; ixPartition := path part; offset := off;
                 timestamp := Timestamp entry |} in
    let s := stats fs1 in
    let oldest :=
      if Go.IsZero (OldestEntry s) || Go.Before (Timestamp entry) (OldestEntry s)
      then Timestamp entry else OldestEntry s in
    let newest :=
      if Go.After (Timestamp entry) (NewestEntry s)
      then Timestamp entry else NewestEntry s in
    (None,
     {| config := config fs1;
        partitions := <[key := part']> (partitions fs1);
        stats := {| TotalEntries := Go.wrapu64 (TotalEntries s + 1);
                    TotalSize := TotalSize s;
                    OldestEntry := oldest; NewestEntry := newest |};
        index := <[ID entry := ix]> (index fs1);
        disk := disk' |}).

(** [FileStore.WriteBatch]. *)
Fixpoint WriteBatch (pf : Platform) (entries : list LogEntry) (fs : FileStore)
    : option error * FileStore :=
  match entries with
  | [] => (None, fs)
  | e :: rest =>
      match Write pf e fs with
      | (Some err, fs') => (Some err, fs')
      | (None, fs') => WriteBatch pf rest fs'
      end
  end.

(** [FileStore.Get]. *)
Definition Get (pf : Platform) (i : string) (fs : FileStore)
    : error + LogEntry :=
  match index fs !! i with
  | None => inl ErrNotFound
  | Some idx =>
      match disk fs !! ixPartition idx with
      | None => inl ErrOpen
      | Some content =>
          match seek pf (offset idx) content with
          | None => inl ErrDecode
          | Some stream =>
              match gob_Decode false stream with
              | None => inl ErrDecode
              | Some (e, _, _) => inr e
              end
          end
      end
  end.

(** [toLower] on one byte. *)
Definition lower_byte (c : Ascii.ascii) : Ascii.ascii :=
  let n := Ascii.N_of_ascii c in
  if ((65 <=? n) && (n <=? 90))%N then Ascii.ascii_of_N (n + 32) else c.

(** [toLower]. *)
Fixpoint toLower (s : string) : string :=
  match s with
  | EmptyString => EmptyString
  | String c s' => String (lower_byte c) (toLower s')
  end.

(** The loop of [contains]: is [substr] found at one of the first [S n]
    positions of [s]. *)
Fixpoint contains_loop (n : nat) (s substr : string) : bool :=
  if String.prefix substr s then true
  else
    match n, s with
    | S n', String _ s' => contains_loop n' s' substr
    | _, _ => false
    end.

(** [contains]. *)
Definition contains (s substr : string) : bool :=
  if (String.length substr =? 0)%nat then true
  else if (String.length s <? String.length substr)%nat then false
  else contains_loop (String.length s - String.length substr) s substr.

(** [containsIgnoreCase]. *)
Definition containsIgnoreCase (s substr : string) : bool :=
  contains (toLower s) (toLower substr).

(** The decoding loop of [readPartition]: one decoder over the whole file,
    until it reports an error; [fuel] bounds the number of iterations. *)
Fixpoint read_loop (q : SearchQuery) (fuel : nat) (known : bool)
    (stream : list gobMessage) (entries : list LogEntry) : list LogEntry :=
  match fuel with
  | O => entries
  | S fuel' =>
      match gob_Decode known stream with
      | None => entries
      | Some (e, known', rest) =>
          if negb (Contains (Range q) (Timestamp e)) then
            read_loop q fuel' known' rest entries
          else if negb (String.eqb (Query q) "")
                  && negb (containsIgnoreCase (Message e) (Query q)) then
            read_loop q fuel' known' rest entries
          else read_loop q fuel' known' rest (entries ++ [e])
      end
  end.

(** [readPartition].  Every iteration consumes a message, so the length of
    the file is fuel enough. *)
Definition readPartition (part : partition) (q : SearchQuery) (fs : FileStore)
    : error + list LogEntry :=
  match disk fs !! path part with
  | None => inl ErrOpen
  | Some content => inr (read_loop q (S (length content)) false content [])
  end.

End Storage.

(* ===================================================================== *)
(** ** internal/query: validation, sorting, pagination, result cache      *)
(* ===================================================================== *)

Module QueryEngine.

Import Models.

Record Config := mkConfig {
  CacheSize : Z;
  CacheTTL : Z;
  MaxResults : Z
}.

Definition DefaultConfig : Config :=
  {| CacheSize := 1000; CacheTTL := 5 * Go.Minute; MaxResults := 10000 |}.

(** A cache entry holds a pointer to a [SearchResult] and the instant at
    which it was stored. *)
Record cacheEntry := mkCacheEntry {
  result : nat;
  timestamp : Z
}.

Record queryCache := mkQueryCache {
  entries : gmap string cacheEntry;
  maxSize : Z;
  ttl : Z
}.

(** The engine: its cache, and the [SearchResult] objects it has handed out
    ([results] maps a pointer to the object it points to, [next] is the next
    free pointer). *)
Record Engine := mkEngine {
  cache : queryCache;
  results : gmap nat SearchResult;
  next : nat
}.

(** [store.Query] of the [storage.Store] behind the engine: [None] for an
    error. *)
Definition Store := SearchQuery -> option SearchResult.

(** [NewEngine]. *)
Definition NewEngine (cfg : Config) : Engine :=
  {| cache := {| entries := ∅; maxSize := CacheSize cfg; ttl := CacheTTL cfg |};
     results := ∅; next := 0%nat |}.

(** [validateQuery]: the query as the call leaves it. *)
Definition validateQuery (q : SearchQuery) : SearchQuery :=
  let limit := if Limit q <=? 0 then 100 else Limit q in
  let limit := if 10000 <? limit then 10000 else limit in
  {| Query := Query q;
     Range := Range q;
     Filters := Filters q;
     Limit := limit;
     Offset := if Offset q <? 0 then 0 else Offset q;
     SortBy := if String.eqb (SortBy q) "" then "timestamp" else SortBy q;
     SortOrder := if String.eqb (SortOrder q) "" then "desc" else SortOrder q;
     Projection := Projection q |}.

(** [hits[i], hits[j] = hits[j], hits[i]]. *)
Definition swap_hits (i j : nat) (hits : list LogEntry) : list LogEntry :=
  match hits !! i, hits !! j with
  | Some a, Some b => <[i := b]> (<[j := a]> hits)
  | _, _ => hits
  end.

(** The body of the inner loop of [sortResults]. *)
Definition sort_inner (ascending : bool) (i : nat) (hits : list LogEntry)
    (j : nat) : list LogEntry :=
  match hits !! i, hits !! j with
  | Some a, Some b =>
      let swap :=
        if ascending then Go.After (Timestamp a) (Timestamp b)
        else Go.Before (Timestamp a) (Timestamp b) in
      if swap then swap_hits i j hits else hits
  | _, _ => hits
  end.

(** [sortResults]: [i] runs over [0 .. len-2], [j] over [i+1 .. len-1]. *)
Definition sortResults (res : SearchResult) (q : SearchQuery) : SearchResult :=
  if String.eqb (SortBy q) "timestamp" then
    let ascending := String.eqb (SortOrder q) "asc" in
    let n := length (Hits res) in
    let hits :=
      foldl (fun hits i => foldl (sort_inner ascending i) hits (seq (S i) (n - S i)))
            (Hits res) (seq 0 (n - 1)) in
    {| Hits := hits; Total := Total res; Took := Took res;
       TimedOut := TimedOut res |}
  else res.

(** [paginateResults], for a validated query ([0 <= Offset], [1 <= Limit]). *)
Definition paginateResults (res : SearchResult) (q : SearchQuery) : SearchResult :=
  let n := Z.of_nat (length (Hits res)) in
  if n <=? Offset q then
    {| Hits := []; Total := Total res; Took := Took res;
       TimedOut := TimedOut res |}
  else
    let start := Offset q in
    let stop := Go.wrap64 (start + Limit q) in
    let stop := if n <? stop then n else stop in
    {| Hits := take (Z.to_nat (stop - start)) (drop (Z.to_nat start) (Hits res));
       Total := Total res; Took := Took res; TimedOut := TimedOut res |}.

(** [queryCacheKey]: [fmt.Sprintf("%s:%d:%d:%s:%s", ...)]. *)
Definition queryCacheKey (q : SearchQuery) : string :=
  (Query q +:+ ":" +:+ pretty (Go.Unix (Start (Range q))) +:+ ":"
   +:+ pretty (Go.Unix (End_ (Range q))) +:+ ":" +:+ SortBy q +:+ ":"
   +:+ SortOrder q)%string.

(** [queryCache.get]; [now] is the clock read by [time.Since]. *)
Definition cache_get (c : queryCache) (key : string) (now : Z) : option nat :=
  match entries c !! key with
  | None => None
  | Some ce =>
      if ttl c <? Go.Since now (timestamp ce) then None else Some (result ce)
  end.

(** [queryCache.set]; [now] is the reading of [time.Now()]. *)
Definition cache_set (c : queryCache) (key : string) (r : nat) (now : Z)
    : queryCache :=
  let es := if maxSize c <=? Z.of_nat (size (entries c)) then ∅ else entries c in
  {| entries := <[key := {| result := r; timestamp := now |}]> es;
     maxSize := maxSize c; ttl := ttl c |}.

(** [Engine.Query]: the pointer returned ([None] for an error) and the
    engine afterwards.  [now_get] and [now_set] are the clock readings of
    the cache lookup and of the cache store. *)
Definition Engine_Query (store : Store) (now_get now_set : Z) (q : SearchQuery)
    (e : Engine) : option nat * Engine :=
  let q := validateQuery q in
  let cacheKey := queryCacheKey q in
  match cache_get (cache e) cacheKey now_get with
  | Some r => (Some r, e)
  | None =>
      match store q with
      | None => (None, e)
      | Some res =>
          let res := paginateResults (sortResults res q) q in
          let r := next e in
          (Some r,
           {| cache := cache_set (cache e) cacheKey r now_set;
              results := <[r := res]> (results e);
              next := S r |})
      end
  end.

(** [Engine.ClearCache]. *)
Definition ClearCache (e : Engine) : Engine :=
  {| cache := {| entries := ∅; maxSize := maxSize (cache e);
                 ttl := ttl (cache e) |};
     results := results e; next := next e |}.

(** The five components [queryCacheKey] reads. *)
Definition key_components (q : SearchQuery) : string * Z * Z * string * string :=
  (Query q, Go.Unix (Start (Range q)), Go.Unix (End_ (Range q)),
   SortBy q, SortOrder q).

End QueryEngine.

(* ===================================================================== *)
(** ** internal/agent/tailer: file states and the per-file reader         *)
(* ===================================================================== *)

Module Tailer.

Record Config := mkConfig {
  BufferSize : Z;
  StateFile : string;
  PollInterval : Z;
  BatchSize : Z;
  BatchTimeout : Z
}.

Record FileState := mkFileState {
  Path : string;
  Offset : Z;
  Inode : Z;
  Device : Z;
  Size : Z;
  ModTime : Z
}.

(** A file of the file system: its bytes and modification time. *)
Record inode_data := mkInodeData {
  content : string;
  mtime : Z
}.

(** The file system: symbolic links, the (device, inode) each path names,
    and the files themselves.  A renamed or unlinked file stays in [inodes]
    as long as somebody has it open. *)
Record FileSystem := mkFileSystem {
  symlinks : gmap string string;
  names : gmap string (Z * Z);
  inodes : gmap (Z * Z) inode_data
}.

(** The goroutine [tailFile] of one path, after it has opened its file:
    the (device, inode) of the open handle and whether somebody closed it,
    the read position of the buffered reader, and the locals [offset],
    [batch], [eofCount]. *)
Record reader := mkReader {
  rd_path : string;
  rd_handle : Z * Z;
  rd_open : bool;
  rd_pos : Z;
  rd_offset : Z;
  rd_batch : list string;
  rd_eofCount : Z
}.

(** A goroutine started by [AddFile] that has not opened its file yet, or
    a running reader. *)
Inductive goroutine :=
  | Starting (path : string)
  | Running (rd : reader).

Record FileTailer := mkFileTailer {
  config : Config;
  states : gmap string FileState;
  goroutines : list goroutine
}.

Inductive error :=
  | ErrStat     (* "failed to stat file" *)
  | ErrWatch.   (* "failed to watch file" *)

(** [filepath.EvalSymlinks], falling back on the path itself. *)
Definition resolve (fs : FileSystem) (path : string) : string :=
  default path (symlinks fs !! path).

(** [New] with the states [loadState] read from the state file. *)
Definition New (cfg : Config) (loaded : gmap string FileState) : FileTailer :=
  {| config := cfg; states := loaded; goroutines := [] |}.

(** [FileTailer.AddFile]; [watch_ok] tells whether [watcher.Add] accepts
    the path. *)
Definition AddFile (fs : FileSystem) (watch_ok : bool) (path : string)
    (ft : FileTailer) : option error * FileTailer :=
  let resolvedPath := resolve fs path in
  match states ft !! resolvedPath with
  | Some _ => (None, ft)
  | None =>
      match names fs !! resolvedPath with
      | None => (Some ErrStat, ft)
      | Some (dev, ino) =>
          match inodes fs !! (dev, ino) with
          | None => (Some ErrStat, ft)
          | Some f =>
              let st := {| Path := resolvedPath; Offset := 0; Inode := ino;
                           Device := dev;
                           Size := Z.of_nat (String.length (content f));
                           ModTime := mtime f |} in
              if watch_ok then
                (None,
                 {| config := config ft;
                    states := <[resolvedPath := st]> (states ft);
                    goroutines := goroutines ft ++ [Starting resolvedPath] |})
              else
                (Some ErrWatch,
                 {| config := config ft;
                    states := <[resolvedPath := st]> (states ft);
                    goroutines := goroutines ft |})
          end
      end
  end.

(** The start of [tailFile]: open the path, seek to the offset of its
    state.  [None]: the goroutine ends (open failed, or no state). *)
Definition tailFile_open (fs : FileSystem) (path : string) (ft : FileTailer)
    : option reader :=
  match names fs !! path with
  | None => None
  | Some h =>
      match states ft !! path with
      | None => None
      | Some st =>
          Some {| rd_path := path; rd_handle := h; rd_open := true;
                  rd_pos := Offset st; rd_offset := Offset st;
                  rd_batch := []; rd_eofCount := 0 |}
      end
  end.

(** [updateOffset]. *)
Definition updateOffset (path : string) (off : Z) (ft : FileTailer) : FileTailer :=
  match states ft !! path with
  | Some st =>
      {| config := config ft;
         states := <[path := {| Path := Path st; Offset := off;
                                Inode := Inode st; Device := Device st;
                                Size := Size st; ModTime := ModTime st |}]>
                     (states ft);
         goroutines := goroutines ft |}
  | None => ft
  end.

Definition newline : Ascii.ascii := Ascii.ascii_of_nat 10.

(** The bytes of [s] from position [n] on. *)
Fixpoint skip (n : nat) (s : string) : string :=
  match n, s with
  | O, _ => s
  | S n', String _ s' => skip n' s'
  | S _, EmptyString => EmptyString
  end.

(** [reader.ReadString('\n')] on the bytes left: the line with its
    terminator, or [None] when the bytes end before a terminator (io.EOF). *)
Fixpoint read_line (s : string) : option string :=
  match s with
  | EmptyString => None
  | String c s' =>
      if Ascii.eqb c newline then Some (String c EmptyString)
      else
        match read_line s' with
        | Some l => Some (String c l)
        | None => None
        end
  end.

(** Which case the [select] of the reader's loop takes. *)
Inductive select_case := CtxDone | TimerFired | ReadCycle.

(** One iteration of the loop of [tailFile]: the reader afterwards ([None]
    when the goroutine returns), the batch handed to [sendBatch] if any, and
    the tailer. *)
Definition tail_step (fs : FileSystem) (sel : select_case) (rd : reader)
    (ft : FileTailer) : option reader * list string * FileTailer :=
  let keep (b : list string) (pos off eof : Z) :=
    Some {| rd_path := rd_path rd; rd_handle := rd_handle rd;
            rd_open := rd_open rd; rd_pos := pos; rd_offset := off;
            rd_batch := b; rd_eofCount := eof |} in
  match sel with
  | CtxDone => (None, rd_batch rd, ft)
  | TimerFired =>
      (keep [] (rd_pos rd) (rd_offset rd) (rd_eofCount rd), rd_batch rd, ft)
  | ReadCycle =>
      match (if rd_open rd then inodes fs !! rd_handle rd else None) with
      | None => (None, [], ft)         (* read error: the goroutine ends *)
      | Some f =>
          let data := skip (Z.to_nat (rd_pos rd)) (content f) in
          match read_line data with
          | None =>
              (* io.EOF: the bytes read so far are dropped *)
              (keep [] (rd_pos rd + Z.of_nat (String.length data))
                    (rd_offset rd) (Go.incr (rd_eofCount rd)),
               rd_batch rd, ft)
          | Some line =>
              let n := Z.of_nat (String.length line) in
              let off := Go.wrap64 (rd_offset rd + n) in
              let ft' := updateOffset (rd_path rd) off ft in
              let batch := rd_batch rd ++ [line] in
              if BatchSize (config ft) <=? Z.of_nat (length batch) then
                (keep [] (rd_pos rd + n) off 0, batch, ft')
              else (keep batch (rd_pos rd + n) off 0, [], ft')
          end
      end
  end.



End Tailer.

(* ===================================================================== *)
(** ** pkg/models: log entries as objects in memory, and Clone            *)
(* ===================================================================== *)

Module Objects.

(** A value held in a [Fields] map or in a nested map or slice: scalars are
    stored in place, maps and slices are references to objects. *)
Inductive value :=
  | VNil
  | VBool (b : bool)
  | VNum (z : Z)
  | VStr (s : string)
  | VMap (a : nat)
  | VSlice (a : nat) (len : nat).

(** A [[]string] slice header: backing array, first index, length. *)
Record strings_slice := mkStringsSlice {
  arr : nat;
  first : nat;
  len : nat
}.

(** The [LogEntry] struct: [Fields] is a map reference or nil, [Tags] a
    slice header or nil. *)
Record LogEntry := mkLogEntry {
  ID : string;
  Timestamp : Z;
  Level : Models.LogLevel;
  Message : string;
  Source : string;
  Host : string;
  Service : string;
  Fields : option nat;
  Tags : option strings_slice;
  Raw : string
}.

Inductive object :=
  | OEntry (e : LogEntry)
  | OMap (m : gmap string value)
  | OValues (vs : list value)
  | OStrings (ss : list string).

Record heap := mkHeap {
  cells : gmap nat object;
  next : nat
}.

Definition alloc (o : object) (h : heap) : nat * heap :=
  (next h, {| cells := <[next h := o]> (cells h); next := S (next h) |}).

Definition store (a : nat) (o : object) (h : heap) : heap :=
  {| cells := <[a := o]> (cells h); next := next h |}.

(** [m[k] = v] on the map at [a]. *)
Definition map_assign (a : nat) (k : string) (v : value) (h : heap) : option heap :=
  match cells h !! a with
  | Some (OMap m) => Some (store a (OMap (<[k := v]> m)) h)
  | _ => None
  end.

(** [m[k]] on the map at [a]. *)
Definition map_index (a : nat) (k : string) (h : heap) : option value :=
  match cells h !! a with
  | Some (OMap m) => m !! k
  | _ => None
  end.

(** [s[i] = v] on the [[]interface{}] array at [a]. *)
Definition values_assign (a : nat) (i : nat) (v : value) (h : heap) : option heap :=
  match cells h !! a with
  | Some (OValues vs) =>
      if (i <? length vs)%nat then Some (store a (OValues (<[i := v]> vs)) h)
      else None
  | _ => None
  end.

(** The strings a [Tags] header denotes. *)
Definition tags_of (h : heap) (t : option strings_slice) : option (list string) :=
  match t with
  | None => Some []
  | Some s =>
      match cells h !! arr s with
      | Some (OStrings ss) => Some (take (len s) (drop (first s) ss))
      | _ => None
      end
  end.

(** The content of a [Fields] map. *)
Definition fields_of (h : heap) (f : option nat) : option (gmap string value) :=
  match f with
  | None => Some ∅
  | Some a =>
      match cells h !! a with
      | Some (OMap m) => Some m
      | _ => None
      end
  end.

Definition entry_at (h : heap) (p : nat) : option LogEntry :=
  match cells h !! p with
  | Some (OEntry e) => Some e
  | _ => None
  end.

(** [LogEntry.Clone]: the pointer to the clone and the heap afterwards.
    [None] stands for a receiver that does not point to a well-formed
    entry. *)
Definition Clone (p : nat) (h : heap) : option (nat * heap) :=
  match entry_at h p with
  | None => None
  | Some l =>
      match fields_of h (Fields l), tags_of h (Tags l) with
      | Some src_fields, Some src_tags =>
          let n := length src_tags in
          let '(a_fields, h1) := alloc (OMap ∅) h in
          let '(a_tags, h2) := alloc (OStrings (replicate n EmptyString)) h1 in
          let '(c, h3) :=
            alloc (OEntry {| ID := ID l; Timestamp := Timestamp l;
                             Level := Level l; Message := Message l;
                             Source := Source l; Host := Host l;
                             Service := Service l; Raw := Raw l;
                             Fields := Some a_fields;
                             Tags := Some {| arr := a_tags; first := 0%nat;
                                             len := n |} |}) h2 in
          (* for k, v := range l.Fields { clone.Fields[k] = v } *)
          let h4 :=
            map_fold (fun k v acc => default acc (map_assign a_fields k v acc))
                     h3 src_fields in
          (* copy(clone.Tags, l.Tags) *)
          let h5 := store a_tags (OStrings src_tags) h4 in
          Some (c, h5)
      | _, _ => None
      end
  end.

(** [l.GetField(key)]. *)
Definition GetField (p : nat) (key : string) (h : heap) : option value :=
  match entry_at h p with
  | Some l =>
      match Fields l with
      | None => None
      | Some a => map_index a key h
      end
  | None => None
  end.

(** [l.AddField(key, value)]. *)
Definition AddField (p : nat) (key : string) (v : value) (h : heap) : option heap :=
  match entry_at h p with
  | Some l =>
      match Fields l with
      | Some a => map_assign a key v h
      | None =>
          let '(a, h1) := alloc (OMap {[ key := v ]}) h in
          Some (store p (OEntry {| ID := ID l; Timestamp := Timestamp l;
                                   Level := Level l; Message := Message l;
                                   Source := Source l; Host := Host l;
                                   Service := Service l; Raw := Raw l;
                                   Fields := Some a; Tags := Tags l |}) h1)
      end
  | None => None
  end.

(** [l.Message = s]. *)
Definition set_Message (p : nat) (s : string) (h : heap) : option heap :=
  match entry_at h p with
  | Some l =>
      Some (store p (OEntry {| ID := ID l; Timestamp := Timestamp l;
                               Level := Level l; Message := s;
                               Source := Source l; Host := Host l;
                               Service := Service l; Raw := Raw l;
                               Fields := Fields l; Tags := Tags l |}) h)
  | None => None
  end.

(** [l.Tags[i] = s]. *)
Definition set_Tag (p : nat) (i : nat) (s : string) (h : heap) : option heap :=
  match entry_at h p with
  | Some l =>
      match Tags l with
      | Some t =>
          match cells h !! arr t with
          | Some (OStrings ss) =>
              if (i <? len t)%nat
              then Some (store (arr t) (OStrings (<[(first t + i)%nat := s]> ss)) h)
              else None
          | _ => None
          end
      | None => None
      end
  | None => None
  end.

(** [l.Fields[k].(map[string]interface{})[k2] = v]. *)
Definition nested_map_assign (p : nat) (k k2 : string) (v : value) (h : heap)
    : option heap :=
  match GetField p k h with
  | Some (VMap a) => map_assign a k2 v h
  | _ => None
  end.

(** [l.Fields[k].(map[string]interface{})[k2]]. *)
Definition nested_map_index (p : nat) (k k2 : string) (h : heap) : option value :=
  match GetField p k h with
  | Some (VMap a) => map_index a k2 h
  | _ => None
  end.

End Objects.

(* ===================================================================== *)
(** ** internal/storage: the partition scan of Query, and Delete          *)
(* ===================================================================== *)

Module StoreQuery.

Import Models Storage.

(** The test of [findPartitions] on one partition. *)
Definition overlaps (tr : TimeRange) (part : partition) : bool :=
  Go.Before (startTime part) (End_ tr) && Go.After (endTime part) (Start tr).

(** [findPartitions]; [order] lists the keys of the partition table in the
    order in which the [range] over the table visits them, which Go leaves
    open. *)
Definition findPartitions (order : list string) (tr : TimeRange)
    (fs : FileStore) : list partition :=
  filter (fun part => overlaps tr part = true)
         (omap (fun key => partitions fs !! key) order).

(** The loop of [Query] over the partitions found; [None] stands for the
    run-time panic of [result.Hits[:query.Limit]] with a negative limit. *)
Fixpoint query_loop (q : SearchQuery) (fs : FileStore) (parts : list partition)
    (hits : list LogEntry) : option (list LogEntry) :=
  match parts with
  | [] => Some hits
  | part :: rest =>
      match readPartition part q fs with
      | inl _ => query_loop q fs rest hits
      | inr entries =>
          let hits := hits ++ entries in
          if Limit q <=? Z.of_nat (length hits) then
            if Limit q <? 0 then None
            else Some (take (Z.to_nat (Limit q)) hits)
          else query_loop q fs rest hits
      end
  end.

(** [FileStore.Query]; [took] is [time.Since(start).Milliseconds()].  The
    call returns no error; [None] is the panic of [query_loop]. *)
Definition FileStore_Query (order : list string) (took : Z) (q : SearchQuery)
    (fs : FileStore) : option SearchResult :=
  match query_loop q fs (findPartitions order (Range q) fs) [] with
  | None => None
  | Some hits =>
      Some {| Hits := hits; Total := Z.of_nat (length hits); Took := took;
              TimedOut := false |}
  end.

(** The test of [Delete] on one partition. *)
Definition expired (before : Z) (part : partition) : bool :=
  Go.Before (endTime part) before.

(** [FileStore.Delete]: every partition that ends before [before] is taken
    out of the table and [os.Remove] is called on its path.  The index and
    the statistics are left as they are. *)
Definition Delete (before : Z) (fs : FileStore) : FileStore :=
  {| config := config fs;
     partitions := filter (fun kp => expired before kp.2 = false) (partitions fs);
     stats := stats fs;
     index := index fs;
     disk := map_fold (fun _ part d =>
                         if expired before part then delete (path part) d else d)
                      (disk fs) (partitions fs) |}.

(** [FileStore.Stats]. *)
Definition Stats (fs : FileStore) : StoreStats := stats fs.

End StoreQuery.

(* ===================================================================== *)
(** ** internal/query: aggregations                                       *)
(* ===================================================================== *)

Module Aggregation.

Import Models QueryEngine.

(** [entry.GetField(field)]; [Fields] lists the keys of the map with their
    values. *)
Definition GetField (e : LogEntry) (field : string) : option FieldValue :=
  (list_to_map (Fields e) : gmap string FieldValue) !! field.

(** [counts[key]++] on a [map[string]int]. *)
Definition bump (key : string) (counts : gmap string Z) : gmap string Z :=
  <[key := Go.incr (default 0 (counts !! key))]> counts.

(** The value the [switch] of [termsAggregation] gives an entry; [Sprint]
    is [fmt.Sprintf("%v", _)]. *)
Definition terms_value (Sprint : FieldValue -> string) (field : string)
    (e : LogEntry) : string :=
  if String.eqb field "level" then Level e
  else if String.eqb field "source" then Source e
  else if String.eqb field "host" then Host e
  else if String.eqb field "service" then Service e
  else
    match GetField e field with
    | Some v => Sprint v
    | None => ""
    end.

(** [termsAggregation]: the buckets, as the table from key to count that
    the function turns into a list in the order of its [range]. *)
Definition termsAggregation (Sprint : FieldValue -> string)
    (entries : list LogEntry) (field : string) : gmap string Z :=
  foldl (fun counts e =>
           let value := terms_value Sprint field e in
           if String.eqb value "" then counts else bump value counts)
        ∅ entries.

(** The [switch] of [dateHistogram] on the interval. *)
Definition interval_duration (interval : string) : Z :=
  if String.eqb interval "minute" then Go.Minute
  else if String.eqb interval "hour" then Go.Hour
  else if String.eqb interval "day" then 24 * Go.Hour
  else Go.Hour.

(** [dateHistogram]; [RFC3339] is [Format(time.RFC3339)] (all timestamps
    taken in one location). *)
Definition dateHistogram (RFC3339 : Z -> string) (entries : list LogEntry)
    (interval : string) : gmap string Z :=
  foldl (fun buckets e =>
           bump (RFC3339 (Go.Truncate (Timestamp e) (interval_duration interval)))
                buckets)
        ∅ entries.

Inductive aggregation :=
  | AggCount (count : Z)
  | AggBuckets (buckets : gmap string Z).

Inductive error :=
  | ErrStore          (* the error of store.Query *)
  | ErrUnsupported.   (* "unsupported aggregation type" *)

(** [Engine.Aggregate]: the query goes to the store as it is, without
    [validateQuery] and without the cache. *)
Definition Aggregate (Sprint : FieldValue -> string) (RFC3339 : Z -> string)
    (store : Store) (q : SearchQuery) (aggType field : string)
    : error + aggregation :=
  match store q with
  | None => inl ErrStore
  | Some result =>
      if String.eqb aggType "count" then inr (AggCount (Total result))
      else if String.eqb aggType "terms" then
        inr (AggBuckets (termsAggregation Sprint (Hits result) field))
      else if String.eqb aggType "date_histogram" then
        inr (AggBuckets (dateHistogram RFC3339 (Hits result) field))
      else inl ErrUnsupported
  end.

End Aggregation.

(* ===================================================================== *)
(** ** internal/server/receiver: the authentication middleware            *)
(* ===================================================================== *)

Module ReceiverAuth.

Import Receiver.

Definition StatusUnauthorized : Z := 401.

(** The token [authMiddleware] extracts from the Authorization header:
    [authHeader[7:]] when the header is longer than 7 bytes and starts with
    "Bearer ", the empty string otherwise. *)
Definition bearer_token (authHeader : string) : string :=
  if (7 <? String.length authHeader)%nat
     && String.eqb (String.substring 0 7 authHeader) "Bearer "
  then String.substring 7 (String.length authHeader - 7) authHeader
  else "".

(** The loop over [config.APIKeys]: is the token one of the keys. *)
Definition valid_token (cfg : Config) (token : string) : bool :=
  existsb (fun kv => String.eqb token kv.2) (map_to_list (APIKeys cfg)).

(** [authMiddleware(next)] on a request whose Authorization header is
    [authHeader] (empty when the request has none). *)
Definition authMiddleware (next : Receiver -> Receiver * Response)
    (authHeader : string) (r : Receiver) : Receiver * Response :=
  if negb (RequireAuth (config r)) then next r
  else if String.eqb authHeader "" then fail r StatusUnauthorized
  else if valid_token (config r) (bearer_token authHeader) then next r
  else fail r StatusUnauthorized.

(** [GetStats]. *)
Definition GetStats (r : Receiver) : Stats := stats r.

End ReceiverAuth.

(* ===================================================================== *)
(** ** internal/agent/shipper: the input queue and the batch processor    *)
(* ===================================================================== *)

Module ShipperBatch.

Import Models Shipper.

(** [models.NewBatch(source)]; [now] is the reading of [time.Now()]. *)
Definition NewBatch (source : string) (now : Z) : Batch :=
  {| Entries := []; BatchID := ""; BatchSource := source;
     BatchTimestamp := now; Compressed := false; CompressionType := "" |}.

(** [Batch.Add]. *)
Definition Batch_Add (entry : LogEntry) (b : Batch) : Batch :=
  {| Entries := Entries b ++ [entry]; BatchID := BatchID b;
     BatchSource := BatchSource b; BatchTimestamp := BatchTimestamp b;
     Compressed := Compressed b; CompressionType := CompressionType b |}.

(** [Batch.Size]. *)
Definition Batch_Size (b : Batch) : Z := Z.of_nat (length (Entries b)).

(** [Batch.IsEmpty]. *)
Definition Batch_IsEmpty (b : Batch) : bool := (length (Entries b) =? 0)%nat.

(** [Batch.Clear]. *)
Definition Batch_Clear (b : Batch) : Batch :=
  {| Entries := []; BatchID := BatchID b; BatchSource := BatchSource b;
     BatchTimestamp := BatchTimestamp b; Compressed := Compressed b;
     CompressionType := CompressionType b |}.

(** The shipper: the current batch, the buffered channel [inputChan]
    (oldest entry first), the cancellation flag of [ctx], the endpoints.
    [attempted] is the history of [sendWithRetry]: every batch handed to it,
    in order, with the outcome of the call. *)
Record Shipper := mkShipper {
  config : Config;
  batch : Batch;
  inputChan : list LogEntry;
  ctx_done : bool;
  endpoints : list endpoint;
  attempted : list (Batch * outcome)
}.

(** Capacity of [inputChan]: [config.BatchSize*2]. *)
Definition inputChan_cap (cfg : Config) : Z := Go.wrap64 (BatchSize cfg * 2).

(** [New], for a capacity that is not negative. *)
Definition New (cfg : Config) (agentID : string) (now : Z) : Shipper :=
  {| config := cfg; batch := NewBatch agentID now; inputChan := [];
     ctx_done := false; endpoints := new_endpoint <$> Endpoints cfg;
     attempted := [] |}.

Inductive error :=
  | ErrClosed        (* "shipper is closed" *)
  | ErrBufferFull.

(** [Ship]; [choose_done] is the choice of [select] when both the send and
    [ctx.Done()] are ready. *)
Definition Ship (choose_done : bool) (entry : LogEntry) (s : Shipper)
    : option error * Shipper :=
  let send_ready := Z.of_nat (length (inputChan s)) <? inputChan_cap (config s) in
  if send_ready && negb (ctx_done s && choose_done) then
    (None,
     {| config := config s; batch := batch s;
        inputChan := inputChan s ++ [entry]; ctx_done := ctx_done s;
        endpoints := endpoints s; attempted := attempted s |})
  else if ctx_done s then (Some ErrClosed, s)
  else (Some ErrBufferFull, s).

(** [ShipBatch]; [choose_done k] is the choice made for entry [k]. *)
Fixpoint ShipBatch (choose_done : nat -> bool) (k : nat)
    (entries : list LogEntry) (s : Shipper) : option error * Shipper :=
  match entries with
  | [] => (None, s)
  | entry :: rest =>
      match Ship (choose_done k) entry s with
      | (Some err, s') => (Some err, s')
      | (None, s') => ShipBatch choose_done (S k) rest s'
      end
  end.

(** What a call of [sendCurrentBatch] sees of the outside world: the clock
    read by [NewBatch], and the world of [sendWithRetry]. *)
Record world := mkWorld {
  now : Z;
  attempts : Z -> attempt_env;
  fuel : nat
}.

(** [sendCurrentBatch]: an error of [sendWithRetry] is printed, the batch
    is not kept. *)
Definition sendCurrentBatch (w : world) (s : Shipper) : Shipper :=
  if Batch_IsEmpty (batch s) then s
  else
    let b := batch s in
    let '(out, eps, _) :=
      sendWithRetry (config s) (attempts w) (fuel w) (endpoints s) in
    {| config := config s; batch := NewBatch (BatchSource b) (now w);
       inputChan := inputChan s; ctx_done := ctx_done s; endpoints := eps;
       attempted := attempted s ++ [(b, out)] |}.

(** The case the [select] of [processBatches] takes. *)
Inductive select_case := CaseDone | CaseEntry | CaseTick.

(** One iteration of the loop of [processBatches]: the shipper afterwards,
    and whether the loop goes on.  A case that is not ready (no entry on the
    channel, context not cancelled) is not taken. *)
Definition process_step (c : select_case) (w : world) (s : Shipper)
    : Shipper * bool :=
  match c with
  | CaseDone =>
      if ctx_done s then (sendCurrentBatch w s, false) else (s, true)
  | CaseEntry =>
      match inputChan s with
      | [] => (s, true)
      | entry :: rest =>
          let s1 := {| config := config s; batch := Batch_Add entry (batch s);
                       inputChan := rest; ctx_done := ctx_done s;
                       endpoints := endpoints s; attempted := attempted s |} in
          if BatchSize (config s) <=? Batch_Size (batch s1)
          then (sendCurrentBatch w s1, true)
          else (s1, true)
      end
  | CaseTick => (sendCurrentBatch w s, true)
  end.

(** What happens to a shipper: a call of [Ship], the cancellation of its
    context by [Close], an iteration of [processBatches]. *)
Inductive action :=
  | DoShip (choose_done : bool) (entry : LogEntry)
  | DoCancel
  | DoProcess (c : select_case) (w : world).

(** The shipper together with the liveness of the [processBatches]
    goroutine and the entries [Ship] has accepted so far. *)
Record system := mkSystem {
  shipper : Shipper;
  processing : bool;
  accepted : list LogEntry
}.

Definition act (sys : system) (a : action) : system :=
  let s := shipper sys in
  match a with
  | DoShip choose_done entry =>
      match Ship choose_done entry s with
      | (None, s') =>
          {| shipper := s'; processing := processing sys;
             accepted := accepted sys ++ [entry] |}
      | (Some _, s') =>
          {| shipper := s'; processing := processing sys;
             accepted := accepted sys |}
      end
  | DoCancel =>
      {| shipper := {| config := config s; batch := batch s;
                       inputChan := inputChan s; ctx_done := true;
                       endpoints := endpoints s; attempted := attempted s |};
         processing := processing sys; accepted := accepted sys |}
  | DoProcess c w =>
      if processing sys then
        let '(s', go_on) := process_step c w s in
        {| shipper := s'; processing := go_on; accepted := accepted sys |}
      else sys
  end.

(** The system [New] sets up. *)
Definition start (cfg : Config) (agentID : string) (now : Z) : system :=
  {| shipper := New cfg agentID now; processing := true; accepted := [] |}.

End ShipperBatch.

(* ===================================================================== *)
(** ** internal/agent/tailer: a run of read cycles                        *)
(* ===================================================================== *)

Module TailerRun.

Import Tailer.

(** [n] iterations of the loop of [tailFile] that all take the [default]
    case of the [select] (a read): the reader afterwards ([None] when the
    goroutine has returned), the lines handed to [sendBatch], in order, and
    the tailer. *)
Fixpoint read_cycles (fs : FileSystem) (n : nat) (rd : reader) (ft : FileTailer)
    : option reader * list string * FileTailer :=
  match n with
  | O => (Some rd, [], ft)
  | S n' =>
      match tail_step fs ReadCycle rd ft with
      | (None, sent, ft') => (None, sent, ft')
      | (Some rd', sent, ft') =>
          let '(rd'', sent', ft'') := read_cycles fs n' rd' ft' in
          (rd'', sent ++ sent', ft'')
      end
  end.

End TailerRun.

(* ===================================================================== *)
(** ** pkg/models: HasTag                                                 *)
(* ===================================================================== *)

Module ObjectsTags.

Import Objects.

(** [l.HasTag(tag)]. *)
Definition HasTag (p : nat) (tag : string) (h : heap) : option bool :=
  match entry_at h p with
  | Some l =>
      match tags_of h (Tags l) with
      | Some ts => Some (existsb (String.eqb tag) ts)
      | None => None
      end
  | None => None
  end.

End ObjectsTags.

(* ===================================================================== *)
(** ** internal/pipeline/processor: the field processors                  *)
(* ===================================================================== *)

Module Processor.

Import Objects.

(** [delete(entry.Fields, key)]; deleting from a nil map does nothing. *)
Definition delete_field (p : nat) (key : string) (h : heap) : option heap :=
  match entry_at h p with
  | Some l =>
      match Fields l with
      | None => Some h
      | Some a =>
          match cells h !! a with
          | Some (OMap m) => Some (store a (OMap (delete key m)) h)
          | _ => None
          end
      end
  | None => None
  end.

(** [AddFieldsProcessor.Process]; [fields] lists [p.fields] in the order of
    the [range]. *)
Definition AddFields_Process (fields : list (string * value)) (p : nat)
    (h : heap) : option heap :=
  foldl (fun acc kv => acc ≫= AddField p kv.1 kv.2) (Some h) fields.

(** The body of the loop of [RenameFieldsProcessor.Process]. *)
Definition rename_one (p : nat) (acc : option heap) (names : string * string)
    : option heap :=
  acc ≫= fun h =>
    match GetField p names.1 h with
    | Some v => AddField p names.2 v h ≫= delete_field p names.1
    | None => Some h
    end.

(** [RenameFieldsProcessor.Process]; [mapping] lists [p.mapping] in the
    order of the [range], which Go leaves open. *)
Definition RenameFields_Process (mapping : list (string * string)) (p : nat)
    (h : heap) : option heap :=
  foldl (rename_one p) (Some h) mapping.

(** [DropFieldsProcessor.Process]. *)
Definition DropFields_Process (fields : list string) (p : nat) (h : heap)
    : option heap :=
  foldl (fun acc field => acc ≫= delete_field p field) (Some h) fields.

(** The loop of [LowercaseProcessor.Process] and [TrimProcessor.Process]:
    [f] is [strings.ToLower], respectively [strings.TrimSpace]. *)
Definition map_fields (f : string -> string) (fields : list string) (p : nat)
    (h : heap) : option heap :=
  foldl (fun acc field =>
           acc ≫= fun h =>
             match GetField p field h with
             | Some (VStr s) => AddField p field (VStr (f s)) h
             | _ => Some h
             end)
        (Some h) fields.

(** [FilterProcessor.Process]: [true] stands for the error "entry filtered
    out"; [Contains] is [strings.Contains]. *)
Definition Filter_Process (Contains : string -> string -> bool)
    (dropIfMatch : bool) (field pattern : string) (p : nat) (h : heap) : bool :=
  match GetField p field h with
  | Some (VStr s) =>
      let matches := Contains s pattern in
      (dropIfMatch && matches) || (negb dropIfMatch && negb matches)
  | _ => false
  end.

End Processor.

(* ===================================================================== *)
(** ** internal/pipeline: the workers between receiver and store          *)
(* ===================================================================== *)

Module Pipeline.

Import Models.

Record PipelineStats := mkPipelineStats {
  Processed : Z;
  Failed : Z;
  Dropped : Z;
  AverageLatency : Z;
  LastProcessed : Z
}.

(** A parser or a processor as [processEntry] uses it: the entry as the
    call leaves it, or [None] when the call returns an error. *)
Definition stage := LogEntry -> option LogEntry.

(** The loop of [processEntry] over the processors. *)
Fixpoint apply_processors (processors : list stage) (entry : LogEntry)
    : option LogEntry :=
  match processors with
  | [] => Some entry
  | proc :: rest =>
      match proc entry with
      | Some entry' => apply_processors rest entry'
      | None => None
      end
  end.

(** [processEntry]. *)
Definition processEntry (parser : option stage) (processors : list stage)
    (entry : LogEntry) : option LogEntry :=
  match parser with
  | Some parse =>
      match parse entry with
      | Some entry' => apply_processors processors entry'
      | None => None
      end
  | None => apply_processors processors entry
  end.

(** A worker goroutine: at its outer [select], between [processEntry] and
    the inner [select] with the entry in hand, or returned. *)
Inductive worker :=
  | Idle
  | Holding (entry : LogEntry) (start : Z)
  | Returned.

(** The pipeline: the two channels (oldest entry first), the context, the
    statistics, the workers.  [taken], [sent] and [abandoned] are
    histories: the entries received from the input channel, those sent on
    the output channel, and those a worker had in hand when it returned. *)
Record Pipeline := mkPipeline {
  parser : option stage;
  processors : list stage;
  input : list LogEntry;
  input_closed : bool;
  output : list LogEntry;
  output_cap : nat;
  ctx_done : bool;
  stats : PipelineStats;
  workers : list worker;
  taken : list LogEntry;
  sent : list LogEntry;
  abandoned : list LogEntry
}.

(** [New] with [n] workers. *)
Definition New (parser : option stage) (processors : list stage)
    (output_cap : nat) (n : nat) : Pipeline :=
  {| parser := parser; processors := processors; input := [];
     input_closed := false; output := []; output_cap := output_cap;
     ctx_done := false;
     stats := {| Processed := 0; Failed := 0; Dropped := 0;
                 AverageLatency := 0; LastProcessed := 0 |};
     workers := replicate n Idle; taken := []; sent := []; abandoned := [] |}.

(** [recordSuccess]; [now] is the reading of [time.Now()]. *)
Definition recordSuccess (latency now : Z) (s : PipelineStats) : PipelineStats :=
  {| Processed := Go.wrapu64 (Processed s + 1);
     Failed := Failed s; Dropped := Dropped s;
     AverageLatency :=
       if AverageLatency s =? 0 then latency
       else Z.quot (Go.wrap64 (AverageLatency s + latency)) 2;
     LastProcessed := now |}.

(** [recordFailure]. *)
Definition recordFailure (s : PipelineStats) : PipelineStats :=
  {| Processed := Processed s; Failed := Go.wrapu64 (Failed s + 1);
     Dropped := Dropped s; AverageLatency := AverageLatency s;
     LastProcessed := LastProcessed s |}.

(** [recordDrop]. *)
Definition recordDrop (s : PipelineStats) : PipelineStats :=
  {| Processed := Processed s; Failed := Failed s;
     Dropped := Go.wrapu64 (Dropped s + 1);
     AverageLatency := AverageLatency s; LastProcessed := LastProcessed s |}.

Definition update (p : Pipeline) (input' output' : list LogEntry)
    (stats' : PipelineStats) (workers' : list worker)
    (taken' sent' abandoned' : list LogEntry) : Pipeline :=
  {| parser := parser p; processors := processors p; input := input';
     input_closed := input_closed p; output := output';
     output_cap := output_cap p; ctx_done := ctx_done p; stats := stats';
     workers := workers'; taken := taken'; sent := sent';
     abandoned := abandoned' |}.

(** Worker [i] at its outer [select]: it returns on cancellation or on a
    closed input, or receives an entry and runs [processEntry] on it.
    [choose_done] is the choice made when both cases are ready; [start] is
    the reading of [time.Now()]. *)
Definition receive (i : nat) (choose_done : bool) (start : Z) (p : Pipeline)
    : Pipeline :=
  match workers p !! i with
  | Some Idle =>
      let input_ready :=
        match input p with [] => input_closed p | _ => true end in
      if ctx_done p && (choose_done || negb input_ready) then
        update p (input p) (output p) (stats p) (<[i := Returned]> (workers p))
               (taken p) (sent p) (abandoned p)
      else
        match input p with
        | [] =>
            if input_closed p then
              update p (input p) (output p) (stats p)
                     (<[i := Returned]> (workers p))
                     (taken p) (sent p) (abandoned p)
            else p
        | entry :: rest =>
            match processEntry (parser p) (processors p) entry with
            | None =>
                update p rest (output p) (recordFailure (stats p)) (workers p)
                       (taken p ++ [entry]) (sent p) (abandoned p)
            | Some entry' =>
                update p rest (output p) (stats p)
                       (<[i := Holding entry' start]> (workers p))
                       (taken p ++ [entry]) (sent p) (abandoned p)
            end
        end
  | _ => p
  end.

(** Worker [i] at its inner [select], with an entry in hand: it sends the
    entry, returns on cancellation, or drops the entry when the output is
    full.  [since] is the clock as [time.Since(start)] reads it, [now] as
    [recordSuccess] reads it. *)
Definition deliver (i : nat) (choose_done : bool) (since now : Z)
    (p : Pipeline) : Pipeline :=
  match workers p !! i with
  | Some (Holding entry start) =>
      let send_ready := (length (output p) <? output_cap p)%nat in
      if send_ready && negb (ctx_done p && choose_done) then
        update p (input p) (output p ++ [entry])
               (recordSuccess (Go.Since since start) now (stats p))
               (<[i := Idle]> (workers p))
               (taken p) (sent p ++ [entry]) (abandoned p)
      else if ctx_done p then
        update p (input p) (output p) (stats p) (<[i := Returned]> (workers p))
               (taken p) (sent p) (abandoned p ++ [entry])
      else
        update p (input p) (output p) (recordDrop (stats p))
               (<[i := Idle]> (workers p))
               (taken p) (sent p) (abandoned p)
  | _ => p
  end.

(** What happens to a pipeline: a step of a worker, the receiver putting
    an entry on the input channel, the storage writer taking entries off
    the output channel, [Stop] cancelling the context, the input channel
    being closed. *)
Inductive action :=
  | Receive (i : nat) (choose_done : bool) (start : Z)
  | Deliver (i : nat) (choose_done : bool) (since now : Z)
  | Produce (entry : LogEntry)
  | Consume (n : nat)
  | Cancel
  | CloseInput.

Definition act (p : Pipeline) (a : action) : Pipeline :=
  match a with
  | Receive i choose_done start => receive i choose_done start p
  | Deliver i choose_done since now => deliver i choose_done since now p
  | Produce entry =>
      update p (input p ++ [entry]) (output p) (stats p) (workers p)
             (taken p) (sent p) (abandoned p)
  | Consume n =>
      update p (input p) (drop n (output p)) (stats p) (workers p)
             (taken p) (sent p) (abandoned p)
  | Cancel =>
      {| parser := parser p; processors := processors p; input := input p;
         input_closed := input_closed p; output := output p;
         output_cap := output_cap p; ctx_done := true; stats := stats p;
         workers := workers p; taken := taken p; sent := sent p;
         abandoned := abandoned p |}
  | CloseInput =>
      {| parser := parser p; processors := processors p; input := input p;
         input_closed := true; output := output p;
         output_cap := output_cap p; ctx_done := ctx_done p; stats := stats p;
         workers := workers p; taken := taken p; sent := sent p;
         abandoned := abandoned p |}
  end.

(** [GetStats]. *)
Definition GetStats (p : Pipeline) : PipelineStats := stats p.

End Pipeline.

(* ===================================================================== *)
(** ** internal/agent/buffer: the memory buffer                           *)
(* ===================================================================== *)

Module Buffer.

Import Models.

(** What an overflow file holds: the entries marshalled into it, or [None]
    when a write that failed has left it incomplete. *)
Definition file := option (list LogEntry).

(** The memory buffer, together with the overflow files it has written:
    [files] maps the name of each of them to what the file holds now,
    [written] is the history of the calls of [os.WriteFile] that reached the
    file, in order. *)
Record MemoryBuffer := mkMemoryBuffer {
  entries : list LogEntry;
  maxEntries : Z;
  overflowed : bool;
  diskPath : string;
  files : gmap string file;
  written : list (string * file)
}.

(** [NewMemoryBuffer]. *)
Definition NewMemoryBuffer (maxEntries : Z) (diskPath : string) : MemoryBuffer :=
  {| entries := []; maxEntries := maxEntries; overflowed := false;
     diskPath := diskPath; files := ∅; written := [] |}.

(** How [spillToDisk] can fail: in [os.MkdirAll], in [json.Marshal], or in
    [os.WriteFile], before ([touched] = false) or after the file has been
    created or truncated. *)
Inductive spill_fault :=
  | MkdirFails
  | MarshalFails
  | WriteFails (touched : bool).

(** What a call that may spill sees of the outside world: the reading of
    [time.Now().UnixNano()], the failure met if any, and [filepath.Join]. *)
Record world := mkWorld {
  unix_nano : Z;
  fault : option spill_fault;
  filepath_Join : string -> string -> string
}.

Definition overflow_file (w : world) (diskPath : string) : string :=
  filepath_Join w (filepath_Join w diskPath "overflow")
                ("overflow_" +:+ pretty (unix_nano w) +:+ ".json")%string.

(** [spillToDisk]: [None] for success.  [os.WriteFile] replaces a file
    that has the same name. *)
Definition spillToDisk (w : world) (mb : MemoryBuffer) : option unit * MemoryBuffer :=
  match entries mb with
  | [] => (None, mb)
  | _ =>
      let filename := overflow_file w (diskPath mb) in
      match fault w with
      | None =>
          (None,
           {| entries := []; maxEntries := maxEntries mb; overflowed := true;
              diskPath := diskPath mb;
              files := <[filename := Some (entries mb)]> (files mb);
              written := written mb ++ [(filename, Some (entries mb))] |})
      | Some (WriteFails true) =>
          (Some tt,
           {| entries := entries mb; maxEntries := maxEntries mb;
              overflowed := overflowed mb; diskPath := diskPath mb;
              files := <[filename := None]> (files mb);
              written := written mb ++ [(filename, None)] |})
      | Some _ => (Some tt, mb)
      end
  end.

(** [MemoryBuffer.Add]. *)
Definition Add (w : world) (entry : LogEntry) (mb : MemoryBuffer)
    : option unit * MemoryBuffer :=
  let '(err, mb1) :=
    if maxEntries mb <=? Z.of_nat (length (entries mb)) then spillToDisk w mb
    else (None, mb) in
  match err with
  | Some e => (Some e, mb1)
  | None =>
      (None,
       {| entries := entries mb1 ++ [entry]; maxEntries := maxEntries mb1;
          overflowed := overflowed mb1; diskPath := diskPath mb1;
          files := files mb1; written := written mb1 |})
  end.

(** [MemoryBuffer.AddBatch]; [w k] is the world seen for entry [k]. *)
Fixpoint AddBatch (w : nat -> world) (k : nat) (batch : list LogEntry)
    (mb : MemoryBuffer) : option unit * MemoryBuffer :=
  match batch with
  | [] => (None, mb)
  | entry :: rest =>
      match Add (w k) entry mb with
      | (Some e, mb') => (Some e, mb')
      | (None, mb') => AddBatch w (S k) rest mb'
      end
  end.

(** [MemoryBuffer.Get]; [None] stands for the panic of [make] with a
    negative length. *)
Definition Get (limit : Z) (mb : MemoryBuffer) : option (list LogEntry) :=
  let limit :=
    if Z.of_nat (length (entries mb)) <? limit
    then Z.of_nat (length (entries mb)) else limit in
  if limit <? 0 then None else Some (take (Z.to_nat limit) (entries mb)).

(** [MemoryBuffer.Remove]. *)
Definition Remove (ids : list string) (mb : MemoryBuffer) : MemoryBuffer :=
  {| entries := filter (fun e => ID e ∉ ids) (entries mb);
     maxEntries := maxEntries mb; overflowed := overflowed mb;
     diskPath := diskPath mb; files := files mb; written := written mb |}.

(** [MemoryBuffer.Size]. *)
Definition Size (mb : MemoryBuffer) : Z := Z.of_nat (length (entries mb)).

(** The capacity [New] gives a buffer of type "memory". *)
Definition memory_capacity (MaxSize : Z) : Z :=
  if MaxSize <=? 0 then 10000 else MaxSize.

End Buffer.

(* ===================================================================== *)
(** * Properties                                                          *)
(* ===================================================================== *)

(** ** Arithmetic of the Go integer types *)

Section GoFacts.

Lemma wrap64_id (z : Z) :
  Go.int64_min <= z <= Go.int64_max -> Go.wrap64 z = z.
Proof.
  unfold Go.wrap64, Go.int64_min, Go.int64_max. intros H.
  rewrite Z.mod_small; lia.
Qed.

Lemma wrap64_range (z : Z) : Go.int64_min <= Go.wrap64 z <= Go.int64_max.
Proof.
  unfold Go.wrap64, Go.int64_min, Go.int64_max.
  pose proof (Z.mod_pos_bound (z + 2 ^ 63) (2 ^ 64)). lia.
Qed.

Lemma wrap64_congr (a b : Z) :
  a mod 2 ^ 64 = b mod 2 ^ 64 -> Go.wrap64 a = Go.wrap64 b.
Proof.
  intros H. unfold Go.wrap64.
  rewrite (Z.add_mod a), (Z.add_mod b), H by lia. reflexivity.
Qed.

(** A sum that left the range upwards wraps to a negative number. *)
Lemma wrap64_le (z : Z) : Go.int64_min <= z -> Go.wrap64 z <= z.
Proof.
  unfold Go.wrap64, Go.int64_min. intros H.
  pose proof (Z.mod_le (z + 2 ^ 63) (2 ^ 64)). lia.
Qed.

Lemma incr_small (z : Z) :
  Go.int64_min <= z < Go.int64_max -> Go.incr z = z + 1.
Proof. intros H. unfold Go.incr. apply wrap64_id. lia. Qed.

Lemma decr_small (z : Z) :
  Go.int64_min < z <= Go.int64_max -> Go.decr z = z - 1.
Proof. intros H. unfold Go.decr. apply wrap64_id. lia. Qed.

Lemma shl1_mod (n : Z) : 0 <= n -> Go.shl1 n mod 2 ^ 64 = 2 ^ n mod 2 ^ 64.
Proof.
  intros Hn. unfold Go.shl1. destruct (64 <=? n) eqn:E.
  - apply Z.leb_le in E. replace n with (64 + (n - 64)) by lia.
    rewrite Z.pow_add_r by lia. rewrite Z.mul_comm, Z.mod_mul by lia.
    reflexivity.
  - rewrite Z.shiftl_1_l. unfold Go.wrap64.
    rewrite Zminus_mod, Zmod_mod, <- Zminus_mod.
    f_equal. lia.
Qed.

(** [RetryBackoff * time.Duration(1 << uint(n))] is [RetryBackoff * 2^n] in
    64-bit arithmetic. *)
Lemma backoff_wrap (b n : Z) :
  0 <= n -> Go.mul b (Go.shl1 n) = Go.wrap64 (b * 2 ^ n).
Proof.
  intros Hn. unfold Go.mul. apply wrap64_congr.
  rewrite Z.mul_mod, shl1_mod, <- Z.mul_mod by lia. reflexivity.
Qed.

Lemma Sub_small (t u : Z) :
  Go.int64_min <= t - u <= Go.int64_max -> Go.Sub t u = t - u.
Proof.
  unfold Go.Sub. intros H.
  destruct (Go.int64_max <? t - u) eqn:E1; [apply Z.ltb_lt in E1; lia|].
  destruct (t - u <? Go.int64_min) eqn:E2; [apply Z.ltb_lt in E2; lia|].
  reflexivity.
Qed.

Lemma Sub_le (t u : Z) : u <= t -> 0 <= Go.Sub t u <= t - u.
Proof.
  unfold Go.Sub, Go.int64_max, Go.int64_min. intros H.
  destruct (2 ^ 63 - 1 <? t - u) eqn:E1.
  - apply Z.ltb_lt in E1. lia.
  - destruct (t - u <? - 2 ^ 63) eqn:E2; [apply Z.ltb_lt in E2; lia | lia].
Qed.

End GoFacts.

(** ** Time ranges and the partition scan *)

Module TimeRangeProps.

Import Models Storage.

(** The test [readPartition] applies to a decoded entry. *)
Definition kept (q : SearchQuery) (e : LogEntry) : bool :=
  Contains (Range q) (Timestamp e)
  && (String.eqb (Query q) "" || containsIgnoreCase (Message e) (Query q)).

Lemma Contains_iff (tr : TimeRange) (t : Z) :
  Contains tr t = true <-> Start tr <= t <= End_ tr.
Proof.
  unfold Contains, Go.Before, Go.After.
  rewrite andb_true_iff, !negb_true_iff, !Z.ltb_ge. tauto.
Qed.

Lemma read_loop_values (q : SearchQuery) (es acc : list LogEntry) (fuel : nat) :
  (length es < fuel)%nat ->
  read_loop q fuel true (map GobValue es) acc = acc ++ filter (fun e => kept q e = true) es.
Proof.
  revert acc fuel. induction es as [|e es IH]; intros acc fuel Hf.
  - destruct fuel; [simpl in Hf; lia|]. simpl. by rewrite app_nil_r.
  - destruct fuel; [simpl in Hf; lia|]. simpl in Hf.
    cbn [map read_loop gob_Decode].
    rewrite filter_cons.
    destruct (Contains (Range q) (Timestamp e)) eqn:EC; cbn [negb andb].
    + destruct (String.eqb (Query q) "") eqn:EQ; cbn [negb andb orb].
      * rewrite IH by lia.
        rewrite decide_True by (unfold kept; rewrite EC, EQ; done).
        by rewrite <- app_assoc.
      * destruct (containsIgnoreCase (Message e) (Query q)) eqn:EM; cbn [negb].
        -- rewrite IH by lia.
           rewrite decide_True by (unfold kept; rewrite EC, EQ, EM; done).
           by rewrite <- app_assoc.
        -- rewrite IH by lia.
           by rewrite decide_False by (unfold kept; rewrite EC, EQ, EM; done).
    + rewrite IH by lia.
      by rewrite decide_False by (unfold kept; rewrite EC; done).
Qed.

Lemma read_loop_type_def (q : SearchQuery) (es acc : list LogEntry) (fuel : nat) :
  read_loop q (S fuel) false (GobTypeDef :: map GobValue es) acc
  = read_loop q (S fuel) true (map GobValue es) acc.
Proof. destruct es; reflexivity. Qed.

(** C6, as the code has it: the containment test includes both ends of the
    range.  [Contains] holds exactly for the instants from [Start] to [End]
    inclusive, so an entry stamped [End] is contained just as one stamped
    [Start] is; and the scan of a partition file (the type definition
    followed by the entries written) returns exactly the entries that pass
    this test and the text match. *)
Theorem C6_contains_includes_both_ends (q : SearchQuery) (part : partition)
    (fs : FileStore) (es : list LogEntry) :
  disk fs !! path part = Some (GobTypeDef :: map GobValue es) ->
  Start (Range q) <= End_ (Range q) ->
  (forall t, Contains (Range q) t = true <-> Start (Range q) <= t <= End_ (Range q))
  /\ Contains (Range q) (Start (Range q)) = true
  /\ Contains (Range q) (End_ (Range q)) = true
  /\ readPartition part q fs = inr (filter (fun e => kept q e = true) es).
Proof.
  intros Hd Hle. split; [intros t; apply Contains_iff|].
  split; [apply Contains_iff; lia|].
  split; [apply Contains_iff; lia|].
  unfold readPartition. rewrite Hd. f_equal.
  rewrite read_loop_type_def, read_loop_values; [done|].
  cbn [length]. rewrite length_map. lia.
Qed.

Definition sample_entry (i : string) (t : Z) (msg : string) : LogEntry :=
  {| ID := i; Timestamp := t; Level := LogLevelInfo; Message := msg;
     Source := "file"; Host := "web-1"; Service := "api"; Fields := [];
     Tags := []; Raw := msg |}.

Definition sample_query : SearchQuery :=
  {| Query := ""; Range := {| Start := 100; End_ := 200 |}; Filters := [];
     Limit := 100; Offset := 0; SortBy := "timestamp"; SortOrder := "desc";
     Projection := [] |}.

Definition sample_partition : partition :=
  {| path := "/data/partition_0.gob"; startTime := 0; endTime := 1000;
     encoder_sent := true; count := 3 |}.

Definition sample_entries : list LogEntry :=
  [sample_entry "a" 100 "first"; sample_entry "b" 200 "last";
   sample_entry "c" 201 "late"].

Definition sample_store : FileStore :=
  {| config := DefaultConfig; partitions := ∅;
     stats := {| TotalEntries := 3; TotalSize := 0; OldestEntry := 100;
                 NewestEntry := 201 |};
     index := ∅;
     disk := {[ "/data/partition_0.gob"%string :=
                  GobTypeDef :: map GobValue sample_entries ]} |}.

(** C6 fails as stated: with the range [100, 200] an entry stamped 200, the
    end of the range, is contained, and the scan returns it. *)
Lemma C6_end_is_not_excluded :
  Contains (Range sample_query) (End_ (Range sample_query)) = true
  /\ readPartition sample_partition sample_query sample_store
     = inr [sample_entry "a" 100 "first"; sample_entry "b" 200 "last"].
Proof. split; vm_compute; reflexivity. Qed.

Lemma C6_contains_witness :
  Contains (Range sample_query) 200 = true
  /\ readPartition sample_partition sample_query sample_store
     = inr (filter (fun e => kept sample_query e = true) sample_entries).
Proof.
  pose proof (C6_contains_includes_both_ends sample_query sample_partition
                sample_store sample_entries) as H.
  destruct H as (_ & _ & H1 & H2).
  - vm_compute. reflexivity.
  - vm_compute. discriminate.
  - split; [exact H1 | exact H2].
Defined.

End TimeRangeProps.

(** ** The shipper's retry loop *)

Module RetryProps.

Import Shipper.

Lemma count_sends_app (a b : list event) :
  count_sends (a ++ b) = (count_sends a + count_sends b)%nat.
Proof. unfold count_sends. by rewrite filter_app, length_app. Qed.

(** What the loop adds to the trace when it is entered with [attempt = a]. *)
Definition added_ok (cfg : Config) (a : Z) (new : list event) : Prop :=
  Z.of_nat (count_sends new) <= MaxRetries cfg + 1 - a
  /\ forall b d, In (EvSleep b d) new ->
       a <= b < MaxRetries cfg
       /\ d = Go.wrap64 (RetryBackoff cfg * 2 ^ b)
       /\ exists pre i post, new = pre ++ EvSend b i false :: EvSleep b d :: post.

Lemma added_ok_nil (cfg : Config) (a : Z) :
  a <= MaxRetries cfg + 1 -> added_ok cfg a [].
Proof.
  intros Ha. split; [change (count_sends []) with 0%nat; lia|].
  intros b d [].
Qed.

Lemma added_ok_sent (cfg : Config) (a : Z) (i : nat) :
  a <= MaxRetries cfg -> added_ok cfg a [EvSend a i true].
Proof.
  intros Ha. split; [change (count_sends [EvSend a i true]) with 1%nat; lia|].
  intros b d [H|[]]. discriminate.
Qed.

Lemma added_ok_failed (cfg : Config) (a : Z) (i : nat) (new : list event) :
  0 <= a <= MaxRetries cfg ->
  added_ok cfg (a + 1) new ->
  added_ok cfg a
    (([EvSend a i false] ++
      (if a <? MaxRetries cfg
       then [EvSleep a (Go.mul (RetryBackoff cfg) (Go.shl1 a))] else [])) ++ new).
Proof.
  intros Ha [Hc Hs]. split.
  - rewrite !count_sends_app.
    change (count_sends [EvSend a i false]) with 1%nat.
    destruct (a <? MaxRetries cfg);
      [change (count_sends [EvSleep a (Go.mul (RetryBackoff cfg) (Go.shl1 a))])
         with 0%nat
      |change (count_sends []) with 0%nat]; lia.
  - intros b d Hin. apply in_app_or in Hin. destruct Hin as [Hin|Hin].
    + apply in_app_or in Hin. destruct Hin as [[H|[]]|Hin]; [discriminate|].
      destruct (a <? MaxRetries cfg) eqn:E; [|destruct Hin].
      apply Z.ltb_lt in E. destruct Hin as [H|[]]. inversion H; subst b d.
      split; [lia|]. split; [apply backoff_wrap; lia|].
      exists [], i, new. reflexivity.
    + destruct (Hs b d Hin) as (Hb & Hd & pre & j & post & Hnew).
      split; [lia|]. split; [exact Hd|].
      exists (([EvSend a i false] ++
               (if a <? MaxRetries cfg
                then [EvSleep a (Go.mul (RetryBackoff cfg) (Go.shl1 a))]
                else [])) ++ pre), j, post.
      rewrite Hnew. apply app_assoc.
Qed.

Lemma sendWithRetry_loop_spec (cfg : Config) (env : Z -> attempt_env)
    (fuel : nat) (a : Z) (eps : list endpoint) (tr0 : list event) :
  MaxRetries cfg < Go.int64_max ->
  0 <= a <= MaxRetries cfg + 1 ->
  exists new,
    (sendWithRetry_loop cfg env fuel a eps tr0).2 = tr0 ++ new
    /\ added_ok cfg a new
    /\ ((Z.to_nat (MaxRetries cfg + 1 - a) < fuel)%nat ->
        (sendWithRetry_loop cfg env fuel a eps tr0).1.1 <> OutOfFuel).
Proof.
  intros Hmax. revert a eps tr0.
  induction fuel as [|fuel IH]; intros a eps tr0 Ha.
  - exists []. cbn. rewrite app_nil_r. split; [done|].
    split; [apply added_ok_nil; lia | lia].
  - cbn [sendWithRetry_loop].
    destruct (a <=? MaxRetries cfg) eqn:Ele.
    + apply Z.leb_le in Ele.
      destruct (selectEndpoint cfg (select_clock (env a)) (select_rand (env a)) eps)
        as [[i|] eps1].
      * destruct (send_ok (env a) i).
        -- exists [EvSend a i true]. cbn. split; [done|].
           split; [apply added_ok_sent; lia | done].
        -- rewrite incr_small by (unfold Go.int64_min, Go.int64_max in *; lia).
           match goal with
           | |- context [sendWithRetry_loop cfg env fuel (a + 1) ?e ?t] =>
               destruct (IH (a + 1) e t) as (new & Htr & Hok & Hfuel); [lia|]
           end.
           exists (([EvSend a i false] ++
                    (if a <? MaxRetries cfg
                     then [EvSleep a (Go.mul (RetryBackoff cfg) (Go.shl1 a))]
                     else [])) ++ new).
           split; [|split].
           ++ rewrite Htr. destruct (a <? MaxRetries cfg);
                by rewrite <- !app_assoc.
           ++ apply added_ok_failed; [lia | exact Hok].
           ++ intros Hf. apply Hfuel. lia.
      * exists []. cbn. rewrite app_nil_r. split; [done|].
        split; [apply added_ok_nil; lia | done].
    + exists []. cbn. rewrite app_nil_r. split; [done|].
      split; [apply added_ok_nil; lia | done].
Qed.

(** What the loop, entered with [attempt = a], adds to the trace as send
    attempts: they are numbered from [a] to [MaxRetries], and a failed one
    numbered below [MaxRetries] is followed at once by its backoff. *)
Definition sends_ok (cfg : Config) (a : Z) (new : list event) : Prop :=
  forall b i ok, In (EvSend b i ok) new ->
    a <= b <= MaxRetries cfg
    /\ (ok = false -> b < MaxRetries cfg ->
        exists pre post,
          new = pre ++ EvSend b i false
                       :: EvSleep b (Go.wrap64 (RetryBackoff cfg * 2 ^ b)) :: post).

Lemma sendWithRetry_loop_sends (cfg : Config) (env : Z -> attempt_env)
    (fuel : nat) (a : Z) (eps : list endpoint) (tr0 : list event) :
  MaxRetries cfg < Go.int64_max ->
  0 <= a ->
  exists new,
    (sendWithRetry_loop cfg env fuel a eps tr0).2 = tr0 ++ new
    /\ sends_ok cfg a new.
Proof.
  intros Hmax. revert a eps tr0.
  induction fuel as [|fuel IH]; intros a eps tr0 Ha.
  - exists []. cbn. rewrite app_nil_r. split; [done|]. intros b i ok [].
  - cbn [sendWithRetry_loop].
    destruct (a <=? MaxRetries cfg) eqn:Ele.
    + apply Z.leb_le in Ele.
      destruct (selectEndpoint cfg (select_clock (env a)) (select_rand (env a)) eps)
        as [[i|] eps1].
      * destruct (send_ok (env a) i).
        -- exists [EvSend a i true]. cbn. split; [done|].
           intros b j ok [H|[]]. inversion H; subst b j ok.
           split; [lia | discriminate].
        -- rewrite incr_small by (unfold Go.int64_min, Go.int64_max in *; lia).
           match goal with
           | |- context [sendWithRetry_loop cfg env fuel (a + 1) ?e ?t] =>
               destruct (IH (a + 1) e t) as (new & Htr & Hok); [lia|]
           end.
           exists (([EvSend a i false] ++
                    (if a <? MaxRetries cfg
                     then [EvSleep a (Go.mul (RetryBackoff cfg) (Go.shl1 a))]
                     else [])) ++ new).
           split.
           ++ rewrite Htr. destruct (a <? MaxRetries cfg);
                by rewrite <- !app_assoc.
           ++ intros b j ok Hin. apply in_app_or in Hin. destruct Hin as [Hin|Hin].
              ** assert (Hhead : EvSend b j ok = EvSend a i false).
                 { apply in_app_or in Hin. destruct Hin as [[H|[]]|Hin]; [done|].
                   destruct (a <? MaxRetries cfg); [|destruct Hin].
                   destruct Hin as [H|[]]. discriminate. }
                 inversion Hhead; subst b j ok. split; [lia|].
                 intros _ Hlt. apply Z.ltb_lt in Hlt. rewrite Hlt.
                 rewrite backoff_wrap by lia. exists [], new. reflexivity.
              ** destruct (Hok b j ok Hin) as [Hb Hnext]. split; [lia|].
                 intros Hf Hlt. destruct (Hnext Hf Hlt) as (pre & post & Hnew).
                 exists (([EvSend a i false] ++
                          (if a <? MaxRetries cfg
                           then [EvSleep a (Go.mul (RetryBackoff cfg) (Go.shl1 a))]
                           else [])) ++ pre), post.
                 rewrite Hnew. apply app_assoc.
      * exists []. cbn. rewrite app_nil_r. split; [done|]. intros b i ok [].
    + exists []. cbn. rewrite app_nil_r. split; [done|]. intros b i ok [].
Qed.

(** C8, as the code has it: [sendWithRetry] makes at most [MaxRetries + 1]
    send attempts (the first one and [MaxRetries] retries), numbered from 0
    to [MaxRetries], and then returns.  After every failed attempt numbered
    below [MaxRetries] it sleeps at once, for [RetryBackoff * 2^attempt] in
    64-bit arithmetic, which is [RetryBackoff * 2^attempt] itself whenever
    that fits a Duration.  It sleeps at no other point: every sleep follows
    at once the failed attempt of the same number, and none follows the
    attempt numbered [MaxRetries]. *)
Theorem C8_attempts_and_backoff (cfg : Config) (env : Z -> attempt_env)
    (fuel : nat) (eps eps' : list endpoint) (out : outcome) (tr : list event) :
  0 <= MaxRetries cfg < Go.int64_max ->
  sendWithRetry cfg env fuel eps = (out, eps', tr) ->
  Z.of_nat (count_sends tr) <= MaxRetries cfg + 1
  /\ ((Z.to_nat (MaxRetries cfg + 1) < fuel)%nat -> out <> OutOfFuel)
  /\ (forall a d, In (EvSleep a d) tr ->
       0 <= a < MaxRetries cfg
       /\ d = Go.wrap64 (RetryBackoff cfg * 2 ^ a)
       /\ (Go.int64_min <= RetryBackoff cfg * 2 ^ a <= Go.int64_max ->
           d = RetryBackoff cfg * 2 ^ a)
       /\ exists pre i post, tr = pre ++ EvSend a i false :: EvSleep a d :: post)
  /\ (forall a i ok, In (EvSend a i ok) tr -> 0 <= a <= MaxRetries cfg)
  /\ (forall a i, In (EvSend a i false) tr -> a < MaxRetries cfg ->
       exists pre post,
         tr = pre ++ EvSend a i false
                     :: EvSleep a (Go.wrap64 (RetryBackoff cfg * 2 ^ a)) :: post).
Proof.
  intros Hmax Hrun. unfold sendWithRetry in Hrun.
  destruct (sendWithRetry_loop_spec cfg env fuel 0 eps []) as (new & Htr & [Hc Hs] & Hf);
    [lia | lia |].
  destruct (sendWithRetry_loop_sends cfg env fuel 0 eps []) as (new' & Htr' & Hsends);
    [lia | lia |].
  rewrite Hrun in Htr, Hf, Htr'. cbn in Htr, Hf, Htr'. subst new new'.
  split; [lia|]. split; [|split; [|split]].
  - intros H. apply Hf. by rewrite Z.sub_0_r.
  - intros a d Hin. destruct (Hs a d Hin) as (Ha & Hd & Hex).
    split; [exact Ha|]. split; [exact Hd|]. split; [|exact Hex].
    intros Hfit. rewrite Hd. by apply wrap64_id.
  - intros a i ok Hin. apply (Hsends a i ok Hin).
  - intros a i Hin Hlt. by apply (Hsends a i false Hin).
Qed.

(** An endpoint that refuses every batch, seen at a fixed instant. *)
Definition always_failing (now : Z) : Z -> attempt_env :=
  fun _ => {| select_clock := fun _ => now; select_rand := 0%nat;
              send_ok := fun _ => false; failure_clock := now |}.

Definition one_endpoint : list endpoint :=
  [new_endpoint "http://localhost:9090"].

Definition year_2024 : Z := 63839700000 * Go.Second.

(** C8 fails as stated: with the default configuration ([MaxRetries] = 3)
    and a server that is down, a batch is sent 4 times, not at most 3; and no
    backoff follows attempt 3. *)
Lemma C8_four_attempts_with_three_retries :
  let '(out, _, tr) :=
    sendWithRetry DefaultConfig (always_failing year_2024) 10 one_endpoint in
  MaxRetries DefaultConfig = 3
  /\ out = FailedAfter 3
  /\ count_sends tr = 4%nat
  /\ tr = [EvSend 0 0 false; EvSleep 0 (1 * Go.Second);
           EvSend 1 0 false; EvSleep 1 (2 * Go.Second);
           EvSend 2 0 false; EvSleep 2 (4 * Go.Second);
           EvSend 3 0 false].
Proof. vm_compute. repeat split; reflexivity. Qed.

Lemma C8_attempts_witness :
  let tr := (sendWithRetry DefaultConfig (always_failing year_2024) 10
               one_endpoint).2 in
  Z.of_nat (count_sends tr) <= 3 + 1
  /\ exists pre post,
       tr = pre ++ EvSend 2 0 false :: EvSleep 2 (4 * Go.Second) :: post.
Proof.
  cbn zeta.
  destruct (sendWithRetry DefaultConfig (always_failing year_2024) 10 one_endpoint)
    as [[out eps'] tr] eqn:E.
  destruct (C8_attempts_and_backoff DefaultConfig (always_failing year_2024) 10%nat
              one_endpoint eps' out tr) as (H1 & _ & _ & _ & H5).
  - vm_compute. split; [discriminate | reflexivity].
  - exact E.
  - split; [exact H1|]. cbn [snd]. apply (H5 2 0%nat).
    + vm_compute in E. inversion E. cbn. tauto.
    + reflexivity.
Defined.

End RetryProps.

(** ** The shipper's circuit breaker *)

Module CircuitProps.

Import Shipper.

(** What [selectEndpoint] does to one endpoint it looks at when the clock
    shows [now]. *)
Definition probe (cfg : Config) (now : Z) (ep : endpoint) : endpoint :=
  match state ep with
  | circuitOpen =>
      if OpenTimeout cfg <? Go.Since now (lastFailure ep)
      then set_state ep circuitHalfOpen else ep
  | _ => ep
  end.

(** Is the endpoint put on the list of available endpoints. *)
Definition eligible (cfg : Config) (now : Z) (ep : endpoint) : bool :=
  match state ep with
  | circuitOpen => OpenTimeout cfg <? Go.Since now (lastFailure ep)
  | _ => true
  end.

Lemma scan_endpoints_spec (cfg : Config) (now : nat -> Z) (eps : list endpoint) (i : nat) :
  (forall k, (scan_endpoints cfg now i eps).2 !! k
             = probe cfg (now (i + k)%nat) <$> eps !! k)
  /\ (forall j, In j (scan_endpoints cfg now i eps).1 ->
        exists k ep, j = (i + k)%nat /\ eps !! k = Some ep
                     /\ eligible cfg (now j) ep = true).
Proof.
  revert i. induction eps as [|ep eps IH]; intros i.
  - split; [intros k; by destruct k | intros j []].
  - cbn [scan_endpoints]. destruct (IH (S i)) as [IH1 IH2].
    destruct (scan_endpoints cfg now (S i) eps) as [avail rest] eqn:E.
    cbn [fst snd] in IH1, IH2.
    assert (Hrest : forall k, (i + S k = S i + k)%nat) by (intros; lia).
    assert (Htail : forall j, In j avail ->
              exists k e, j = (i + k)%nat /\ (ep :: eps) !! k = Some e
                          /\ eligible cfg (now j) e = true).
    { intros j Hj. destruct (IH2 j Hj) as (k & e & -> & Hk & He).
      exists (S k), e. split; [lia|]. split; [exact Hk | exact He]. }
    assert (Hhead : eligible cfg (now i) ep = true ->
              forall j, In j (i :: avail) ->
              exists k e, j = (i + k)%nat /\ (ep :: eps) !! k = Some e
                          /\ eligible cfg (now j) e = true).
    { intros Hel j [<-|Hj]; [|by apply Htail].
      exists 0%nat, ep. split; [lia|]. split; [done|]. exact Hel. }
    unfold probe, eligible in *.
    destruct (state ep) eqn:Es.
    + split.
      * intros [|k]; cbn; [by rewrite Nat.add_0_r, Es | by rewrite IH1, Hrest].
      * by apply Hhead.
    + destruct (OpenTimeout cfg <? Go.Since (now i) (lastFailure ep)) eqn:Et.
      * split.
        -- intros [|k]; cbn;
             [by rewrite Nat.add_0_r, Es, Et | by rewrite IH1, Hrest].
        -- by apply Hhead.
      * split.
        -- intros [|k]; cbn;
             [by rewrite Nat.add_0_r, Es, Et | by rewrite IH1, Hrest].
        -- exact Htail.
    + split.
      * intros [|k]; cbn; [by rewrite Nat.add_0_r, Es | by rewrite IH1, Hrest].
      * by apply Hhead.
Qed.

Lemma selectEndpoint_eligible (cfg : Config) (now : nat -> Z) (r : nat)
    (eps : list endpoint) (j : nat) :
  (selectEndpoint cfg now r eps).1 = Some j ->
  exists ep, eps !! j = Some ep /\ eligible cfg (now j) ep = true.
Proof.
  unfold selectEndpoint.
  destruct (scan_endpoints_spec cfg now eps 0) as [_ H].
  destruct (scan_endpoints cfg now 0 eps) as [avail eps'].
  cbn [fst] in H. destruct avail as [|a avail]; [discriminate|].
  cbn [fst]. intros Hn. apply nth_error_In in Hn.
  destruct (H j Hn) as (k & ep & Hj & Hk & He).
  exists ep. cbn in Hj. subst k. done.
Qed.

Lemma selectEndpoint_after (cfg : Config) (now : nat -> Z) (r : nat)
    (eps : list endpoint) (k : nat) :
  (selectEndpoint cfg now r eps).2 !! k = probe cfg (now k) <$> eps !! k.
Proof.
  unfold selectEndpoint.
  destruct (scan_endpoints_spec cfg now eps 0) as [H _].
  destruct (scan_endpoints cfg now 0 eps) as [avail eps'].
  cbn [snd] in H. destruct avail; cbn [snd]; apply H.
Qed.

(** An open endpoint is passed over, and stays open, as long as the time
    since its last failure does not exceed [OpenTimeout]. *)
Lemma open_endpoint_not_selected (cfg : Config) (now : nat -> Z) (r : nat)
    (eps : list endpoint) (j : nat) (ep : endpoint) :
  eps !! j = Some ep ->
  state ep = circuitOpen ->
  Go.Since (now j) (lastFailure ep) <= OpenTimeout cfg ->
  (selectEndpoint cfg now r eps).1 <> Some j
  /\ (selectEndpoint cfg now r eps).2 !! j = Some ep.
Proof.
  intros Hj Hs Ht. split.
  - intros Hsel. destruct (selectEndpoint_eligible _ _ _ _ _ Hsel) as (ep' & Hj' & He).
    rewrite Hj in Hj'. inversion Hj'; subst ep'.
    unfold eligible in He. rewrite Hs in He. apply Z.ltb_lt in He. lia.
  - rewrite selectEndpoint_after, Hj. cbn. unfold probe. rewrite Hs.
    destruct (OpenTimeout cfg <? Go.Since (now j) (lastFailure ep)) eqn:E;
      [apply Z.ltb_lt in E; lia | done].
Qed.

(** What happens to one endpoint between two successes: failed sends, and
    passes of [selectEndpoint] over it. *)
Inductive op :=
  | Failure (now : Z)
  | Selection (now : Z).

Definition apply_op (cfg : Config) (ep : endpoint) (o : op) : endpoint :=
  match o with
  | Failure now => recordFailure cfg now ep
  | Selection now => probe cfg now ep
  end.

Definition is_failure (o : op) : bool :=
  match o with Failure _ => true | Selection _ => false end.

Definition count_failures (ops : list op) : Z :=
  Z.of_nat (length (filter (fun o => is_failure o = true) ops)).

Lemma count_failures_nil : count_failures [] = 0.
Proof. reflexivity. Qed.

Lemma count_failures_cons (o : op) (ops : list op) :
  count_failures (o :: ops)
  = (if is_failure o then 1 else 0) + count_failures ops.
Proof.
  unfold count_failures. rewrite filter_cons.
  destruct (is_failure o); cbn [length]; [rewrite decide_True by done|
    rewrite decide_False by done]; cbn [length]; lia.
Qed.

Lemma count_failures_nonneg (ops : list op) : 0 <= count_failures ops.
Proof. unfold count_failures. lia. Qed.

Lemma consecutiveFail_probe (cfg : Config) (now : Z) (ep : endpoint) :
  consecutiveFail (probe cfg now ep) = consecutiveFail ep.
Proof.
  unfold probe. destruct (state ep); try done.
  by destruct (OpenTimeout cfg <? Go.Since now (lastFailure ep)).
Qed.

Lemma consecutiveFail_recordFailure (cfg : Config) (now : Z) (ep : endpoint) :
  consecutiveFail (recordFailure cfg now ep) = Go.incr (consecutiveFail ep).
Proof. unfold recordFailure. by destruct (state ep). Qed.

Lemma consecutiveFail_ops (cfg : Config) (ops : list op) (ep : endpoint) :
  0 <= consecutiveFail ep ->
  consecutiveFail ep + count_failures ops <= Go.int64_max ->
  consecutiveFail (foldl (apply_op cfg) ep ops)
  = consecutiveFail ep + count_failures ops.
Proof.
  revert ep. induction ops as [|o ops IH]; intros ep H0 Hmax.
  - rewrite count_failures_nil. cbn. lia.
  - rewrite count_failures_cons in *. pose proof (count_failures_nonneg ops).
    cbn [foldl]. destruct o as [now|now]; cbn [is_failure apply_op] in *.
    + assert (E : consecutiveFail (recordFailure cfg now ep) = consecutiveFail ep + 1).
      { rewrite consecutiveFail_recordFailure. apply incr_small.
        unfold Go.int64_min, Go.int64_max in *. lia. }
      rewrite IH; rewrite E; lia.
    + rewrite IH; rewrite consecutiveFail_probe; lia.
Qed.

Lemma recordFailure_opens (cfg : Config) (now : Z) (ep : endpoint) :
  FailureThreshold cfg <= Go.incr (consecutiveFail ep) ->
  state (recordFailure cfg now ep) = circuitOpen
  /\ lastFailure (recordFailure cfg now ep) = now.
Proof.
  intros H. unfold recordFailure.
  destruct (state ep); cbn; try done;
    apply Z.leb_le in H; by rewrite H.
Qed.

(** The part of C3 about opening: after [FailureThreshold] consecutive
    recorded failures (whatever passes of [selectEndpoint] lie between them)
    the circuit is open, and [selectEndpoint] neither returns the endpoint
    nor changes it while the time since that last failure is at most
    [OpenTimeout]. *)
Theorem circuit_opens_at_threshold (cfg : Config) (ep : endpoint)
    (ops : list op) (last : Z) :
  1 <= FailureThreshold cfg ->
  0 <= consecutiveFail ep ->
  consecutiveFail ep + FailureThreshold cfg <= Go.int64_max ->
  count_failures (ops ++ [Failure last]) = FailureThreshold cfg ->
  let ep' := foldl (apply_op cfg) ep (ops ++ [Failure last]) in
  state ep' = circuitOpen
  /\ lastFailure ep' = last
  /\ forall eps now r j,
       eps !! j = Some ep' ->
       Go.Since (now j) last <= OpenTimeout cfg ->
       (selectEndpoint cfg now r eps).1 <> Some j
       /\ (selectEndpoint cfg now r eps).2 !! j = Some ep'.
Proof.
  intros Hft H0 Hmax Hcount ep'.
  assert (Hc : count_failures ops = FailureThreshold cfg - 1).
  { unfold count_failures in *. rewrite filter_app, length_app in Hcount.
    change (length (filter (fun o => is_failure o = true) [Failure last]))
      with 1%nat in Hcount. lia. }
  assert (Hopen : state ep' = circuitOpen /\ lastFailure ep' = last).
  { subst ep'. rewrite foldl_app. cbn [foldl apply_op].
    apply recordFailure_opens.
    rewrite consecutiveFail_ops by lia.
    rewrite incr_small; unfold Go.int64_min, Go.int64_max in *; lia. }
  destruct Hopen as [Hs Hl]. split; [exact Hs|]. split; [exact Hl|].
  intros eps now r j Hj Ht. apply (open_endpoint_not_selected cfg now r eps j ep' Hj Hs).
  by rewrite Hl.
Qed.

(** A single failure recorded in HalfOpen reopens the circuit. *)
Lemma half_open_failure_reopens (cfg : Config) (now : Z) (ep : endpoint) :
  state ep = circuitHalfOpen ->
  state (recordFailure cfg now ep) = circuitOpen.
Proof. intros H. unfold recordFailure. by rewrite H. Qed.

(** [n] successes in a row. *)
Definition successes_in_a_row (cfg : Config) (n : nat) (ep : endpoint) : endpoint :=
  Nat.iter n (recordSuccess cfg) ep.

(** The part of C3 about closing, for an endpoint that enters HalfOpen with
    its success counter at zero: it is still HalfOpen after fewer than
    [SuccessThreshold] successes and Closed after [SuccessThreshold] of
    them. *)
Theorem half_open_closes_at_threshold (cfg : Config) (ep : endpoint) (n : nat) :
  state ep = circuitHalfOpen ->
  successes ep = 0 ->
  1 <= SuccessThreshold cfg <= Go.int64_max ->
  (Z.of_nat n < SuccessThreshold cfg ->
     state (successes_in_a_row cfg n ep) = circuitHalfOpen
     /\ successes (successes_in_a_row cfg n ep) = Z.of_nat n)
  /\ (Z.of_nat n = SuccessThreshold cfg ->
     state (successes_in_a_row cfg n ep) = circuitClosed).
Proof.
  intros Hs H0 Hst.
  assert (Hbelow : forall m, Z.of_nat m < SuccessThreshold cfg ->
            state (successes_in_a_row cfg m ep) = circuitHalfOpen
            /\ successes (successes_in_a_row cfg m ep) = Z.of_nat m).
  { induction m as [|m IH]; intros Hm; [cbn; split; [exact Hs | exact H0]|].
    destruct IH as [IHs IHc]; [lia|].
    unfold successes_in_a_row in *.
    change (Nat.iter (S m) (recordSuccess cfg) ep)
      with (recordSuccess cfg (Nat.iter m (recordSuccess cfg) ep)).
    set (prev := Nat.iter m (recordSuccess cfg) ep) in *.
    unfold recordSuccess. rewrite IHs, IHc.
    rewrite incr_small by (unfold Go.int64_min, Go.int64_max in *; lia).
    destruct (SuccessThreshold cfg <=? Z.of_nat m + 1) eqn:E;
      [apply Z.leb_le in E; lia|]. cbn. split; [done | lia]. }
  split; [apply Hbelow|].
  intros Hn. destruct n as [|n]; [cbn in Hn; lia|].
  destruct (Hbelow n) as [IHs IHc]; [lia|].
  unfold successes_in_a_row in *.
  change (Nat.iter (S n) (recordSuccess cfg) ep)
    with (recordSuccess cfg (Nat.iter n (recordSuccess cfg) ep)).
  set (prev := Nat.iter n (recordSuccess cfg) ep) in *.
  unfold recordSuccess. rewrite IHs, IHc.
  rewrite incr_small by (unfold Go.int64_min, Go.int64_max in *; lia).
  destruct (SuccessThreshold cfg <=? Z.of_nat n + 1) eqn:E;
    [done | apply Z.leb_gt in E; lia].
Qed.

(** A run of the default configuration ([FailureThreshold] = 5,
    [SuccessThreshold] = 2, [OpenTimeout] = 30 s) on one endpoint: one batch
    is delivered, then five sends fail one second apart, and 31 seconds
    after the last failure [selectEndpoint] looks at the endpoint again. *)
Definition t0 : Z := 63839700000 * Go.Second.

Definition after_one_success : endpoint :=
  recordSuccess DefaultConfig (new_endpoint "http://localhost:9090").

Definition after_five_failures : endpoint :=
  foldl (apply_op DefaultConfig) after_one_success
    [Failure (t0 + 1 * Go.Second); Failure (t0 + 2 * Go.Second);
     Failure (t0 + 3 * Go.Second); Failure (t0 + 4 * Go.Second);
     Failure (t0 + 5 * Go.Second)].

Definition selected_again : option nat * list endpoint :=
  selectEndpoint DefaultConfig (fun _ => t0 + 36 * Go.Second) 0
    [after_five_failures].

(** C3 at the failing input: the success counter is not reset when the
    circuit opens from Closed, so the one success recorded before the outage
    still counts.  The endpoint is Open after the five failures, HalfOpen
    when selected again, and a single success recorded in HalfOpen closes
    it, although [SuccessThreshold] is 2. *)
Lemma C3_closes_after_one_success_in_half_open :
  SuccessThreshold DefaultConfig = 2
  /\ state after_five_failures = circuitOpen
  /\ successes after_five_failures = 1
  /\ exists ep,
       selected_again = (Some 0%nat, [ep])
       /\ state ep = circuitHalfOpen
       /\ state (successes_in_a_row DefaultConfig 1 ep) = circuitClosed.
Proof.
  split; [reflexivity|]. split; [vm_compute; reflexivity|].
  split; [vm_compute; reflexivity|].
  eexists. split; [vm_compute; reflexivity|].
  split; vm_compute; reflexivity.
Qed.

Lemma circuit_opens_witness :
  state after_five_failures = circuitOpen.
Proof.
  pose proof (circuit_opens_at_threshold DefaultConfig after_one_success
    [Failure (t0 + 1 * Go.Second); Failure (t0 + 2 * Go.Second);
     Failure (t0 + 3 * Go.Second); Failure (t0 + 4 * Go.Second)]
    (t0 + 5 * Go.Second)) as H.
  cbv zeta in H. apply H.
  - vm_compute. discriminate.
  - vm_compute. discriminate.
  - vm_compute. discriminate.
  - vm_compute. reflexivity.
Defined.

Definition half_open_fresh : endpoint :=
  {| url := "http://localhost:9090"; state := circuitHalfOpen; failures := 5;
     successes := 0; lastFailure := t0; consecutiveFail := 5 |}.

Lemma half_open_closes_witness :
  state (successes_in_a_row DefaultConfig 2 half_open_fresh) = circuitClosed.
Proof.
  apply (half_open_closes_at_threshold DefaultConfig half_open_fresh 2).
  - reflexivity.
  - reflexivity.
  - vm_compute. split; discriminate.
  - reflexivity.
Defined.

End CircuitProps.

(** ** The receiver's hand-off of a batch *)

Module IngestProps.

Import Receiver.

Lemma AddUint64_AddUint64 (c a b : Z) :
  Go.AddUint64 (Go.AddUint64 c a) b = Go.AddUint64 c (a + b).
Proof.
  unfold Go.AddUint64, Go.wrapu64.
  rewrite Zplus_mod_idemp_l. f_equal. lia.
Qed.

(** The agent identifier [handleIngest] passes to the rate limiter. *)
Definition agent_of (req : Request) : string :=
  if String.eqb (XAgentID req) "" then RemoteAddr req else XAgentID req.

(** A [uint64] counter holds a value of its type. *)
Definition is_uint64 (c : Z) : Prop := 0 <= c < 2 ^ 64.

Lemma AddUint64_0 (c : Z) : is_uint64 c -> Go.AddUint64 c 0 = c.
Proof.
  unfold is_uint64, Go.AddUint64, Go.wrapu64. intros H.
  rewrite Z.add_0_r. apply Z.mod_small. lia.
Qed.

(** The hand-off loop, when it runs to the end, has sent every entry of the
    list, in order, and counted each of them. *)
Lemma handoff_loop_complete (env : nat -> tick) (entries : list Models.LogEntry)
    (k : nat) (r r' : Receiver) :
  is_uint64 (LogsReceived (stats r)) ->
  handoff_loop env k entries r = (HandoffComplete, r') ->
  handed_off r' = handed_off r ++ entries
  /\ LogsReceived (stats r')
     = Go.AddUint64 (LogsReceived (stats r)) (Z.of_nat (length entries)).
Proof.
  revert k r. induction entries as [|e rest IH]; intros k r Hu H.
  - cbn in H. inversion H; subst r'. rewrite app_nil_r.
    split; [done|]. by rewrite AddUint64_0.
  - cbn [handoff_loop] in H.
    destruct ((length (output (env_step (env k) r)) <? output_cap (env_step (env k) r))%nat
              && negb (ctx_done (env_step (env k) r) && choose_done (env k))).
    + apply IH in H.
      * destruct H as [H1 H2]. rewrite H1, H2. cbn.
        rewrite <- app_assoc. split; [done|].
        rewrite AddUint64_AddUint64. f_equal. lia.
      * cbn. unfold Go.AddUint64, Go.wrapu64, is_uint64.
        apply Z.mod_pos_bound. lia.
    + destruct (ctx_done (env_step (env k) r)); discriminate.
Qed.

(** What a 200 answer of [handleIngest] tells about the call. *)
Lemma handleIngest_ok_inv (io : Library)
    (env : nat -> tick) (c : clocks) (now : Z) (req : Request)
    (r r' : Receiver) (resp : Response) :
  is_uint64 (LogsReceived (stats r)) ->
  handleIngest io env c now req r = (r', resp) ->
  status resp = StatusOK ->
  exists body batch,
    io_ReadAll io (String.eqb (ContentEncoding req) "gzip") (Body req) = Some body
    /\ json_Unmarshal io body = Some batch
    /\ received resp = Some (Z.of_nat (length (Models.Entries batch)))
    /\ handed_off r' = handed_off r ++ Models.Entries batch
    /\ LogsReceived (stats r')
       = Go.AddUint64 (LogsReceived (stats r))
           (Z.of_nat (length (Models.Entries batch))).
Proof.
  intros Hu H Hs. unfold handleIngest, fail in H.
  destruct (negb (String.eqb (Method req) "POST"));
    [inversion H; subst; discriminate|].
  destruct (checkRateLimit _ _ c _ _) as [ok rls].
  destruct ok; cbn [negb] in H; [|inversion H; subst; discriminate].
  destruct (String.eqb (ContentEncoding req) "gzip" && negb (gzip_NewReader io (Body req)));
    [inversion H; subst; discriminate|].
  destruct (io_ReadAll io _ (Body req)) as [body|] eqn:Eb;
    [|inversion H; subst; discriminate].
  destruct (json_Unmarshal io body) as [batch|] eqn:Ej;
    [|inversion H; subst; discriminate].
  match type of H with
  | (if ?b then _ else _) = _ => destruct b; [inversion H; subst; discriminate|]
  end.
  match type of H with
  | match handoff_loop ?e ?k ?es ?r0 with _ => _ end = _ =>
      destruct (handoff_loop e k es r0) as [[| |] r1] eqn:El
  end; try (inversion H; subst; discriminate).
  inversion H; subst r' resp.
  apply handoff_loop_complete in El; [|exact Hu].
  destruct El as [H1 H2]. exists body, batch.
  split; [done|]. split; [done|]. split; [done|]. split; [exact H1 | exact H2].
Qed.

(** The number of entries the pipeline is allowed to take off the channel
    before the selects of the entries [k], ..., [k + n - 1]. *)
Definition consumed_during (env : nat -> tick) (k n : nat) : nat :=
  foldr (fun i acc => (consumed (env i) + acc)%nat) 0%nat (seq k n).

(** The channel across a hand-off loop that runs to the end: what was on it
    followed by the entries of the list is what the pipeline has taken off
    in the meantime followed by what is on it now; the loop itself has taken
    nothing off, and it never fills the channel beyond its capacity. *)
Lemma handoff_loop_complete_output (env : nat -> tick)
    (entries : list Models.LogEntry) (k : nat) (r r' : Receiver) :
  handoff_loop env k entries r = (HandoffComplete, r') ->
  exists gone,
    output r ++ entries = gone ++ output r'
    /\ (length gone <= consumed_during env k (length entries))%nat
    /\ output_cap r' = output_cap r
    /\ (entries <> [] -> (length (output r') <= output_cap r)%nat).
Proof.
  revert k r. induction entries as [|e rest IH]; intros k r H.
  - cbn in H. inversion H; subst r'. exists [].
    rewrite app_nil_r. split; [done|]. split; [cbn; lia|]. split; [done|]. done.
  - cbn [handoff_loop] in H.
    destruct ((length (output (env_step (env k) r)) <? output_cap (env_step (env k) r))%nat)
      eqn:Eroom; cbn [andb] in H;
      [|destruct (ctx_done (env_step (env k) r)); discriminate].
    destruct (negb (ctx_done (env_step (env k) r) && choose_done (env k)));
      [|destruct (ctx_done (env_step (env k) r)); discriminate].
    apply Nat.ltb_lt in Eroom. cbn [env_step output output_cap] in Eroom.
    apply IH in H. destruct H as (gone & Hg & Hlen & Hcap & Hroom).
    cbn [send_entry env_step output output_cap] in Hg, Hcap, Hroom.
    exists (take (consumed (env k)) (output r) ++ gone).
    split; [|split; [|split]].
    + rewrite <- app_assoc, <- Hg, <- !app_assoc. cbn [app].
      by rewrite app_assoc, take_drop.
    + rewrite length_app, length_take. cbn [length seq foldr consumed_during].
      unfold consumed_during in *. cbn [seq foldr]. lia.
    + exact Hcap.
    + intros _. destruct rest as [|e2 rest'].
      * destruct gone as [|g gone'].
        -- cbn in Hg. rewrite app_nil_r in Hg. rewrite <- Hg.
           rewrite length_app. cbn. lia.
        -- cbn in Hlen. unfold consumed_during in Hlen. cbn in Hlen. lia.
      * apply Hroom. discriminate.
Qed.

(** The hand-off loop behind a 200 answer of [handleIngest]. *)
Lemma handleIngest_ok_loop (io : Library)
    (env : nat -> tick) (c : clocks) (now : Z) (req : Request)
    (r r' : Receiver) (resp : Response) :
  handleIngest io env c now req r = (r', resp) ->
  status resp = StatusOK ->
  exists body batch r0 r1,
    io_ReadAll io (String.eqb (ContentEncoding req) "gzip") (Body req) = Some body
    /\ json_Unmarshal io body = Some batch
    /\ output r0 = output r /\ output_cap r0 = output_cap r
    /\ handoff_loop env 0 (Models.Entries batch) r0 = (HandoffComplete, r1)
    /\ output r' = output r1.
Proof.
  intros H Hs. unfold handleIngest, fail in H.
  destruct (negb (String.eqb (Method req) "POST"));
    [inversion H; subst; discriminate|].
  destruct (checkRateLimit _ _ c _ _) as [ok rls].
  destruct ok; cbn [negb] in H; [|inversion H; subst; discriminate].
  destruct (String.eqb (ContentEncoding req) "gzip" && negb (gzip_NewReader io (Body req)));
    [inversion H; subst; discriminate|].
  destruct (io_ReadAll io _ (Body req)) as [body|] eqn:Eb;
    [|inversion H; subst; discriminate].
  destruct (json_Unmarshal io body) as [batch|] eqn:Ej;
    [|inversion H; subst; discriminate].
  match type of H with
  | (if ?b then _ else _) = _ => destruct b; [inversion H; subst; discriminate|]
  end.
  match type of H with
  | match handoff_loop ?e ?k ?es ?r0 with _ => _ end = _ =>
      destruct (handoff_loop e k es r0) as [[| |] r1] eqn:El;
        try (inversion H; subst; discriminate);
        exists body, batch, r0, r1
  end.
  inversion H; subst r' resp. done.
Qed.

(** C2: when [handleIngest] answers 200 with [received = n], the request
    body decoded to a batch of exactly [n] entries, all of them, in order,
    have been sent on the output channel by this call, and [LogsReceived]
    has gone up by [n] (as a uint64).  On the channel itself: what was on
    it before the call followed by the [n] entries of the batch is what the
    pipeline has taken off during the call followed by what is on it after
    the call, and the pipeline has taken off no more than it was given the
    chance to; so the [n] entries are on the channel, in order and behind
    the older ones, except for those the pipeline has already received.
    With a pipeline that takes nothing during the call, the channel after
    the call is the channel before it followed by the batch. *)
Theorem C2_ok_response_means_whole_batch_handed_off (io : Library)
    (env : nat -> tick) (c : clocks) (now : Z) (req : Request)
    (r r' : Receiver) (resp : Response) (n : Z) :
  is_uint64 (LogsReceived (stats r)) ->
  handleIngest io env c now req r = (r', resp) ->
  status resp = StatusOK ->
  received resp = Some n ->
  exists body batch,
    io_ReadAll io (String.eqb (ContentEncoding req) "gzip") (Body req) = Some body
    /\ json_Unmarshal io body = Some batch
    /\ n = Z.of_nat (length (Models.Entries batch))
    /\ handed_off r' = handed_off r ++ Models.Entries batch
    /\ LogsReceived (stats r') = Go.AddUint64 (LogsReceived (stats r)) n
    /\ (exists gone,
          output r ++ Models.Entries batch = gone ++ output r'
          /\ (length gone
              <= consumed_during env 0 (length (Models.Entries batch)))%nat)
    /\ ((forall k, consumed (env k) = 0%nat) ->
        output r' = output r ++ Models.Entries batch)
    /\ (Models.Entries batch <> [] ->
        (length (output r') <= output_cap r)%nat).
Proof.
  intros Hu H Hs Hn.
  destruct (handleIngest_ok_inv io env c now req r r' resp Hu H Hs)
    as (body & batch & Hb & Hj & Hr & Hh & Hl).
  destruct (handleIngest_ok_loop io env c now req r r' resp H Hs)
    as (body' & batch' & r0 & r1 & Hb' & Hj' & Ho & Hc & Hloop & Ho').
  assert (body' = body) by congruence. subst body'.
  assert (batch' = batch) by congruence. subst batch'.
  destruct (handoff_loop_complete_output env (Models.Entries batch) 0 r0 r1 Hloop)
    as (gone & Hg & Hlen & Hcap & Hroom).
  rewrite Ho, <- Ho' in Hg. rewrite <- Ho', Hc in Hroom.
  rewrite Hr in Hn. inversion Hn; subst n.
  exists body, batch. split; [done|]. split; [done|]. split; [done|].
  split; [done|]. split; [done|]. split; [by exists gone|]. split; [|done].
  intros Hquiet.
  assert (Hzero : forall k m, consumed_during env k m = 0%nat).
  { intros k m. unfold consumed_during. revert k.
    induction m as [|m IH]; intros k; [done|].
    cbn [seq foldr]. by rewrite Hquiet, IH. }
  rewrite Hzero in Hlen. destruct gone; [|cbn in Hlen; lia]. by rewrite Hg.
Qed.

(** An environment that leaves the receiver alone: nothing is taken off the
    channel and the context is not cancelled. *)
Definition quiet : nat -> tick :=
  fun _ => {| consumed := 0; cancelled := false; choose_done := false |}.

(** With [free] slots left and more entries than that, the loop sends the
    first [free] entries and stops at the next one. *)
Lemma handoff_loop_full (entries : list Models.LogEntry) (k : nat) (r : Receiver) :
  ctx_done r = false ->
  is_uint64 (LogsReceived (stats r)) ->
  (length (output r) <= output_cap r)%nat ->
  (output_cap r - length (output r) < length entries)%nat ->
  exists r',
    handoff_loop quiet k entries r = (HandoffFull, r')
    /\ output r' = output r ++ take (output_cap r - length (output r)) entries
    /\ handed_off r'
       = handed_off r ++ take (output_cap r - length (output r)) entries
    /\ LogsReceived (stats r')
       = Go.AddUint64 (LogsReceived (stats r))
           (Z.of_nat (output_cap r - length (output r)))
    /\ Errors (stats r') = Go.AddUint64 (Errors (stats r)) 1.
Proof.
  revert k r. induction entries as [|e rest IH]; intros k r Hc Hu Hle Hlt.
  - cbn in Hlt. lia.
  - destruct r as [cfg out cap done st rls ho]. cbn in Hc, Hu, Hle, Hlt. subst done.
    cbn [handoff_loop quiet env_step consumed cancelled choose_done
         output output_cap ctx_done config stats rateLimits handed_off
         orb andb negb].
    change (drop 0 out) with out.
    destruct (length out <? cap)%nat eqn:E; cbn [andb].
    + apply Nat.ltb_lt in E.
      match goal with
      | |- context [handoff_loop quiet (S k) rest ?r0] =>
          destruct (IH (S k) r0) as (r' & Hl & Ho & Hh & Hn & He)
      end.
      * reflexivity.
      * cbn. unfold Go.AddUint64, Go.wrapu64, is_uint64.
        apply Z.mod_pos_bound. lia.
      * cbn. rewrite ?drop_0, length_app. cbn. lia.
      * cbn. rewrite ?drop_0, length_app. cbn. lia.
      * cbn in Ho, Hh, Hn, He. rewrite ?drop_0, length_app in Ho, Hh, Hn.
        cbn in Ho, Hh, Hn.
        exists r'. split; [exact Hl|]. cbn.
        replace (cap - length out)%nat with (S (cap - (length out + 1)))%nat by lia.
        cbn [take]. rewrite Ho, Hh, Hn, He, <- !app_assoc.
        split; [done|]. split; [done|]. split; [|done].
        rewrite AddUint64_AddUint64. f_equal. lia.
    + apply Nat.ltb_ge in E.
      eexists. split; [reflexivity|]. cbn.
      replace (cap - length out)%nat with 0%nat by lia.
      cbn. rewrite !app_nil_r. split; [done|]. split; [done|].
      split; [by rewrite AddUint64_0 | done].
Qed.

(** C10: a batch that does not fit is handed off in part.  When the request
    passes the checks of [handleIngest], the channel has [free] slots left,
    the batch has more entries than that and nobody touches the channel or
    the context meanwhile, the answer is 503, yet the first [free] entries
    of the batch are on the channel and counted in [LogsReceived]; and any
    later call with the same request that is answered 200 sends the whole
    batch, so those first entries are sent a second time. *)
Theorem C10_partial_batch_is_not_rolled_back (io : Library) (c : clocks)
    (now : Z) (req : Request) (r : Receiver) (body : string)
    (batch : Models.Batch) :
  Method req = "POST"%string ->
  (checkRateLimit (duration_seconds io) (config r) c (agent_of req)
     (rateLimits r)).1 = true ->
  String.eqb (ContentEncoding req) "gzip" && negb (gzip_NewReader io (Body req))
    = false ->
  io_ReadAll io (String.eqb (ContentEncoding req) "gzip") (Body req) = Some body ->
  json_Unmarshal io body = Some batch ->
  Z.of_nat (length (Models.Entries batch)) <= MaxBatchSize (config r) ->
  ctx_done r = false ->
  is_uint64 (LogsReceived (stats r)) ->
  (length (output r) <= output_cap r)%nat ->
  (output_cap r - length (output r) < length (Models.Entries batch))%nat ->
  let sent := take (output_cap r - length (output r)) (Models.Entries batch) in
  let r' := (handleIngest io quiet c now req r).1 in
  status (handleIngest io quiet c now req r).2 = StatusServiceUnavailable
  /\ output r' = output r ++ sent
  /\ handed_off r' = handed_off r ++ sent
  /\ LogsReceived (stats r')
     = Go.AddUint64 (LogsReceived (stats r)) (Z.of_nat (length sent))
  /\ forall env2 c2 now2 r2 resp2,
       handleIngest io env2 c2 now2 req r' = (r2, resp2) ->
       status resp2 = StatusOK ->
       handed_off r2 = handed_off r ++ sent ++ Models.Entries batch.
Proof.
  intros Hm Hrl Hgz Hbody Hjson Hsize Hctx Hu Hle Hlt sent r'.
  assert (Hrun : exists r1,
            handleIngest io quiet c now req r = (r1, http_Error StatusServiceUnavailable)
            /\ output r1 = output r ++ sent
            /\ handed_off r1 = handed_off r ++ sent
            /\ LogsReceived (stats r1)
               = Go.AddUint64 (LogsReceived (stats r))
                   (Z.of_nat (output_cap r - length (output r)))).
  { unfold handleIngest. rewrite Hm. cbn [String.eqb negb].
    change (if String.eqb (XAgentID req) "" then RemoteAddr req else XAgentID req)
      with (agent_of req).
    cbn [config with_stats rateLimits].
    destruct (checkRateLimit (duration_seconds io) (config r) c (agent_of req)
                (rateLimits r)) as [ok rls].
    cbn in Hrl. subst ok. cbn [negb]. rewrite Hgz, Hbody, Hjson.
    cbn [config with_stats with_rateLimits].
    destruct (MaxBatchSize (config r) <? Z.of_nat (length (Models.Entries batch))) eqn:E;
      [apply Z.ltb_lt in E; lia|].
    match goal with
    | |- context [handoff_loop quiet 0 ?es ?r0] =>
        destruct (handoff_loop_full es 0 r0) as (r1 & Hl & Ho & Hh & Hn & _);
          [exact Hctx | exact Hu | exact Hle | exact Hlt |]
    end.
    rewrite Hl. exists r1. cbn in Ho, Hh, Hn. done. }
  destruct Hrun as (r1 & Hrun & Ho & Hh & Hn).
  subst r'. rewrite Hrun. cbn [fst snd].
  split; [done|]. split; [exact Ho|]. split; [exact Hh|]. split.
  - rewrite Hn. f_equal. subst sent. rewrite length_take. lia.
  - intros env2 c2 now2 r2 resp2 H2 Hs2.
    destruct (handleIngest_ok_inv io env2 c2 now2 req r1 r2 resp2)
      as (body2 & batch2 & Hb2 & Hj2 & _ & Hh2 & _).
    + rewrite Hn. unfold Go.AddUint64, Go.wrapu64, is_uint64.
      apply Z.mod_pos_bound. lia.
    + exact H2.
    + exact Hs2.
    + rewrite Hbody in Hb2. inversion Hb2; subst body2.
      rewrite Hjson in Hj2. inversion Hj2; subst batch2.
      rewrite Hh2, Hh. by rewrite <- app_assoc.
Qed.

(** A receiver with room for two entries, and a request whose body decodes
    to a batch of three. *)
Definition entry (i : string) : Models.LogEntry :=
  {| Models.ID := i; Models.Timestamp := 63839700000 * Go.Second;
     Models.Level := Models.LogLevelInfo; Models.Message := "started";
     Models.Source := "file"; Models.Host := "web-1"; Models.Service := "api";
     Models.Fields := []; Models.Tags := []; Models.Raw := "started" |}.

Definition batch3 : Models.Batch :=
  {| Models.Entries := [entry "e1"; entry "e2"; entry "e3"];
     Models.BatchID := "b1"; Models.BatchSource := "agent-1";
     Models.BatchTimestamp := 63839700000 * Go.Second;
     Models.Compressed := false; Models.CompressionType := "" |}.

Definition codec3 : Library :=
  {| gzip_NewReader := fun _ => true;
     io_ReadAll := fun _ b => Some b;
     json_Unmarshal := fun _ => Some batch3;
     duration_seconds := Go.whole_seconds |}.

Definition ingest_request : Request :=
  {| Method := "POST"; XAgentID := "agent-1"; RemoteAddr := "10.0.0.7:4711";
     ContentEncoding := ""; Body := "{...}" |}.

Definition receiver_with_room (n : nat) : Receiver :=
  {| config := {| HTTPAddr := ":8080"; MaxBatchSize := 10000; RateLimit := 1000;
                  Timeout := 30 * Go.Second; RequireAuth := false;
                  APIKeys := ∅ |};
     output := []; output_cap := n; ctx_done := false;
     stats := {| RequestsReceived := 0; LogsReceived := 0; BytesReceived := 0;
                 Errors := 0; LastReceived := 0 |};
     rateLimits := ∅; handed_off := [] |}.

Definition at_noon : clocks :=
  {| clock_new := 63839700000 * Go.Second;
     clock_allow := 63839700000 * Go.Second |}.

(** The pipeline takes two entries off the channel before every select. *)
Definition draining : nat -> tick :=
  fun _ => {| consumed := 2; cancelled := false; choose_done := false |}.

Lemma C2_ok_response_witness :
  exists body batch,
    io_ReadAll codec3 false (Body ingest_request) = Some body
    /\ json_Unmarshal codec3 body = Some batch
    /\ 3 = Z.of_nat (length (Models.Entries batch))
    /\ handed_off
         (handleIngest codec3 quiet at_noon 0 ingest_request (receiver_with_room 5)).1
       = [] ++ Models.Entries batch
    /\ LogsReceived (stats
         (handleIngest codec3 quiet at_noon 0 ingest_request (receiver_with_room 5)).1)
       = Go.AddUint64 0 3
    /\ output
         (handleIngest codec3 quiet at_noon 0 ingest_request (receiver_with_room 5)).1
       = [entry "e1"; entry "e2"; entry "e3"].
Proof.
  destruct (C2_ok_response_means_whole_batch_handed_off codec3 quiet at_noon 0
           ingest_request (receiver_with_room 5)
           (handleIngest codec3 quiet at_noon 0 ingest_request (receiver_with_room 5)).1
           (handleIngest codec3 quiet at_noon 0 ingest_request (receiver_with_room 5)).2
           3)
    as (body & batch & H1 & H2 & H3 & H4 & H5 & _ & H7 & _).
  - unfold is_uint64. cbn. lia.
  - by destruct (handleIngest codec3 quiet at_noon 0 ingest_request (receiver_with_room 5)).
  - vm_compute. reflexivity.
  - vm_compute. reflexivity.
  - exists body, batch. split; [exact H1|]. split; [exact H2|]. split; [exact H3|].
    split; [exact H4|]. split; [exact H5|].
    rewrite H7 by done. cbn in H2. inversion H2. reflexivity.
Defined.

(** The first call is answered 503 with two of the three entries on the
    channel; the retry, once the pipeline drains the channel, is answered
    200, and the channel has carried e1 and e2 twice. *)
Lemma C10_partial_batch_witness :
  let first := handleIngest codec3 quiet at_noon 0 ingest_request (receiver_with_room 2) in
  let retry := handleIngest codec3 draining at_noon 0 ingest_request first.1 in
  status first.2 = StatusServiceUnavailable
  /\ output first.1 = [entry "e1"; entry "e2"]
  /\ LogsReceived (stats first.1) = 2
  /\ status retry.2 = StatusOK
  /\ handed_off retry.1
     = [entry "e1"; entry "e2"; entry "e1"; entry "e2"; entry "e3"].
Proof.
  intros first retry.
  destruct (C10_partial_batch_is_not_rolled_back codec3 at_noon 0 ingest_request
              (receiver_with_room 2) "{...}" batch3)
    as (Hs & Ho & _ & Hn & Hretry).
  - reflexivity.
  - vm_compute. reflexivity.
  - reflexivity.
  - reflexivity.
  - reflexivity.
  - vm_compute. discriminate.
  - reflexivity.
  - unfold is_uint64. cbn. lia.
  - cbn. lia.
  - cbn. lia.
  - split; [exact Hs|]. split; [exact Ho|]. split; [exact Hn|].
    assert (Hok : status retry.2 = StatusOK) by (vm_compute; reflexivity).
    split; [exact Hok|].
    apply (Hretry draining at_noon 0 retry.1 retry.2); [|exact Hok].
    subst retry first. apply surjective_pairing.
Defined.

End IngestProps.

(** ** The receiver's token bucket *)

Module RateLimitProps.

Import Receiver.

(** The clock never runs backwards: [t] is the reading before the first
    request, and every request reads [clock_new] and then [clock_allow]. *)
Fixpoint clock_monotone (t : Z) (reqs : list (string * clocks)) : Prop :=
  match reqs with
  | [] => True
  | (_, c) :: rest =>
      t <= clock_new c /\ clock_new c <= clock_allow c
      /\ clock_monotone (clock_allow c) rest
  end.

(** The last reading of a stream of requests that starts at [t]. *)
Fixpoint end_clock (t : Z) (reqs : list (string * clocks)) : Z :=
  match reqs with
  | [] => t
  | (_, c) :: rest => end_clock (clock_allow c) rest
  end.

(** A bucket of the table, seen at instant [now]. *)
Definition bucket_ok (cfg : Config) (now : Z) (rl : rateLimiter) : Prop :=
  maxTokens rl = RateLimit cfg
  /\ Go.int64_min <= tokens rl <= RateLimit cfg
  /\ lastRefill rl <= now.

Definition table_ok (cfg : Config) (now : Z) (rls : gmap string rateLimiter) : Prop :=
  forall a rl, rls !! a = Some rl -> bucket_ok cfg now rl.

(** An upper bound on the requests a bucket can still accept up to
    instant [E]: its tokens, and one more for each whole second left. *)
Definition credit (E : Z) (rl : rateLimiter) : Z :=
  Z.max 0 (tokens rl) + (E - lastRefill rl) / Go.Second.

Definition one_if (b : bool) : Z := if b then 1 else 0.

(** The bucket [checkRateLimit] hands to [allow]. *)
Definition bucket_for (cfg : Config) (c : clocks) (a : string)
    (rls : gmap string rateLimiter) : rateLimiter :=
  match rls !! a with
  | Some rl => rl
  | None => {| tokens := RateLimit cfg; maxTokens := RateLimit cfg;
               lastRefill := clock_new c |}
  end.

Lemma whole_seconds_conversion : Go.seconds_conversion Go.whole_seconds.
Proof.
  unfold Go.seconds_conversion, Go.whole_seconds, Go.Second.
  split; [|split]; intros d Hd; rewrite Z.quot_div_nonneg by lia.
  - apply Z.div_small. lia.
  - apply Z.le_antisymm.
    + apply Z.lt_succ_r. apply Z.div_lt_upper_bound; lia.
    + apply Z.div_le_lower_bound; lia.
  - apply Z.div_le_lower_bound; lia.
Qed.

Lemma accepted_cons (a b : string) (ok : bool) (l : list (string * bool)) :
  accepted a ((b, ok) :: l)
  = (if decide (b = a) then one_if ok else 0) + accepted a l.
Proof.
  unfold accepted. rewrite filter_cons. cbn [fst snd].
  destruct (decide (b = a)) as [->|Hne].
  - destruct ok; cbn [one_if].
    + rewrite decide_True by done. cbn [length]. lia.
    + rewrite decide_False by (intros [_ H]; discriminate). lia.
  - rewrite decide_False by (intros [H _]; done). lia.
Qed.

Lemma bucket_ok_later (cfg : Config) (t t' : Z) (rl : rateLimiter) :
  bucket_ok cfg t rl -> t <= t' -> bucket_ok cfg t' rl.
Proof. unfold bucket_ok. lia. Qed.

Lemma clock_monotone_app (t : Z) (pre win : list (string * clocks)) :
  clock_monotone t (pre ++ win) ->
  clock_monotone t pre /\ clock_monotone (end_clock t pre) win.
Proof.
  revert t. induction pre as [|[a c] pre IH]; intros t H.
  - done.
  - cbn in H. destruct H as (H1 & H2 & H). destruct (IH _ H) as [H3 H4].
    cbn. done.
Qed.

Section Bucket.

Variable secs : Z -> Z.
Hypothesis secs_ok : Go.seconds_conversion secs.
Variable cfg : Config.
Hypothesis limit_ok : 0 <= RateLimit cfg <= Go.int64_max.

(** One call of [allow], whatever the time since the last refill: the
    bucket stays within its bounds, it was refilled less than a second ago,
    and the request and the tokens left make at most [RateLimit]. *)
Lemma allow_spec (t now : Z) (rl : rateLimiter) :
  bucket_ok cfg t rl ->
  t <= now ->
  bucket_ok cfg now (allow secs now rl).2
  /\ lastRefill rl <= lastRefill (allow secs now rl).2
  /\ now - lastRefill (allow secs now rl).2 < Go.Second
  /\ one_if (allow secs now rl).1 + Z.max 0 (tokens (allow secs now rl).2)
     <= RateLimit cfg.
Proof.
  intros (Hmax & Htok & Hlast) Hnow. destruct secs_ok as (S0 & S1 & S2).
  unfold allow.
  assert (Hmin : Go.int64_min < 0) by (unfold Go.int64_min; lia).
  assert (Hsec : 0 < Go.Second < Go.int64_max)
    by (unfold Go.Second, Go.int64_max; lia).
  pose proof (Sub_le now (lastRefill rl)) as Hsub.
  set (d := Go.Sub now (lastRefill rl)) in *.
  assert (Hsat : secs d <= 0 -> now - lastRefill rl < Go.Second).
  { intros Hk.
    assert (Hd : d < Go.Second).
    { destruct (Z_lt_le_dec d Go.Second) as [|Hge]; [done|].
      destruct (Z_lt_le_dec d (2 * Go.Second)) as [Hlt|Hge2].
      - rewrite S1 in Hk by lia. lia.
      - specialize (S2 d Hge2). lia. }
    subst d. unfold Go.Sub in Hd |- *.
    destruct (Go.int64_max <? now - lastRefill rl) eqn:E1; [lia|].
    destruct (now - lastRefill rl <? Go.int64_min) eqn:E2;
      [apply Z.ltb_lt in E2; lia | exact Hd]. }
  pose proof (wrap64_le (tokens rl + secs d)) as Hw1.
  pose proof (wrap64_range (tokens rl + secs d)) as Hw2.
  destruct (0 <? secs d) eqn:Ek.
  - apply Z.ltb_lt in Ek. cbn [tokens maxTokens lastRefill].
    set (t1 := if maxTokens rl <? Go.wrap64 (tokens rl + secs d)
               then maxTokens rl else Go.wrap64 (tokens rl + secs d)).
    assert (Ht1 : Go.int64_min <= t1 <= RateLimit cfg).
    { subst t1. destruct (maxTokens rl <? Go.wrap64 (tokens rl + secs d)) eqn:E.
      - lia.
      - apply Z.ltb_ge in E. lia. }
    destruct (0 <? t1) eqn:Et.
    + apply Z.ltb_lt in Et. cbn [fst snd tokens maxTokens lastRefill one_if].
      rewrite decr_small by lia. unfold bucket_ok. cbn. lia.
    + apply Z.ltb_ge in Et. cbn [fst snd tokens maxTokens lastRefill one_if].
      unfold bucket_ok. cbn. lia.
  - apply Z.ltb_ge in Ek. specialize (Hsat Ek).
    destruct (0 <? tokens rl) eqn:Et.
    + apply Z.ltb_lt in Et. cbn [fst snd tokens maxTokens lastRefill one_if].
      rewrite decr_small by lia. unfold bucket_ok. cbn. lia.
    + apply Z.ltb_ge in Et. cbn [fst snd one_if]. unfold bucket_ok. lia.
Qed.

(** One call of [allow] less than two seconds after the last refill: what
    the request takes, the credit loses. *)
Lemma allow_credit (t now E : Z) (rl : rateLimiter) :
  bucket_ok cfg t rl ->
  t <= now <= E ->
  E - lastRefill rl < 2 * Go.Second ->
  one_if (allow secs now rl).1 + credit E (allow secs now rl).2 <= credit E rl.
Proof.
  intros (Hmax & Htok & Hlast) Hnow HE. destruct secs_ok as (S0 & S1 & S2).
  unfold allow.
  assert (Hmin : Go.int64_min < 0) by (unfold Go.int64_min; lia).
  assert (Hsec : Go.Second = 1000000000) by reflexivity.
  assert (Hmaxi : 2 * Go.Second < Go.int64_max)
    by (unfold Go.Second, Go.int64_max; lia).
  rewrite Sub_small by lia.
  pose proof (wrap64_le (tokens rl + secs (now - lastRefill rl))) as Hw1.
  assert (Hdiv0 : forall x, 0 <= x < Go.Second -> x / Go.Second = 0)
    by (intros; apply Z.div_small; lia).
  assert (Hdiv1 : forall x, Go.Second <= x < 2 * Go.Second -> x / Go.Second = 1).
  { intros x Hx. apply Z.le_antisymm.
    - apply Z.lt_succ_r. apply Z.div_lt_upper_bound; lia.
    - apply Z.div_le_lower_bound; lia. }
  assert (Hdivle : (E - now) / Go.Second <= (E - lastRefill rl) / Go.Second)
    by (apply Z.div_le_mono; lia).
  assert (Hdivpos : 0 <= (E - now) / Go.Second) by (apply Z.div_pos; lia).
  destruct (Z_lt_le_dec (now - lastRefill rl) Go.Second) as [Hlt|Hge].
  - rewrite S0 by lia. cbn [Z.ltb Z.compare].
    destruct (0 <? tokens rl) eqn:Et.
    + apply Z.ltb_lt in Et. cbn [fst snd one_if]. unfold credit.
      cbn [tokens lastRefill]. rewrite decr_small by lia. lia.
    + cbn [fst snd one_if]. lia.
  - rewrite S1 by lia. cbn [Z.ltb Z.compare tokens maxTokens lastRefill].
    rewrite S1 in Hw1 by lia.
    set (t1 := if maxTokens rl <? Go.wrap64 (tokens rl + 1)
               then maxTokens rl else Go.wrap64 (tokens rl + 1)).
    assert (Ht1 : t1 <= tokens rl + 1 /\ t1 <= Go.int64_max).
    { subst t1. destruct (maxTokens rl <? Go.wrap64 (tokens rl + 1)) eqn:Ecmp.
      - apply Z.ltb_lt in Ecmp. lia.
      - pose proof (wrap64_range (tokens rl + 1)). lia. }
    assert (Hrest : (E - now) / Go.Second = 0) by (apply Hdiv0; lia).
    assert (Hall : (E - lastRefill rl) / Go.Second = 1) by (apply Hdiv1; lia).
    destruct (0 <? t1) eqn:Et.
    + apply Z.ltb_lt in Et. cbn [fst snd one_if]. unfold credit.
      cbn [tokens lastRefill]. rewrite decr_small by lia. lia.
    + apply Z.ltb_ge in Et. cbn [fst snd one_if]. unfold credit.
      cbn [tokens lastRefill]. lia.
Qed.

Lemma checkRateLimit_unfold (c : clocks) (a : string)
    (rls : gmap string rateLimiter) :
  checkRateLimit secs cfg c a rls
  = ((allow secs (clock_allow c) (bucket_for cfg c a rls)).1,
     <[a := (allow secs (clock_allow c) (bucket_for cfg c a rls)).2]> rls).
Proof.
  unfold checkRateLimit, bucket_for.
  by destruct (allow secs (clock_allow c) _).
Qed.

Lemma bucket_for_ok (t : Z) (c : clocks) (a : string)
    (rls : gmap string rateLimiter) :
  table_ok cfg t rls -> t <= clock_new c ->
  bucket_ok cfg (clock_new c) (bucket_for cfg c a rls).
Proof.
  intros Ht Hc. unfold bucket_for.
  destruct (rls !! a) as [rl|] eqn:E.
  - destruct (Ht a rl E) as (H1 & H2 & H3). unfold bucket_ok. lia.
  - unfold bucket_ok, Go.int64_min. cbn. lia.
Qed.

Lemma table_ok_step (t : Z) (c : clocks) (a : string)
    (rls : gmap string rateLimiter) :
  table_ok cfg t rls -> t <= clock_new c -> clock_new c <= clock_allow c ->
  table_ok cfg (clock_allow c) (checkRateLimit secs cfg c a rls).2.
Proof.
  intros Ht H1 H2. rewrite checkRateLimit_unfold. cbn [snd].
  intros b rl Hb. destruct (decide (a = b)) as [->|Hne].
  - rewrite lookup_insert_eq in Hb. inversion Hb; subst rl.
    apply (allow_spec (clock_new c)); [by eapply bucket_for_ok | done].
  - rewrite lookup_insert_ne in Hb by done.
    apply (bucket_ok_later cfg t); [exact (Ht b rl Hb) | lia].
Qed.

(** The table of a receiver that has served a stream of requests. *)
Lemma table_ok_serve (reqs : list (string * clocks)) (t : Z)
    (rls : gmap string rateLimiter) :
  table_ok cfg t rls -> clock_monotone t reqs ->
  table_ok cfg (end_clock t reqs) (serve_rate_limit secs cfg reqs rls).2.
Proof.
  revert t rls. induction reqs as [|[a c] rest IH]; intros t rls Ht Hm.
  - exact Ht.
  - cbn [clock_monotone] in Hm. destruct Hm as (H1 & H2 & Hm).
    cbn [serve_rate_limit end_clock].
    pose proof (table_ok_step t c a rls Ht H1 H2) as Hstep.
    destruct (checkRateLimit secs cfg c a rls) as [ok rls1]. cbn [snd] in Hstep.
    specialize (IH (clock_allow c) rls1 Hstep Hm).
    destruct (serve_rate_limit secs cfg rest rls1) as [answers rls2]. exact IH.
Qed.

(** From a bucket refilled less than two seconds before [E]: up to [E]
    agent [a] gets at most the bucket's credit accepted. *)
Lemma accepted_le_credit (a : string) (E : Z) (reqs : list (string * clocks))
    (t : Z) (rls : gmap string rateLimiter) (rl : rateLimiter) :
  rls !! a = Some rl ->
  bucket_ok cfg t rl ->
  t <= E ->
  E - lastRefill rl < 2 * Go.Second ->
  clock_monotone t reqs ->
  (forall x, In x reqs -> clock_allow x.2 <= E) ->
  accepted a (serve_rate_limit secs cfg reqs rls).1 <= credit E rl.
Proof.
  revert t rls rl.
  induction reqs as [|[b c] rest IH]; intros t rls rl Ha Hok HtE Hnear Hm HE.
  - destruct Hok as (_ & _ & Hl). unfold credit.
    pose proof (Z.div_pos (E - lastRefill rl) Go.Second).
    change (accepted a (serve_rate_limit secs cfg [] rls).1) with 0.
    unfold Go.Second in *. lia.
  - cbn [clock_monotone] in Hm. destruct Hm as (H1 & H2 & Hm).
    assert (HcE : clock_allow c <= E) by (apply (HE (b, c)); by left).
    cbn [serve_rate_limit]. rewrite checkRateLimit_unfold.
    destruct (decide (b = a)) as [->|Hne].
    + unfold bucket_for at 1 2. rewrite Ha.
      destruct (allow_spec t (clock_allow c) rl Hok) as (Hok' & Hmono & _ & _);
        [lia|].
      pose proof (allow_credit t (clock_allow c) E rl Hok) as Hcr.
      specialize (IH (clock_allow c)
                     (<[a := (allow secs (clock_allow c) rl).2]> rls)
                     (allow secs (clock_allow c) rl).2).
      destruct (serve_rate_limit secs cfg rest _) as [answers rls2]. cbn [fst] in *.
      rewrite accepted_cons, decide_True by done.
      assert (accepted a answers <= credit E (allow secs (clock_allow c) rl).2).
      { apply IH; [apply lookup_insert_eq | done | done | lia | done |].
        intros x Hx. apply HE. by right. }
      specialize (Hcr ltac:(lia) Hnear). lia.
    + specialize (IH (clock_allow c)
                     (<[b := (allow secs (clock_allow c) (bucket_for cfg c b rls)).2]> rls)
                     rl).
      destruct (serve_rate_limit secs cfg rest _) as [answers rls2]. cbn [fst] in *.
      rewrite accepted_cons, decide_False by done.
      assert (accepted a answers <= credit E rl).
      { apply IH; [by rewrite lookup_insert_ne | | done | done | done |].
        - apply (bucket_ok_later cfg t); [done | lia].
        - intros x Hx. apply HE. by right. }
      lia.
Qed.

(** Within a window of one second, from any table the server can be in. *)
Lemma accepted_in_window (a : string) (T : Z) (win : list (string * clocks))
    (t : Z) (rls : gmap string rateLimiter) :
  table_ok cfg t rls ->
  clock_monotone t win ->
  (forall x, In x win -> T <= clock_allow x.2 <= T + Go.Second) ->
  accepted a (serve_rate_limit secs cfg win rls).1 <= RateLimit cfg + 1.
Proof.
  revert t rls.
  induction win as [|[b c] rest IH]; intros t rls Ht Hm HT.
  - change (accepted a (serve_rate_limit secs cfg [] rls).1) with 0. lia.
  - cbn [clock_monotone] in Hm. destruct Hm as (H1 & H2 & Hm).
    assert (HcT : T <= clock_allow c <= T + Go.Second) by (apply (HT (b, c)); by left).
    pose proof (table_ok_step t c b rls Ht H1 H2) as Hstep.
    pose proof (bucket_for_ok t c b rls Ht H1) as Hb.
    cbn [serve_rate_limit]. rewrite checkRateLimit_unfold in *. cbn [snd] in Hstep.
    destruct (decide (b = a)) as [->|Hne].
    + destruct (allow_spec (clock_new c) (clock_allow c) (bucket_for cfg c a rls)
                  Hb H2) as (Hok' & _ & Hnear & Hfull).
      pose proof (accepted_le_credit a (T + Go.Second) rest (clock_allow c)
                    (<[a := (allow secs (clock_allow c) (bucket_for cfg c a rls)).2]> rls)
                    (allow secs (clock_allow c) (bucket_for cfg c a rls)).2) as Hcr.
      destruct (serve_rate_limit secs cfg rest _) as [answers rls2]. cbn [fst] in *.
      rewrite accepted_cons, decide_True by done.
      assert (Hrest : accepted a answers
                      <= credit (T + Go.Second)
                           (allow secs (clock_allow c) (bucket_for cfg c a rls)).2).
      { apply Hcr; [apply lookup_insert_eq | done | lia | lia | done |].
        intros x Hx. apply HT. by right. }
      unfold credit in Hrest.
      assert (Hdiv : (T + Go.Second
                      - lastRefill (allow secs (clock_allow c) (bucket_for cfg c a rls)).2)
                     / Go.Second <= 1).
      { apply Z.lt_succ_r. apply Z.div_lt_upper_bound; unfold Go.Second in *; lia. }
      lia.
    + specialize (IH (clock_allow c) _ Hstep Hm).
      destruct (serve_rate_limit secs cfg rest _) as [answers rls2]. cbn [fst] in *.
      rewrite accepted_cons, decide_False by done.
      assert (accepted a answers <= RateLimit cfg + 1).
      { apply IH. intros x Hx. apply HT. by right. }
      lia.
Qed.

End Bucket.

(** C4: the receiver starts with an empty table and serves [pre], then
    [win]; the clock never runs backwards and the requests of [win] are
    admitted within one second ([T] to [T + 1s]).  Whatever the agents and
    the order of their requests, the requests of agent [a] accepted in
    [win] number at most [RateLimit + 1].  This holds for every conversion
    [secs] of a duration to whole seconds that is exact below two seconds
    and positive from one second on. *)
Theorem C4_accepted_per_second_window (secs : Z -> Z) (cfg : Config)
    (a : string) (t0 T : Z) (pre win : list (string * clocks)) :
  Go.seconds_conversion secs ->
  0 <= RateLimit cfg <= Go.int64_max ->
  clock_monotone t0 (pre ++ win) ->
  (forall x, In x win -> T <= clock_allow x.2 <= T + Go.Second) ->
  accepted a (serve_rate_limit secs cfg win (serve_rate_limit secs cfg pre ∅).2).1
  <= RateLimit cfg + 1.
Proof.
  intros Hsecs Hcfg Hm HT. apply clock_monotone_app in Hm.
  destruct Hm as [Hpre Hwin].
  apply (accepted_in_window secs Hsecs cfg Hcfg a T win (end_clock t0 pre));
    [ | done | done].
  apply table_ok_serve; [done | done | | done].
  intros b rl Hb. by rewrite lookup_empty in Hb.
Qed.

(** A bucket of two tokens.  The agent's bucket is made at [noon]; 2.5 s
    later it sends two requests, and a third one exactly one second after
    the first of them. *)
Definition two_per_agent : Config :=
  {| HTTPAddr := ":8080"; MaxBatchSize := 10000; RateLimit := 2;
     Timeout := 30 * Go.Second; RequireAuth := false; APIKeys := ∅ |}.

Definition noon : Z := 63839700000 * Go.Second.

Definition at_ms (ms : Z) : clocks :=
  {| clock_new := noon + ms * Go.Millisecond;
     clock_allow := noon + ms * Go.Millisecond |}.

Definition earlier : list (string * clocks) := [("agent-1"%string, at_ms 0)].

Definition one_second : list (string * clocks) :=
  [("agent-1"%string, at_ms 2500); ("agent-2"%string, at_ms 2600);
   ("agent-1"%string, at_ms 2700); ("agent-1"%string, at_ms 3500)].

Lemma C4_window_witness :
  accepted "agent-1"
    (serve_rate_limit Go.whole_seconds two_per_agent one_second
       (serve_rate_limit Go.whole_seconds two_per_agent earlier ∅).2).1
  <= 2 + 1.
Proof.
  apply (C4_accepted_per_second_window Go.whole_seconds two_per_agent "agent-1"
           noon (noon + 2500 * Go.Millisecond) earlier one_second).
  - exact whole_seconds_conversion.
  - vm_compute. split; discriminate.
  - vm_compute. repeat split; discriminate.
  - intros x Hx. cbn in Hx.
    repeat (destruct Hx as [<-|Hx]; [vm_compute; split; discriminate|]).
    destruct Hx.
Defined.

(** The bound is reached: all three requests of the agent are accepted. *)
Example three_accepted_with_two_tokens :
  (serve_rate_limit Go.whole_seconds two_per_agent one_second
     (serve_rate_limit Go.whole_seconds two_per_agent earlier ∅).2).1
  = [("agent-1"%string, true); ("agent-2"%string, true);
     ("agent-1"%string, true); ("agent-1"%string, true)].
Proof. vm_compute. reflexivity. Qed.

End RateLimitProps.

(** ** The query cache *)

Module CacheProps.

Import Models QueryEngine.

Lemma same_components_same_key (q1 q2 : SearchQuery) :
  key_components q1 = key_components q2 ->
  queryCacheKey q1 = queryCacheKey q2.
Proof.
  unfold key_components. intros H. inversion H as [[Hq Hs He Hb Ho]].
  unfold queryCacheKey. by rewrite Hq, Hs, He, Hb, Ho.
Qed.

(** Queries that agree on the five components as given still agree on them
    once [validateQuery] has filled in the defaults. *)
Lemma validated_components (q1 q2 : SearchQuery) :
  key_components q1 = key_components q2 ->
  key_components (validateQuery q1) = key_components (validateQuery q2).
Proof.
  unfold key_components. intros H. inversion H as [[Hq Hs He Hb Ho]].
  unfold validateQuery. cbn. by rewrite Hq, Hs, He, Hb, Ho.
Qed.

Lemma key_length_app (x a : string) :
  String.length (x +:+ a) = (String.length x + String.length a)%nat.
Proof.
  induction x as [|c x IH]; [done|].
  change (String c x +:+ a) with (String c (x +:+ a)). cbn [String.length].
  by rewrite IH.
Qed.

Lemma key_cancel_r (x y a : string) : x +:+ a = y +:+ a -> x = y.
Proof.
  revert y. induction x as [|c x IH]; intros y H.
  - apply (f_equal String.length) in H. rewrite !key_length_app in H.
    destruct y; [done | cbn in H; lia].
  - destruct y as [|d y].
    + apply (f_equal String.length) in H. rewrite !key_length_app in H.
      cbn in H. lia.
    + change (String c (x +:+ a) = String d (y +:+ a)) in H.
      inversion H. f_equal. by apply IH.
Qed.

Lemma key_cancel_l (a x y : string) : a +:+ x = a +:+ y -> x = y.
Proof. apply String.app_inj. Qed.

(** Two queries agree on four of the five components of the key. *)
Definition agree_but_one (qa qb : SearchQuery) : Prop :=
  let ca := key_components qa in
  let cb := key_components qb in
  (ca.1.1.1.2 = cb.1.1.1.2 /\ ca.1.1.2 = cb.1.1.2 /\ ca.1.2 = cb.1.2 /\ ca.2 = cb.2)
  \/ (ca.1.1.1.1 = cb.1.1.1.1 /\ ca.1.1.2 = cb.1.1.2 /\ ca.1.2 = cb.1.2 /\ ca.2 = cb.2)
  \/ (ca.1.1.1.1 = cb.1.1.1.1 /\ ca.1.1.1.2 = cb.1.1.1.2 /\ ca.1.2 = cb.1.2 /\ ca.2 = cb.2)
  \/ (ca.1.1.1.1 = cb.1.1.1.1 /\ ca.1.1.1.2 = cb.1.1.1.2 /\ ca.1.1.2 = cb.1.1.2 /\ ca.2 = cb.2)
  \/ (ca.1.1.1.1 = cb.1.1.1.1 /\ ca.1.1.1.2 = cb.1.1.1.2 /\ ca.1.1.2 = cb.1.1.2
      /\ ca.1.2 = cb.1.2).

(** Every one of the five components is in the key: two queries that
    differ in one of them only have different keys. *)
Lemma one_component_changes_the_key (qa qb : SearchQuery) :
  agree_but_one qa qb ->
  queryCacheKey qa = queryCacheKey qb ->
  key_components qa = key_components qb.
Proof.
  unfold agree_but_one, key_components, queryCacheKey. cbn [fst snd].
  intros [(H2 & H3 & H4 & H5)|[(H1 & H3 & H4 & H5)|[(H1 & H2 & H4 & H5)
          |[(H1 & H2 & H3 & H5)|(H1 & H2 & H3 & H4)]]]] Hk.
  - rewrite H2, H3, H4, H5 in *. apply key_cancel_r in Hk. by rewrite Hk.
  - rewrite H1, H3, H4, H5 in *. do 2 apply key_cancel_l in Hk.
    apply key_cancel_r in Hk. apply (inj pretty) in Hk. by rewrite Hk.
  - rewrite H1, H2, H4, H5 in *. do 4 apply key_cancel_l in Hk.
    apply key_cancel_r in Hk. apply (inj pretty) in Hk. by rewrite Hk.
  - rewrite H1, H2, H3, H5 in *. do 6 apply key_cancel_l in Hk.
    apply key_cancel_r in Hk. by rewrite Hk.
  - rewrite H1, H2, H3, H4 in *. do 8 apply key_cancel_l in Hk. by rewrite Hk.
Qed.

(** C9, as the code has it.  The key is made of the query text, the two
    epoch seconds of the range, the sort field and the sort order, and of
    nothing else: queries that agree on the five get the same key, and
    queries that differ in one of them only get different keys.  After a
    call that returns a result, the cache holds that very [SearchResult]
    pointer under the key of the call's query, with the instant [ts] at
    which it was stored; when the call ran the store query itself, [ts] is
    the instant of this call's [cache.set] and the object is the query's
    result, sorted and paginated with this query's limit and offset; when
    the call was served from the cache, [ts] is older than the call.  A
    second call whose query has the same five components (as [Query] sees
    them, after [validateQuery]; queries that agree on them as given do, by
    [validated_components]), made on any later state of the engine in which
    that entry is still in the cache and at most [ttl] old, counted from
    [ts], returns the same pointer and leaves the engine, and so the object,
    as they were: neither the store nor the second query's limit, offset,
    filters or projection are looked at.  This holds in particular for a
    second call that follows the first one directly. *)
Theorem C9_cached_result_ignores_limit_offset_filters (store1 store2 : Store)
    (g1 s1 g2 s2 : Z) (q1 q2 : SearchQuery) (e e1 : Engine) (r1 : nat) :
  key_components (validateQuery q1) = key_components (validateQuery q2) ->
  Engine_Query store1 g1 s1 q1 e = (Some r1, e1) ->
  (forall qa qb, key_components qa = key_components qb ->
                 queryCacheKey qa = queryCacheKey qb)
  /\ (forall qa qb, agree_but_one qa qb -> queryCacheKey qa = queryCacheKey qb ->
                    key_components qa = key_components qb)
  /\ exists ts,
    entries (cache e1) !! queryCacheKey (validateQuery q1)
    = Some {| result := r1; timestamp := ts |}
    /\ (cache_get (cache e) (queryCacheKey (validateQuery q1)) g1 = None ->
        ts = s1
        /\ exists res,
             store1 (validateQuery q1) = Some res
             /\ results e1 !! r1
                = Some (paginateResults (sortResults res (validateQuery q1))
                                        (validateQuery q1)))
    /\ (cache_get (cache e) (queryCacheKey (validateQuery q1)) g1 <> None ->
        e1 = e
        /\ entries (cache e) !! queryCacheKey (validateQuery q1)
           = Some {| result := r1; timestamp := ts |})
    /\ (forall e2,
          entries (cache e2) !! queryCacheKey (validateQuery q1)
          = Some {| result := r1; timestamp := ts |} ->
          Go.Since g2 ts <= ttl (cache e2) ->
          Engine_Query store2 g2 s2 q2 e2 = (Some r1, e2))
    /\ (Go.Since g2 ts <= ttl (cache e1) ->
        Engine_Query store2 g2 s2 q2 e1 = (Some r1, e1)).
Proof.
  intros Hk H1.
  split; [exact same_components_same_key|].
  split; [exact one_component_changes_the_key|].
  assert (Hhit : forall ts e2,
            entries (cache e2) !! queryCacheKey (validateQuery q1)
            = Some {| result := r1; timestamp := ts |} ->
            Go.Since g2 ts <= ttl (cache e2) ->
            Engine_Query store2 g2 s2 q2 e2 = (Some r1, e2)).
  { intros ts e2 Hts Hage. unfold Engine_Query, cache_get.
    rewrite <- (same_components_same_key _ _ Hk), Hts. cbn [timestamp result].
    destruct (ttl (cache e2) <? Go.Since g2 ts) eqn:E;
      [apply Z.ltb_lt in E; lia | done]. }
  unfold Engine_Query in H1.
  destruct (cache_get (cache e) (queryCacheKey (validateQuery q1)) g1) as [r|] eqn:Eg.
  - (* served from the cache *)
    inversion H1; subst r e1. unfold cache_get in Eg.
    destruct (entries (cache e) !! queryCacheKey (validateQuery q1)) as [[r ts]|] eqn:Ee;
      [|discriminate].
    cbn [timestamp result] in Eg.
    destruct (ttl (cache e) <? Go.Since g1 ts); [discriminate|].
    inversion Eg; subst r. exists ts.
    split; [reflexivity|]. split; [discriminate|]. split; [done|].
    split; [apply Hhit|]. intros Hage. by apply (Hhit ts).
  - (* computed and stored *)
    destruct (store1 (validateQuery q1)) as [res|] eqn:Es; [|discriminate].
    inversion H1; subst r1 e1. clear H1. exists s1.
    assert (Hts : entries (cache_set (cache e) (queryCacheKey (validateQuery q1))
                             (next e) s1)
                  !! queryCacheKey (validateQuery q1)
                  = Some {| result := next e; timestamp := s1 |})
      by (unfold cache_set; cbn [entries]; apply lookup_insert_eq).
    split; [exact Hts|]. split; [|split; [done|split; [apply Hhit|]]].
    + intros _. split; [done|]. exists res. split; [done|].
      cbn [results]. apply lookup_insert_eq.
    + intros Hage. apply (Hhit s1); [exact Hts | exact Hage].
Qed.

(** Three entries of one hour, and a store that returns them all. *)
Definition hit (i : string) (t : Z) : LogEntry :=
  {| ID := i; Timestamp := t; Level := LogLevelError; Message := "disk full";
     Source := "file"; Host := "db-1"; Service := "postgres"; Fields := [];
     Tags := []; Raw := "disk full" |}.

Definition noon : Z := 63839700000 * Go.Second.

Definition three_hits : Store :=
  fun _ => Some {| Hits := [hit "a" (noon + 1); hit "b" (noon + 3);
                            hit "c" (noon + 2)];
                   Total := 3; Took := 0; TimedOut := false |}.

Definition first_page : SearchQuery :=
  {| Query := "disk"; Range := {| Start := noon; End_ := noon + Go.Hour |};
     Filters := []; Limit := 1; Offset := 0; SortBy := ""; SortOrder := "";
     Projection := [] |}.

Definition second_page : SearchQuery :=
  {| Query := "disk";
     Range := {| Start := noon + 5; End_ := noon + Go.Hour + 7 |};
     Filters := [("host"%string, FStr "db-2")]; Limit := 1; Offset := 1;
     SortBy := "timestamp"; SortOrder := "desc";
     Projection := ["message"%string] |}.

Definition no_store : Store := fun _ => None.

(** The first page again, with another offset, a filter and a projection:
    the five components of the key are those of [first_page]. *)
Definition next_page : SearchQuery :=
  {| Query := "disk"; Range := {| Start := noon; End_ := noon + Go.Hour |};
     Filters := [("host"%string, FStr "db-2")]; Limit := 1; Offset := 1;
     SortBy := ""; SortOrder := ""; Projection := ["message"%string] |}.

(** A query with another text. *)
Definition other_text : SearchQuery :=
  {| Query := "cpu"; Range := {| Start := noon; End_ := noon + Go.Hour |};
     Filters := []; Limit := 1; Offset := 0; SortBy := ""; SortOrder := "";
     Projection := [] |}.

(** C9 fails as stated, for two calls that lie within [CacheTTL] of each
    other and agree on the five components.  First, the age of a cached
    result counts from the call that stored it: a result stored at noon
    serves a call 4 min 59 s later, but not the call with the same five
    components 2 s after that one, which runs its own query and returns
    another object, paginated with its own offset.  Second, a result stored
    in a full cache replaces all the others: with room for one result, a
    query with another text in between evicts the first result, and the
    second call, 2 s after the first, again runs its own query. *)
Lemma C9_second_call_within_ttl_runs_its_own_query :
  let t1 := noon + 4 * Go.Minute + 59 * Go.Second in
  let t2 := t1 + 2 * Go.Second in
  let stored := Engine_Query three_hits noon noon first_page (NewEngine DefaultConfig) in
  let first := Engine_Query three_hits t1 t1 first_page stored.2 in
  let second := Engine_Query three_hits t2 t2 next_page first.2 in
  let small := NewEngine {| CacheSize := 1; CacheTTL := 5 * Go.Minute;
                            MaxResults := 10000 |} in
  let first' := Engine_Query three_hits noon noon first_page small in
  let between := Engine_Query three_hits (noon + Go.Second) (noon + Go.Second)
                              other_text first'.2 in
  let second' := Engine_Query three_hits (noon + 2 * Go.Second)
                              (noon + 2 * Go.Second) next_page between.2 in
  key_components first_page = key_components next_page
  /\ Go.Since t2 t1 <= CacheTTL DefaultConfig
  /\ first.1 = Some 0%nat
  /\ second.1 = Some 1%nat
  /\ Hits <$> (results second.2 !! 0%nat) = Some [hit "b" (noon + 3)]
  /\ Hits <$> (results second.2 !! 1%nat) = Some [hit "c" (noon + 2)]
  /\ first'.1 = Some 0%nat
  /\ second'.1 = Some 2%nat
  /\ Hits <$> (results second'.2 !! 2%nat) = Some [hit "c" (noon + 2)].
Proof. vm_compute. repeat split; try reflexivity; discriminate. Qed.

Lemma C9_cached_result_witness :
  let e := NewEngine DefaultConfig in
  let first := Engine_Query three_hits noon noon first_page e in
  Engine_Query no_store (noon + Go.Minute) (noon + Go.Minute) second_page first.2
  = (Some 0%nat, first.2)
  /\ Hits <$> (results first.2 !! 0%nat) = Some [hit "b" (noon + 3)].
Proof.
  intros e first.
  destruct (C9_cached_result_ignores_limit_offset_filters three_hits no_store
              noon noon (noon + Go.Minute) (noon + Go.Minute)
              first_page second_page e first.2 0%nat)
    as (_ & _ & ts & _ & Hmiss & _ & _ & Hhit).
  - vm_compute. reflexivity.
  - vm_compute. reflexivity.
  - destruct Hmiss as (Hts & res & Hres & Hr); [reflexivity|].
    split.
    + apply Hhit. rewrite Hts. vm_compute. discriminate.
    + rewrite Hr. inversion Hres. vm_compute. reflexivity.
Defined.

End CacheProps.

(** ** The file store: Write followed by Get *)

Module StoreProps.

Import Models Storage.

(** Every message takes room in the file. *)
Definition sizes_positive (pf : Platform) : Prop :=
  0 < type_def_size pf /\ forall e, 0 < value_size pf e.

Lemma file_size_nonneg (pf : Platform) (f : list gobMessage) :
  sizes_positive pf -> 0 <= file_size pf f.
Proof.
  intros [Hd Hv]. induction f as [|m f IH]; cbn; [lia|].
  destruct m; cbn; [lia | specialize (Hv e); lia].
Qed.

Lemma message_size_pos (pf : Platform) (m : gobMessage) :
  sizes_positive pf -> 0 < message_size pf m.
Proof. intros [Hd Hv]. destruct m; cbn; [done | apply Hv]. Qed.

(** Seeking to the size a file had before an append lands on what was
    appended. *)
Lemma seek_end (pf : Platform) (f rest : list gobMessage) :
  sizes_positive pf ->
  rest <> [] ->
  seek pf (file_size pf f) (f ++ rest) = Some rest.
Proof.
  intros Hpos Hrest. induction f as [|m f IH].
  - cbn. by destruct rest.
  - pose proof (message_size_pos pf m Hpos).
    pose proof (file_size_nonneg pf f Hpos).
    cbn [file_size app seek].
    destruct (message_size pf m + file_size pf f =? 0) eqn:E0;
      [apply Z.eqb_eq in E0; lia|].
    destruct (message_size pf m <=? message_size pf m + file_size pf f) eqn:E1;
      [|apply Z.leb_gt in E1; lia].
    replace (message_size pf m + file_size pf f - message_size pf m)
      with (file_size pf f) by lia.
    exact IH.
Qed.

(** The partition key [getPartition] computes for an entry. *)
Definition key_of (pf : Platform) (fs : FileStore) (e : LogEntry) : string :=
  format_hour pf (Go.Truncate (Timestamp e) (PartitionInterval (config fs))).

(** The first entry written to a partition file that did not exist can be
    read back: its offset is 0 and the file starts with the type
    definition. *)
Theorem first_entry_of_new_partition_round_trips (pf : Platform)
    (fs : FileStore) (e : LogEntry) :
  partitions fs !! key_of pf fs e = None ->
  disk fs !! filepath_Join (Path (config fs))
               ("partition_" +:+ key_of pf fs e +:+ ".gob") = None ->
  encodable pf e = true ->
  (Write pf e fs).1 = None
  /\ Get pf (ID e) (Write pf e fs).2 = inr e.
Proof.
  intros Hp Hd He. unfold Write, getPartition. fold (key_of pf fs e).
  rewrite Hp. cbn [path encoder_sent]. unfold gob_Encode. rewrite He.
  cbn [negb fst snd]. split; [done|].
  unfold Get. cbn [index disk ixPartition offset].
  rewrite lookup_insert_eq. cbn [ixPartition offset].
  rewrite lookup_insert_eq.
  unfold file_of, open_append. cbn [disk]. rewrite Hd, lookup_insert_eq.
  cbn. reflexivity.
Qed.

(** Any entry written to a partition whose encoder has already sent the
    type definition (every write after the first one the process makes to
    that partition) is indexed at an offset where a fresh decoder finds a
    value without its type: [Write] succeeds and [Get] fails. *)
Theorem later_entry_of_partition_is_not_readable (pf : Platform)
    (fs : FileStore) (e : LogEntry) (part : partition)
    (content : list gobMessage) :
  sizes_positive pf ->
  partitions fs !! key_of pf fs e = Some part ->
  encoder_sent part = true ->
  disk fs !! path part = Some content ->
  encodable pf e = true ->
  (Write pf e fs).1 = None
  /\ Get pf (ID e) (Write pf e fs).2 = inl ErrDecode.
Proof.
  intros Hpos Hp Hs Hd He. unfold Write, getPartition. fold (key_of pf fs e).
  rewrite Hp. unfold gob_Encode. rewrite Hs, He.
  cbn [negb fst snd app]. split; [done|].
  unfold Get. cbn [index disk ixPartition offset].
  rewrite lookup_insert_eq. cbn [ixPartition offset].
  rewrite lookup_insert_eq.
  unfold file_of. rewrite Hd. cbn [default].
  rewrite seek_end by done. reflexivity.
Qed.

(** A directory without partition files, the default configuration (one
    partition per 24 hours), and two entries stamped one second apart. *)
Definition platform : Platform :=
  {| type_def_size := 340;
     value_size := fun e => 64 + Z.of_nat (String.length (Message e));
     encodable := fun _ => true;
     format_hour := fun t => pretty (t / Go.Hour);
     filepath_Base := fun p => p |}.

Definition noon : Z := 63839700000 * Go.Second.

Definition entry (i : string) (t : Z) (msg : string) : LogEntry :=
  {| ID := i; Timestamp := t; Level := LogLevelInfo; Message := msg;
     Source := "file"; Host := "web-1"; Service := "api"; Fields := [];
     Tags := []; Raw := msg |}.

Definition empty_store : FileStore := NewFileStore platform DefaultConfig [] ∅.

Definition after_first : FileStore :=
  (Write platform (entry "id-1" noon "started") empty_store).2.

Definition after_second : FileStore :=
  (Write platform (entry "id-2" (noon + Go.Second) "listening") after_first).2.

(** C1 at the failing input: both writes succeed and go to the same
    partition file; the first entry is read back, the second is not --
    [Get] hits a value whose type definition lies at the start of the file,
    before the offset it seeks to. *)
Lemma C1_second_write_to_partition_not_readable :
  (Write platform (entry "id-1" noon "started") empty_store).1 = None
  /\ (Write platform (entry "id-2" (noon + Go.Second) "listening") after_first).1
     = None
  /\ offset <$> (index after_second !! "id-2"%string) = Some 411
  /\ Get platform "id-1" after_second = inr (entry "id-1" noon "started")
  /\ Get platform "id-2" after_second = inl ErrDecode.
Proof. vm_compute. repeat split; reflexivity. Qed.

Lemma first_entry_witness :
  Get platform "id-1" after_first = inr (entry "id-1" noon "started").
Proof.
  apply (first_entry_of_new_partition_round_trips platform empty_store
           (entry "id-1" noon "started")).
  - vm_compute. reflexivity.
  - vm_compute. reflexivity.
  - reflexivity.
Defined.

Lemma later_entry_witness :
  Get platform "id-2" after_second = inl ErrDecode.
Proof.
  destruct (later_entry_of_partition_is_not_readable platform after_first
              (entry "id-2" (noon + Go.Second) "listening")
              {| path := "/var/lib/logpipeline/data/partition_17733240.gob";
                 startTime := 17733240 * Go.Hour;
                 endTime := 17733264 * Go.Hour;
                 encoder_sent := true; count := 1 |}
              [GobTypeDef; GobValue (entry "id-1" noon "started")])
    as [_ H].
  - split; [vm_compute; reflexivity | intros e; cbn; lia].
  - vm_compute. reflexivity.
  - reflexivity.
  - vm_compute. reflexivity.
  - reflexivity.
  - exact H.
Defined.

End StoreProps.

(** ** Clone and what the clone shares with the original *)

Module CloneProps.

Import Objects.

(** [h'] has the objects of [h] below address [n], unchanged. *)
Definition same_below (n : nat) (h h' : heap) : Prop :=
  forall a, (a < n)%nat -> cells h' !! a = cells h !! a.

(** The loop [for k, v := range l.Fields { clone.Fields[k] = v }] fills the
    new map with the entries of the source map and touches nothing else. *)
Lemma range_assign (a : nat) (src : gmap string value) (h : heap) :
  cells h !! a = Some (OMap ∅) ->
  cells (map_fold (fun k v acc => default acc (map_assign a k v acc)) h src)
  = <[a := OMap src]> (cells h)
  /\ next (map_fold (fun k v acc => default acc (map_assign a k v acc)) h src)
     = next h.
Proof.
  intros Ha.
  apply (map_fold_weak_ind
           (fun acc m => cells acc = <[a := OMap m]> (cells h) /\ next acc = next h)).
  - split; [|done]. symmetry. by apply insert_id.
  - intros k v m acc Hk [Hc Hn]. unfold map_assign.
    rewrite Hc, lookup_insert_eq. cbn. rewrite Hc, insert_insert_eq. done.
Qed.

(** What [Clone] builds: three new objects at the next three addresses --
    a map with the entries of the original's [Fields], an array with the
    original's tags, and the clone itself, which points to them and has the
    original's scalars. *)
Lemma Clone_result (p : nat) (h : heap) (l : LogEntry)
    (m : gmap string value) (ts : list string) :
  entry_at h p = Some l ->
  fields_of h (Fields l) = Some m ->
  tags_of h (Tags l) = Some ts ->
  exists h',
    Clone p h = Some (S (S (next h)), h')
    /\ next h' = S (S (S (next h)))
    /\ cells h'
       = <[S (next h) := OStrings ts]>
           (<[next h := OMap m]>
              (<[S (S (next h)) :=
                   OEntry {| ID := ID l; Timestamp := Timestamp l;
                             Level := Level l; Message := Message l;
                             Source := Source l; Host := Host l;
                             Service := Service l; Raw := Raw l;
                             Fields := Some (next h);
                             Tags := Some {| arr := S (next h); first := 0%nat;
                                             len := length ts |} |}]>
                 (<[S (next h) := OStrings (replicate (length ts) EmptyString)]>
                    (<[next h := OMap ∅]> (cells h))))).
Proof.
  intros Hl Hm Hts. unfold Clone. rewrite Hl, Hm, Hts. cbn [alloc next cells].
  match goal with
  | |- context [map_fold ?f ?h3 m] =>
      destruct (range_assign (next h) m h3) as [Hc Hn]
  end.
  { cbn [cells]. rewrite lookup_insert_ne by lia.
    rewrite lookup_insert_ne by lia. apply lookup_insert_eq. }
  eexists. split; [reflexivity|]. unfold store. cbn [next cells].
  rewrite Hn, Hc. done.
Qed.

(** The part of C7 that holds: [Clone] leaves every object of the heap as
    it was, and assigning to a scalar field of the clone, to a key of its
    [Fields] or to one of its [Tags] writes only to the objects [Clone] has
    made -- the original, its map and its tags are not written. *)
Theorem clone_top_level_is_separate (p c : nat) (h h1 : heap) :
  Clone p h = Some (c, h1) ->
  same_below (next h) h h1
  /\ (forall k v h2, AddField c k v h1 = Some h2 -> same_below (next h) h h2)
  /\ (forall s h2, set_Message c s h1 = Some h2 -> same_below (next h) h h2)
  /\ (forall i s h2, set_Tag c i s h1 = Some h2 -> same_below (next h) h h2).
Proof.
  intros HC.
  assert (Hinv : exists l m ts, entry_at h p = Some l
            /\ fields_of h (Fields l) = Some m /\ tags_of h (Tags l) = Some ts).
  { unfold Clone in HC. destruct (entry_at h p) as [l|] eqn:El; [|discriminate].
    destruct (fields_of h (Fields l)) as [m|] eqn:Em; [|discriminate].
    destruct (tags_of h (Tags l)) as [ts|] eqn:Et; [|discriminate].
    exists l, m, ts. done. }
  destruct Hinv as (l & m & ts & Hl & Hm & Hts).
  destruct (Clone_result p h l m ts Hl Hm Hts) as (h' & HC' & Hn & Hc).
  rewrite HC in HC'. inversion HC'; subst c h'. clear HC'.
  assert (Hframe : same_below (next h) h h1).
  { intros a Ha. rewrite Hc. by rewrite !lookup_insert_ne by lia. }
  assert (Hentry : cells h1 !! S (S (next h))
            = Some (OEntry {| ID := ID l; Timestamp := Timestamp l;
                              Level := Level l; Message := Message l;
                              Source := Source l; Host := Host l;
                              Service := Service l; Raw := Raw l;
                              Fields := Some (next h);
                              Tags := Some {| arr := S (next h); first := 0%nat;
                                              len := length ts |} |})).
  { rewrite Hc. rewrite !lookup_insert_ne by lia. apply lookup_insert_eq. }
  split; [exact Hframe|]. split; [|split].
  - intros k v h2 H2 a Ha. unfold AddField, entry_at in H2. rewrite Hentry in H2.
    cbn in H2. unfold map_assign in H2.
    destruct (cells h1 !! next h) as [[| mm | |]|]; try discriminate.
    inversion H2; subst h2. cbn. rewrite lookup_insert_ne by lia. by apply Hframe.
  - intros s h2 H2 a Ha. unfold set_Message, entry_at in H2. rewrite Hentry in H2.
    inversion H2; subst h2. cbn. rewrite lookup_insert_ne by lia. by apply Hframe.
  - intros i s h2 H2 a Ha. unfold set_Tag, entry_at in H2. rewrite Hentry in H2.
    cbn [Tags arr first len] in H2.
    destruct (cells h1 !! S (next h)) as [[| | | ss]|]; try discriminate.
    destruct (i <? length ts)%nat; [|discriminate].
    inversion H2; subst h2. cbn. rewrite lookup_insert_ne by lia. by apply Hframe.
Qed.

(** An entry with a tag, a string field and a field that holds a nested
    map, [{"user": "bob", "request": {"status": 200}}]. *)
Definition original : LogEntry :=
  {| ID := "id-1"; Timestamp := 63839700000 * Go.Second; Level := "INFO";
     Message := "request served"; Source := "file"; Host := "web-1";
     Service := "api"; Fields := Some 1%nat;
     Tags := Some {| arr := 2%nat; first := 0%nat; len := 1%nat |};
     Raw := "request served" |}.

Definition heap0 : heap :=
  {| cells := {[ 0%nat := OMap {[ "status"%string := VNum 200 ]};
                 1%nat := OMap {[ "user"%string := VStr "bob";
                                  "request"%string := VMap 0 ]};
                 2%nat := OStrings ["prod"%string];
                 3%nat := OEntry original ]};
     next := 4%nat |}.

(** C7 at the failing input: the clone's [Fields] is a new map, but the
    value under "request" is the same map object as the original's.
    Assigning a key of the clone's own map leaves the original alone;
    assigning inside the nested map through the clone changes what the
    original reads. *)
Lemma C7_nested_map_is_shared_with_the_clone :
  exists c h1 h2 h3,
    Clone 3 heap0 = Some (c, h1)
    /\ c <> 3%nat
    /\ GetField c "request" h1 = GetField 3 "request" h1
    /\ AddField c "user" (VStr "eve") h1 = Some h2
    /\ GetField 3 "user" h2 = Some (VStr "bob")
    /\ nested_map_index 3 "request" "status" h1 = Some (VNum 200)
    /\ nested_map_assign c "request" "status" (VNum 500) h1 = Some h3
    /\ nested_map_index 3 "request" "status" h3 = Some (VNum 500).
Proof.
  do 4 eexists.
  split; [vm_compute; reflexivity|].
  split; [discriminate|].
  split; [vm_compute; reflexivity|].
  split; [vm_compute; reflexivity|].
  split; [vm_compute; reflexivity|].
  split; [vm_compute; reflexivity|].
  split; vm_compute; reflexivity.
Qed.

Lemma clone_top_level_witness :
  same_below 4 heap0 (default heap0 (snd <$> Clone 3 heap0)).
Proof.
  destruct (Clone 3 heap0) as [[c h1]|] eqn:E; [|vm_compute in E; discriminate].
  destruct (clone_top_level_is_separate 3 c heap0 h1 E) as [H _].
  exact H.
Defined.

End CloneProps.

(** ** The tailer's reader and the identity of the file *)

Module TailerProps.

Import Tailer.












End TailerProps.

(** ** Strings as byte sequences *)

Section StringFacts.

Lemma append_nil_l (s : string) : ("" +:+ s)%string = s.
Proof. reflexivity. Qed.

Lemma append_cons (c : Ascii.ascii) (a b : string) :
  (String c a +:+ b)%string = String c (a +:+ b)%string.
Proof. reflexivity. Qed.

Lemma append_nil_r (s : string) : (s +:+ "")%string = s.
Proof.
  induction s as [|c s IH]; [done|]. by rewrite append_cons, IH.
Qed.

Lemma append_assoc (a b c : string) :
  ((a +:+ b) +:+ c)%string = (a +:+ (b +:+ c))%string.
Proof.
  induction a as [|x a IH]; [done|]. by rewrite !append_cons, IH.
Qed.

Lemma length_append (a b : string) :
  String.length (a +:+ b) = (String.length a + String.length b)%nat.
Proof.
  induction a as [|c a IH]; [done|]. rewrite append_cons. cbn. by rewrite IH.
Qed.

Lemma substring_all (s : string) : String.substring 0 (String.length s) s = s.
Proof. induction s as [|c s IH]; cbn; [done | by rewrite IH]. Qed.

Lemma substring_append_l (a b : string) :
  String.substring 0 (String.length a) (a +:+ b) = a.
Proof.
  induction a as [|c a IH]; [by destruct b|].
  rewrite append_cons. cbn. by rewrite IH.
Qed.

Lemma substring_append_r (a b : string) (n : nat) :
  String.substring (String.length a) n (a +:+ b) = String.substring 0 n b.
Proof.
  induction a as [|c a IH]; [done|]. rewrite append_cons. cbn. exact IH.
Qed.

Lemma substring_split (n : nat) (s : string) :
  (n <= String.length s)%nat ->
  s = (String.substring 0 n s +:+ String.substring n (String.length s - n) s)%string.
Proof.
  revert s. induction n as [|n IH]; intros s Hn.
  - rewrite Nat.sub_0_r, substring_all.
    assert (H0 : String.substring 0 0 s = ""%string) by (by destruct s).
    by rewrite H0.
  - destruct s as [|c s]; [cbn in Hn; lia|].
    cbn [String.substring String.length Nat.sub]. rewrite append_cons.
    f_equal. apply IH. cbn in Hn. lia.
Qed.

Lemma prefix_iff (sub s : string) :
  String.prefix sub s = true <-> exists post, s = (sub +:+ post)%string.
Proof.
  revert s. induction sub as [|c sub IH]; intros s.
  - split; [intros _; by exists s | by destruct s].
  - destruct s as [|d s]; cbn.
    + split; [done | intros [post H]; discriminate].
    + destruct (Ascii.ascii_dec c d) as [->|Hne].
      * rewrite IH. split; intros [post H]; exists post.
        -- by rewrite append_cons, H.
        -- rewrite append_cons in H. by inversion H.
      * split; [done|]. intros [post H]. rewrite append_cons in H.
        inversion H. done.
Qed.

Lemma prefix_append (sub post : string) : String.prefix sub (sub +:+ post) = true.
Proof. apply prefix_iff. by exists post. Qed.

End StringFacts.

(** ** The query engine: validation, sorting, pagination, cache size *)

Module EngineProps.

Import Models QueryEngine.

(** [a] may stand before [b] in the order asked for. *)
Definition in_order (ascending : bool) (a b : LogEntry) : Prop :=
  if ascending then Timestamp a <= Timestamp b else Timestamp b <= Timestamp a.

(** Every pair of hits stands in the order asked for. *)
Definition ordered (ascending : bool) (hits : list LogEntry) : Prop :=
  forall (i j : nat) (a b : LogEntry),
    (i < j)%nat -> hits !! i = Some a -> hits !! j = Some b ->
    in_order ascending a b.

(** The first [i] positions hold their final hits: each of them may stand
    before everything that follows it. *)
Definition settled (ascending : bool) (i : nat) (hits : list LogEntry) : Prop :=
  forall (p q : nat) (a b : LogEntry),
    (p < q)%nat -> (p < i)%nat -> hits !! p = Some a -> hits !! q = Some b ->
    in_order ascending a b.

Lemma in_order_trans (asc : bool) (a b c : LogEntry) :
  in_order asc a b -> in_order asc b c -> in_order asc a c.
Proof. unfold in_order. destruct asc; lia. Qed.

(** The inner loop of pass [i], run over [j = i+1 .. i+m]. *)
Lemma inner_loop_spec (asc : bool) (i m : nat) (l : list LogEntry) :
  (S i + m <= length l)%nat ->
  let l' := foldl (sort_inner asc i) l (seq (S i) m) in
  l' ≡ₚ l /\ take i l' = take i l
  /\ exists a', l' !! i = Some a'
       /\ forall (k : nat) (b : LogEntry),
            (i < k < S i + m)%nat -> l' !! k = Some b -> in_order asc a' b.
Proof.
  intros Hlen. induction m as [|m IH]; cbn zeta.
  - cbn. split; [done|]. split; [done|].
    destruct (lookup_lt_is_Some_2 l i) as [a Ha]; [lia|].
    exists a. split; [done|]. intros k b Hk. lia.
  - rewrite seq_S, foldl_app. cbn [foldl].
    destruct IH as (Hperm & Htake & a1 & Ha1 & Hmin); [lia|].
    set (l1 := foldl (sort_inner asc i) l (seq (S i) m)) in *.
    assert (Hl1 : length l1 = length l) by (by apply Permutation_length).
    destruct (lookup_lt_is_Some_2 l1 (S i + m)) as [b Hb]; [lia|].
    unfold sort_inner. rewrite Ha1, Hb.
    destruct (if asc then Go.After (Timestamp a1) (Timestamp b)
              else Go.Before (Timestamp a1) (Timestamp b)) eqn:Hswap.
    + assert (Hba : in_order asc b a1).
      { unfold in_order, Go.After, Go.Before in *.
        destruct asc; apply Z.ltb_lt in Hswap; lia. }
      unfold swap_hits. rewrite Ha1, Hb.
      split; [|split].
      * rewrite <- Hperm. by apply Permutation_insert_swap.
      * rewrite !take_insert_ge by lia. done.
      * exists b. split.
        { apply list_lookup_insert_eq. rewrite length_insert. lia. }
        intros k c Hk Hc.
        destruct (decide (k = (S i + m)%nat)) as [->|Hne].
        { rewrite list_lookup_insert_ne in Hc by lia.
          rewrite list_lookup_insert_eq in Hc by lia.
          by inversion Hc; subst. }
        rewrite !list_lookup_insert_ne in Hc by lia.
        apply (in_order_trans asc b a1 c); [done|].
        apply (Hmin k); [lia | done].
    + split; [done|]. split; [done|].
      exists a1. split; [done|]. intros k c Hk Hc.
      destruct (decide (k = (S i + m)%nat)) as [->|Hne].
      * rewrite Hb in Hc. inversion Hc; subst.
        unfold in_order, Go.After, Go.Before in *.
        destruct asc; apply Z.ltb_ge in Hswap; lia.
      * apply (Hmin k); [lia | done].
Qed.

(** The passes [i = 0 .. m-1] of the outer loop on a list of length [n]. *)
Lemma outer_loop_spec (asc : bool) (m : nat) (l : list LogEntry) :
  (m = 0 \/ m < length l)%nat ->
  let n := length l in
  let l' :=
    foldl (fun hits i => foldl (sort_inner asc i) hits (seq (S i) (n - S i)))
          l (seq 0 m) in
  l' ≡ₚ l /\ settled asc m l'.
Proof.
  intros Hm n. induction m as [|m IH]; cbn zeta.
  - cbn. split; [done|]. intros p q a b _ Hp. lia.
  - rewrite seq_S, foldl_app. cbn [foldl Nat.add].
    destruct IH as (Hperm & Hset); [lia|].
    set (l1 := foldl _ l (seq 0 m)) in *.
    assert (Hl1 : length l1 = n) by (by apply Permutation_length).
    destruct (inner_loop_spec asc m (n - S m) l1)
      as (Hperm2 & Htake & a' & Ha' & Hmin); [lia|].
    set (l2 := foldl _ l1 (seq (S m) _)) in *.
    split; [by rewrite Hperm2|].
    assert (Hdrop : drop m l2 ≡ₚ drop m l1).
    { apply (Permutation_app_inv_l (take m l1)).
      rewrite <- Htake at 1. rewrite !take_drop. done. }
    intros p q a b Hpq Hp Ha Hb.
    assert (Hq : (q < n)%nat).
    { apply lookup_lt_Some in Hb. apply Permutation_length in Hperm2. lia. }
    destruct (decide (p = m)) as [->|Hpm].
    + rewrite Ha' in Ha. inversion Ha; subst.
      apply (Hmin q); [lia | done].
    + assert (Ha1 : l1 !! p = Some a).
      { rewrite <- (lookup_take_lt l1 m p), <- Htake, lookup_take_lt by lia.
        done. }
      destruct (decide (q < m)%nat) as [Hqm|Hqm].
      * apply (Hset p q); [lia | lia | done |].
        rewrite <- (lookup_take_lt l1 m q), <- Htake, lookup_take_lt by lia.
        done.
      * assert (Hin : b ∈ drop m l1).
        { rewrite <- Hdrop. apply list_elem_of_lookup. exists (q - m)%nat.
          rewrite lookup_drop. replace (m + (q - m))%nat with q by lia. done. }
        apply list_elem_of_lookup in Hin as [q' Hq'].
        rewrite lookup_drop in Hq'.
        apply (Hset p (m + q')%nat); [lia | lia | done | done].
Qed.

Lemma ordered_take_drop (asc : bool) (k s : nat) (l : list LogEntry) :
  ordered asc l -> ordered asc (take k (drop s l)).
Proof.
  intros Hl i j a b Hij Ha Hb.
  apply lookup_take_Some in Ha as [Ha _]. apply lookup_take_Some in Hb as [Hb _].
  rewrite lookup_drop in Ha, Hb.
  apply (Hl (s + i)%nat (s + j)%nat); [lia | done | done].
Qed.

Lemma sortResults_spec (res : SearchResult) (q : SearchQuery) :
  SortBy q = "timestamp"%string ->
  Hits (sortResults res q) ≡ₚ Hits res
  /\ ordered (String.eqb (SortOrder q) "asc") (Hits (sortResults res q)).
Proof.
  intros Hby. unfold sortResults. rewrite Hby, String.eqb_refl. cbn [Hits].
  set (asc := String.eqb (SortOrder q) "asc").
  destruct (outer_loop_spec asc (length (Hits res) - 1) (Hits res))
    as (Hperm & Hset); [lia|].
  cbn zeta in Hperm, Hset. split; [done|].
  intros i j a b Hij Ha Hb.
  apply (Hset i j); [done | | done | done].
  apply lookup_lt_Some in Hb. apply Permutation_length in Hperm. lia.
Qed.

Lemma paginateResults_spec (res : SearchResult) (q : SearchQuery) :
  0 <= Offset q -> 0 <= Limit q -> Offset q + Limit q <= Go.int64_max ->
  Hits (paginateResults res q)
  = take (Z.to_nat (Limit q)) (drop (Z.to_nat (Offset q)) (Hits res)).
Proof.
  intros Ho Hl Hsum. unfold paginateResults.
  assert (Hmin : Go.int64_min < 0) by (unfold Go.int64_min; lia).
  destruct (Z.of_nat (length (Hits res)) <=? Offset q) eqn:E1.
  - apply Z.leb_le in E1. cbn [Hits].
    rewrite drop_ge by lia. by rewrite take_nil.
  - apply Z.leb_gt in E1. cbn [Hits].
    rewrite wrap64_id by lia.
    destruct (Z.of_nat (length (Hits res)) <? Offset q + Limit q) eqn:E2.
    + apply Z.ltb_lt in E2.
      rewrite (take_ge _ (Z.to_nat (Limit q))) by (rewrite length_drop; lia).
      apply take_ge. rewrite length_drop. lia.
    + f_equal. lia.
Qed.

Lemma validateQuery_spec (q : SearchQuery) :
  let v := validateQuery q in
  (1 <= Limit v <= 10000) /\ 0 <= Offset v
  /\ SortBy v <> ""%string /\ SortOrder v <> ""%string
  /\ (1 <= Limit q <= 10000 -> Limit v = Limit q)
  /\ (0 <= Offset q -> Offset v = Offset q)
  /\ (SortBy q <> ""%string -> SortBy v = SortBy q)
  /\ (SortOrder q <> ""%string -> SortOrder v = SortOrder q)
  /\ Query v = Query q /\ Range v = Range q /\ Filters v = Filters q
  /\ Projection v = Projection q
  /\ validateQuery v = v.
Proof.
  destruct q as [qs rg fl lim off sb so pr]. unfold validateQuery. cbn.
  assert (Hlim : 1 <= (if 10000 <? (if lim <=? 0 then 100 else lim) then 10000
                       else if lim <=? 0 then 100 else lim) <= 10000).
  { destruct (lim <=? 0) eqn:E1.
    - cbn. lia.
    - apply Z.leb_gt in E1. destruct (10000 <? lim) eqn:E2; [lia|].
      apply Z.ltb_ge in E2. lia. }
  assert (Hsb : (if String.eqb sb "" then "timestamp"%string else sb) <> ""%string).
  { destruct (String.eqb sb "") eqn:E; [done|]. by apply String.eqb_neq in E. }
  assert (Hso : (if String.eqb so "" then "desc"%string else so) <> ""%string).
  { destruct (String.eqb so "") eqn:E; [done|]. by apply String.eqb_neq in E. }
  assert (Hoff : 0 <= (if off <? 0 then 0 else off)).
  { destruct (off <? 0) eqn:E; [lia|]. apply Z.ltb_ge in E. lia. }
  repeat split; try done; try lia.
  - intros [H1 H2]. destruct (lim <=? 0) eqn:E1; [apply Z.leb_le in E1; lia|].
    destruct (10000 <? lim) eqn:E2; [apply Z.ltb_lt in E2; lia|]. done.
  - intros H. destruct (off <? 0) eqn:E; [apply Z.ltb_lt in E; lia | done].
  - intros H. apply String.eqb_neq in H. by rewrite H.
  - intros H. apply String.eqb_neq in H. by rewrite H.
  - set (lim' := if 10000 <? _ then _ else _) in *.
    set (off' := if off <? 0 then 0 else off) in *.
    set (sb' := if String.eqb sb "" then _ else sb) in *.
    set (so' := if String.eqb so "" then _ else so) in *.
    apply String.eqb_neq in Hsb, Hso. rewrite Hsb, Hso.
    destruct (lim' <=? 0) eqn:E1; [apply Z.leb_le in E1; lia|].
    destruct (10000 <? lim') eqn:E2; [apply Z.ltb_lt in E2; lia|].
    destruct (off' <? 0) eqn:E3; [apply Z.ltb_lt in E3; lia|]. done.
Qed.

(** X6: when the sort field is "timestamp", [sortResults] rearranges the
    hits without adding or losing any, and leaves them ordered by timestamp:
    oldest first when the sort order is "asc", newest first for every other
    sort order; the other members of the result are untouched.  For any
    other sort field the result is left as it is. *)
Theorem sortResults_orders_by_timestamp (res : SearchResult) (q : SearchQuery) :
  let sorted := sortResults res q in
  (SortBy q = "timestamp"%string ->
     Hits sorted ≡ₚ Hits res
     /\ (forall (i j : nat) (a b : LogEntry),
           (i < j)%nat -> Hits sorted !! i = Some a -> Hits sorted !! j = Some b ->
           if String.eqb (SortOrder q) "asc"
           then Timestamp a <= Timestamp b else Timestamp b <= Timestamp a)
     /\ Total sorted = Total res /\ Took sorted = Took res
     /\ TimedOut sorted = TimedOut res)
  /\ (SortBy q <> "timestamp"%string -> sorted = res).
Proof.
  cbn zeta. split.
  - intros Hby. destruct (sortResults_spec res q Hby) as [Hperm Hord].
    split; [done|]. split; [exact Hord|].
    unfold sortResults. by rewrite Hby, String.eqb_refl.
  - intros Hby. unfold sortResults. apply String.eqb_neq in Hby.
    by rewrite Hby.
Qed.

(** What happens to the engine between two inspections of its cache. *)
Inductive operation :=
  | OpQuery (store : Store) (now_get now_set : Z) (q : SearchQuery)
  | OpClearCache.

Definition run_operation (e : Engine) (o : operation) : Engine :=
  match o with
  | OpQuery store now_get now_set q => (Engine_Query store now_get now_set q e).2
  | OpClearCache => ClearCache e
  end.

Lemma cache_set_size (c : queryCache) (key : string) (r : nat) (now : Z) :
  Z.of_nat (size (entries c)) <= Z.max 1 (maxSize c) ->
  Z.of_nat (size (entries (cache_set c key r now))) <= Z.max 1 (maxSize c)
  /\ maxSize (cache_set c key r now) = maxSize c.
Proof.
  intros H. unfold cache_set. cbn [entries maxSize]. split; [|done].
  destruct (maxSize c <=? Z.of_nat (size (entries c))) eqn:E.
  - rewrite insert_empty, map_size_singleton. lia.
  - apply Z.leb_gt in E. rewrite map_size_insert.
    destruct (entries c !! key); unfold id; lia.
Qed.

(** X7: the result cache never holds more than [CacheSize] entries (one
    entry when [CacheSize] is below 1), whatever queries are served and
    whenever the cache is cleared: a result stored in a full cache replaces
    all the others. *)
Theorem cache_never_exceeds_its_size (cfg : Config) (ops : list operation) :
  let e := foldl run_operation (NewEngine cfg) ops in
  Z.of_nat (size (entries (cache e))) <= Z.max 1 (CacheSize cfg)
  /\ maxSize (cache e) = CacheSize cfg.
Proof.
  cbn zeta. induction ops as [|o ops IH] using rev_ind.
  - cbn. rewrite map_size_empty. split; [lia | done].
  - rewrite foldl_app. cbn [foldl].
    set (e := foldl run_operation (NewEngine cfg) ops) in *.
    destruct IH as [IH1 IH2].
    destruct o as [store now_get now_set q|]; cbn [run_operation].
    + unfold Engine_Query.
      destruct (cache_get _ _ _); [done|].
      destruct (store _); [|done]. cbn [snd cache].
      destruct (cache_set_size (cache e) (queryCacheKey (validateQuery q))
                  (next e) now_set) as [H1 H2]; [by rewrite IH2|].
      rewrite H2, <- IH2. done.
    + cbn. rewrite map_size_empty. split; [lia | done].
Qed.

(** X8: when [Engine.Query] does not answer from its cache and the store
    answers, the result it returns and caches is a page of the store's hits:
    at most [Limit] of them after validation, hence never more than 10000,
    all taken from the store's hits, and, when the sort field is
    "timestamp" (the default), ordered by timestamp, newest first unless
    the sort order is "asc".  An error of the store is passed on and leaves
    the engine as it was. *)
Theorem query_returns_sorted_page (store : Store) (now_get now_set : Z)
    (q : SearchQuery) (e : Engine) :
  Offset q <= Go.int64_max - 10000 ->
  cache_get (cache e) (queryCacheKey (validateQuery q)) now_get = None ->
  let v := validateQuery q in
  match store v with
  | None => Engine_Query store now_get now_set q e = (None, e)
  | Some found =>
      exists (r : nat) (e' : Engine) (page : SearchResult),
        Engine_Query store now_get now_set q e = (Some r, e')
        /\ results e' !! r = Some page
        /\ (0 <= ttl (cache e) ->
            cache_get (cache e') (queryCacheKey v) now_set = Some r)
        /\ Z.of_nat (length (Hits page)) <= Limit v <= 10000
        /\ (forall a, a ∈ Hits page -> a ∈ Hits found)
        /\ (SortBy v = "timestamp"%string ->
            forall (i j : nat) (a b : LogEntry),
              (i < j)%nat -> Hits page !! i = Some a -> Hits page !! j = Some b ->
              if String.eqb (SortOrder v) "asc"
              then Timestamp a <= Timestamp b else Timestamp b <= Timestamp a)
  end.
Proof.
  intros Hoff Hmiss v.
  destruct (validateQuery_spec q) as (Hlim & Ho & _ & _ & _ & _ & _ & _ & _).
  fold v in Hlim, Ho.
  assert (Hov : Offset v <= Go.int64_max - 10000).
  { subst v. unfold validateQuery. cbn [Offset].
    destruct (Offset q <? 0); [unfold Go.int64_max|]; lia. }
  unfold Engine_Query. cbn zeta. rewrite Hmiss. fold v.
  destruct (store v) as [found|]; [|done].
  eexists _, _, _. split; [reflexivity|]. cbn [results cache].
  split; [apply lookup_insert_eq|].
  split.
  { intros Httl. unfold cache_get, cache_set. cbn [entries ttl].
    rewrite lookup_insert_eq. cbn [timestamp result]. unfold Go.Since.
    rewrite Sub_small by (unfold Go.int64_min, Go.int64_max; lia).
    rewrite Z.sub_diag.
    destruct (ttl (cache e) <? 0) eqn:E; [apply Z.ltb_lt in E; lia | done]. }
  rewrite paginateResults_spec by lia.
  split; [rewrite length_take; lia|].
  split.
  - intros a Ha. apply elem_of_take in Ha as (i & Ha & _).
    rewrite lookup_drop in Ha. apply list_elem_of_lookup_2 in Ha.
    destruct (decide (SortBy v = "timestamp"%string)) as [Hby|Hby].
    + by rewrite <- (proj1 (sortResults_spec found v Hby)).
    + unfold sortResults in Ha. apply String.eqb_neq in Hby.
      by rewrite Hby in Ha.
  - intros Hby. apply (ordered_take_drop _ _ _ _ (proj2 (sortResults_spec found v Hby))).
Qed.

Definition hit (i : string) (t : Z) : LogEntry :=
  {| ID := i; Timestamp := t; Level := LogLevelInfo; Message := "started";
     Source := "file"; Host := "web-1"; Service := "api"; Fields := [];
     Tags := []; Raw := "started" |}.

(** A store that answers every query with the same three hits. *)
Definition shelf : Store :=
  fun _ => Some {| Hits := [hit "a" 20; hit "b" 40; hit "c" 30]; Total := 3;
                   Took := 1; TimedOut := false |}.

Definition first_two : SearchQuery :=
  {| Query := "started"; Range := {| Start := 0; End_ := 100 |}; Filters := [];
     Limit := 2; Offset := 0; SortBy := ""; SortOrder := ""; Projection := [] |}.

Lemma query_page_witness :
  exists (r : nat) (e' : Engine) (page : SearchResult),
    Engine_Query shelf 100 101 first_two (NewEngine DefaultConfig) = (Some r, e')
    /\ results e' !! r = Some page
    /\ Z.of_nat (length (Hits page)) <= 2
    /\ Hits page = [hit "b" 40; hit "c" 30].
Proof.
  assert (H := query_returns_sorted_page shelf 100 101 first_two
                 (NewEngine DefaultConfig)).
  cbn zeta in H. change (shelf (validateQuery first_two)) with (shelf first_two) in H.
  cbv beta delta [shelf] in H.
  destruct H as (r & e' & page & H1 & H2 & _ & H4 & _).
  - vm_compute. discriminate.
  - vm_compute. reflexivity.
  - exists r, e', page. split; [exact H1|]. split; [exact H2|].
    split; [exact (proj1 H4)|].
    vm_compute in H1. inversion H1; subst r e'. vm_compute in H2.
    inversion H2. reflexivity.
Defined.

End EngineProps.

(** ** The file store: text match, scan, batches, statistics, retention *)

Module StoreMoreProps.

Import Models Storage StoreQuery.

(** *** [contains], [toLower], [containsIgnoreCase] *)

Lemma contains_loop_iff (n : nat) (s sub : string) :
  contains_loop n s sub = true
  <-> exists pre post, (String.length pre <= n)%nat
                       /\ s = (pre +:+ sub +:+ post)%string.
Proof.
  revert s. induction n as [|n IH]; intros s.
  - cbn [contains_loop]. destruct (String.prefix sub s) eqn:E.
    + apply prefix_iff in E as [post ->]. split; [intros _|done].
      exists ""%string, post. split; [cbn; lia | done].
    + split; [done|]. intros (pre & post & Hlen & ->).
      destruct pre; [|cbn in Hlen; lia]. rewrite append_nil_l in E.
      by rewrite prefix_append in E.
  - cbn [contains_loop]. destruct (String.prefix sub s) eqn:E.
    + apply prefix_iff in E as [post ->]. split; [intros _|done].
      exists ""%string, post. split; [cbn; lia | done].
    + destruct s as [|c s].
      * split; [done|]. intros (pre & post & _ & H).
        destruct pre; [|discriminate]. rewrite append_nil_l in H.
        rewrite H in E. by rewrite prefix_append in E.
      * rewrite IH. split.
        -- intros (pre & post & Hlen & ->). exists (String c pre), post.
           split; [cbn; lia | done].
        -- intros (pre & post & Hlen & H). destruct pre as [|d pre].
           ++ rewrite append_nil_l in H. rewrite H in E.
              by rewrite prefix_append in E.
           ++ rewrite append_cons in H. inversion H; subst. exists pre, post.
              split; [cbn in Hlen; lia | done].
Qed.

Lemma contains_iff (s sub : string) :
  contains s sub = true <-> exists pre post, s = (pre +:+ sub +:+ post)%string.
Proof.
  unfold contains. destruct (String.length sub =? 0)%nat eqn:E0.
  - apply Nat.eqb_eq in E0. destruct sub; [|done].
    split; [intros _|done]. by exists ""%string, s.
  - destruct (String.length s <? String.length sub)%nat eqn:E1.
    + apply Nat.ltb_lt in E1. split; [done|]. intros (pre & post & ->).
      rewrite !length_append in E1. lia.
    + apply Nat.ltb_ge in E1. rewrite contains_loop_iff.
      split; intros (pre & post & H).
      * destruct H as [_ ->]. by exists pre, post.
      * exists pre, post. split; [|done]. subst s.
        rewrite !length_append. lia.
Qed.

Lemma lower_byte_idem (c : Ascii.ascii) : lower_byte (lower_byte c) = lower_byte c.
Proof.
  unfold lower_byte.
  destruct ((65 <=? Ascii.N_of_ascii c) && (Ascii.N_of_ascii c <=? 90))%N eqn:E;
    [|by rewrite E].
  apply andb_prop in E as [E1 E2].
  apply N.leb_le in E1, E2.
  rewrite Ascii.N_ascii_embedding by lia.
  destruct ((65 <=? Ascii.N_of_ascii c + 32) && (Ascii.N_of_ascii c + 32 <=? 90))%N eqn:E3;
    [|done].
  apply andb_prop in E3 as [_ E3]. apply N.leb_le in E3. lia.
Qed.

Lemma toLower_idem (s : string) : toLower (toLower s) = toLower s.
Proof.
  induction s as [|c s IH]; cbn; [done|]. by rewrite lower_byte_idem, IH.
Qed.

Lemma toLower_length (s : string) : String.length (toLower s) = String.length s.
Proof. induction s as [|c s IH]; cbn; [done | by rewrite IH]. Qed.

(** X9: the text match of the partition scan.  [contains] holds exactly
    when the pattern occurs in the text as a run of consecutive bytes
    (always, for the empty pattern); [toLower] keeps the length and changes
    nothing when applied again; [containsIgnoreCase] is that test on the
    lowered text and pattern, so it gives the same answer whatever the
    letter case of either argument. *)
Theorem containsIgnoreCase_is_substring_test (s sub : string) :
  (contains s sub = true
   <-> exists pre post, s = (pre +:+ sub +:+ post)%string)
  /\ (containsIgnoreCase s sub = true
      <-> exists pre post, toLower s = (pre +:+ toLower sub +:+ post)%string)
  /\ String.length (toLower s) = String.length s
  /\ toLower (toLower s) = toLower s
  /\ containsIgnoreCase (toLower s) sub = containsIgnoreCase s sub
  /\ containsIgnoreCase s (toLower sub) = containsIgnoreCase s sub
  /\ containsIgnoreCase s "" = true.
Proof.
  split; [apply contains_iff|]. split; [apply contains_iff|].
  split; [apply toLower_length|]. split; [apply toLower_idem|].
  unfold containsIgnoreCase. rewrite !toLower_idem.
  split; [done|]. split; [done|]. apply contains_iff. by exists ""%string, (toLower s).
Qed.

(** *** The scan of [Query] *)

(** The test [readPartition] applies to a decoded entry. *)
Definition passes (q : SearchQuery) (e : LogEntry) : Prop :=
  Contains (Range q) (Timestamp e) = true
  /\ (Query q = ""%string \/ containsIgnoreCase (Message e) (Query q) = true).

Lemma gob_Decode_value (known : bool) (stream : list gobMessage)
    (e : LogEntry) (known' : bool) (rest : list gobMessage) :
  gob_Decode known stream = Some (e, known', rest) ->
  GobValue e ∈ stream /\ (forall m, m ∈ rest -> m ∈ stream).
Proof.
  revert known. induction stream as [|m stream IH]; intros known H; [done|].
  cbn in H. destruct m as [|e0].
  - destruct known; [done|]. destruct (IH _ H) as [H1 H2].
    split; [by right | intros m Hm; right; by apply H2].
  - destruct known; [|done]. inversion H; subst.
    split; [by left | intros m Hm; by right].
Qed.

Lemma read_loop_sound (q : SearchQuery) (fuel : nat) (known : bool)
    (stream : list gobMessage) (acc : list LogEntry) (e : LogEntry) :
  e ∈ read_loop q fuel known stream acc ->
  e ∈ acc \/ (GobValue e ∈ stream /\ passes q e).
Proof.
  revert known stream acc. induction fuel as [|fuel IH]; intros known stream acc H.
  - by left.
  - cbn [read_loop] in H.
    destruct (gob_Decode known stream) as [[[e0 known'] rest]|] eqn:Ed; [|by left].
    destruct (gob_Decode_value _ _ _ _ _ Ed) as [Hin Hrest].
    destruct (Contains (Range q) (Timestamp e0)) eqn:EC; cbn [negb] in H.
    + destruct (negb (String.eqb (Query q) "")
                && negb (containsIgnoreCase (Message e0) (Query q))) eqn:EQ.
      * destruct (IH _ _ _ H) as [Ha|[Hs Hp]]; [by left|].
        right. split; [by apply Hrest | done].
      * destruct (IH _ _ _ H) as [Ha|[Hs Hp]].
        -- apply elem_of_app in Ha as [Ha|Ha]; [by left|].
           apply list_elem_of_singleton in Ha. subst e0.
           right. split; [done|]. split; [done|].
           apply andb_false_iff in EQ as [EQ|EQ].
           ++ apply negb_false_iff, String.eqb_eq in EQ. by left.
           ++ apply negb_false_iff in EQ. by right.
        -- right. split; [by apply Hrest | done].
    + destruct (IH _ _ _ H) as [Ha|[Hs Hp]]; [by left|].
      right. split; [by apply Hrest | done].
Qed.

(** An entry of the result lies in the file of one of the partitions
    scanned. *)
Definition stored_in (fs : FileStore) (parts : list partition) (e : LogEntry) : Prop :=
  exists part content,
    part ∈ parts /\ disk fs !! path part = Some content /\ GobValue e ∈ content.

Lemma query_loop_sound (q : SearchQuery) (fs : FileStore)
    (parts : list partition) (acc hits : list LogEntry) :
  query_loop q fs parts acc = Some hits ->
  (Z.of_nat (length hits) <= Limit q \/ hits = acc)
  /\ forall e, e ∈ hits -> e ∈ acc \/ (passes q e /\ stored_in fs parts e).
Proof.
  revert acc. induction parts as [|part rest IH]; intros acc H.
  - cbn in H. inversion H; subst. split; [by right | by left].
  - cbn [query_loop] in H.
    assert (Hstep : forall e,
              e ∈ acc \/ (passes q e /\ stored_in fs rest e) ->
              e ∈ acc \/ (passes q e /\ stored_in fs (part :: rest) e)).
    { intros e [He|[Hp (p & c & Hin & Hd & Hv)]]; [by left|].
      right. split; [done|]. exists p, c. split; [by right | done]. }
    destruct (readPartition part q fs) as [err|entries] eqn:Er.
    + destruct (IH acc H) as [H1 H2]. split; [done|].
      intros e He. apply Hstep, H2, He.
    + assert (Hentries : forall e, e ∈ acc ++ entries ->
                e ∈ acc \/ (passes q e /\ stored_in fs (part :: rest) e)).
      { intros e He. apply elem_of_app in He as [He|He]; [by left|].
        unfold readPartition in Er.
        destruct (disk fs !! path part) as [content|] eqn:Ed; [|done].
        assert (Heq : entries = read_loop q (S (length content)) false content [])
          by congruence.
        rewrite Heq in He.
        apply read_loop_sound in He as [He|[Hv Hp]]; [by apply elem_of_nil in He|].
        right. split; [done|]. exists part, content. split; [by left | done]. }
      cbn zeta in H.
      destruct (Limit q <=? Z.of_nat (length (acc ++ entries))) eqn:El.
      * destruct (Limit q <? 0) eqn:En; [done|]. apply Z.ltb_ge in En.
        inversion H; subst hits. split.
        -- left. rewrite length_take. lia.
        -- intros e He. apply Hentries.
           apply elem_of_take in He as (i & He & _).
           by apply list_elem_of_lookup_2 in He.
      * apply Z.leb_gt in El.
        destruct (IH _ H) as [H1 H2]. split.
        -- left. destruct H1 as [H1| ->]; lia.
        -- intros e He. destruct (H2 e He) as [Ha|Hb].
           ++ by apply Hentries.
           ++ apply Hstep. by right.
Qed.

Lemma query_loop_total (q : SearchQuery) (fs : FileStore)
    (parts : list partition) (acc : list LogEntry) :
  0 <= Limit q -> is_Some (query_loop q fs parts acc).
Proof.
  intros Hl. revert acc. induction parts as [|part rest IH]; intros acc; [done|].
  cbn [query_loop]. destruct (readPartition part q fs); [apply IH|].
  cbn zeta. destruct (Limit q <=? _); [|apply IH].
  destruct (Limit q <? 0) eqn:E; [apply Z.ltb_lt in E; lia | done].
Qed.

Lemma FileStore_Query_sound (order : list string) (took : Z)
    (q : SearchQuery) (fs : FileStore) :
  0 <= Limit q ->
  exists res,
    FileStore_Query order took q fs = Some res
    /\ Z.of_nat (length (Hits res)) <= Limit q
    /\ Total res = Z.of_nat (length (Hits res))
    /\ forall e, e ∈ Hits res ->
         passes q e
         /\ exists part content,
              part ∈ findPartitions order (Range q) fs
              /\ overlaps (Range q) part = true
              /\ disk fs !! path part = Some content
              /\ GobValue e ∈ content.
Proof.
  intros Hl. unfold FileStore_Query.
  destruct (query_loop_total q fs (findPartitions order (Range q) fs) [] Hl)
    as [hits Hq].
  rewrite Hq. eexists. split; [reflexivity|]. cbn [Hits Total].
  destruct (query_loop_sound q fs _ _ _ Hq) as [H1 H2].
  split; [destruct H1 as [H1| ->]; [lia | cbn; lia]|].
  split; [done|].
  intros e He. destruct (H2 e He) as [Ha|[Hp (part & content & Hin & Hd & Hv)]];
    [by apply elem_of_nil in Ha|].
  split; [done|]. exists part, content. split; [done|]. split; [|done].
  unfold findPartitions in Hin. by apply list_elem_of_filter in Hin as [Hin _].
Qed.


(** Sample data: a platform, an instant, a store with one entry. *)

Definition gob_platform : Platform :=
  {| type_def_size := 340;
     value_size := fun e => 64 + Z.of_nat (String.length (Message e));
     encodable := fun e => negb (String.eqb (Message e) "unencodable");
     format_hour := fun t => pretty (t / Go.Hour);
     filepath_Base := fun p => p |}.

Definition midday : Z := 63839700000 * Go.Second.

Definition log_line (i : string) (t : Z) (msg : string) : LogEntry :=
  {| ID := i; Timestamp := t; Level := LogLevelInfo; Message := msg;
     Source := "file"; Host := "web-1"; Service := "api"; Fields := [];
     Tags := []; Raw := msg |}.

Definition around_midday : SearchQuery :=
  {| Query := ""; Range := {| Start := midday - Go.Hour; End_ := midday + Go.Hour |};
     Filters := []; Limit := 100; Offset := 0; SortBy := "timestamp";
     SortOrder := "desc"; Projection := [] |}.

Definition day_one : FileStore :=
  (Write gob_platform (log_line "id-1" midday "started")
     (NewFileStore gob_platform DefaultConfig [] ∅)).2.

(** X10: [FileStore.Query] with a limit that is not negative returns a
    result, whatever the order in which the partition table is visited;
    it holds at most [Limit] hits, [Total] is their number (not the number
    of matches in the store), and every hit is an entry stored in the file
    of a partition that overlaps the time range, lies in the time range (ends
    included) and, when the query string is not empty, carries it in its
    message, letter case apart. *)
Theorem file_store_query_is_sound (order : list string) (took : Z)
    (q : SearchQuery) (fs : FileStore) :
  0 <= Limit q ->
  exists res,
    FileStore_Query order took q fs = Some res
    /\ Z.of_nat (length (Hits res)) <= Limit q
    /\ Total res = Z.of_nat (length (Hits res))
    /\ forall e, e ∈ Hits res ->
         passes q e
         /\ exists part content,
              part ∈ findPartitions order (Range q) fs
              /\ overlaps (Range q) part = true
              /\ disk fs !! path part = Some content
              /\ GobValue e ∈ content.
Proof. apply FileStore_Query_sound. Qed.

Lemma file_store_query_witness :
  exists res,
    FileStore_Query ["17733240"%string] 3 around_midday day_one = Some res
    /\ Z.of_nat (length (Hits res)) <= 100
    /\ Total res = Z.of_nat (length (Hits res)).
Proof.
  destruct (file_store_query_is_sound ["17733240"%string] 3 around_midday day_one)
    as (res & H1 & H2 & H3 & _).
  - cbn. lia.
  - exists res. split; [exact H1|]. split; [exact H2 | exact H3].
Defined.

(** *** What a restart leaves of the store *)

Lemma loadPartitions_keeps_keys (pf : Platform) (files : list string)
    (fs : FileStore) (k : string) :
  is_Some (partitions fs !! k) ->
  is_Some (partitions (loadPartitions pf files fs) !! k).
Proof.
  revert fs. induction files as [|file rest IH]; intros fs H; [done|].
  cbn [loadPartitions]. apply IH. cbn [partitions].
  destruct (decide (filepath_Base pf file = k)) as [->|Hne].
  - by rewrite lookup_insert_eq.
  - by rewrite lookup_insert_ne.
Qed.

Lemma loadPartitions_spec (pf : Platform) (files : list string) (fs : FileStore) :
  let fs' := loadPartitions pf files fs in
  index fs' = index fs /\ stats fs' = stats fs /\ config fs' = config fs
  /\ (forall k part,
        partitions fs' !! k = Some part ->
        partitions fs !! k = Some part
        \/ (startTime part = 0 /\ endTime part = 0 /\ path part ∈ files
            /\ k = filepath_Base pf (path part)))
  /\ (forall f, f ∈ files ->
        NoDup (filepath_Base pf <$> files) ->
        exists part, partitions fs' !! filepath_Base pf f = Some part
                     /\ path part = f /\ endTime part = 0).
Proof.
  revert fs. induction files as [|file rest IH]; intros fs; cbn zeta.
  - cbn. repeat split; try done.
    + intros k part H. by left.
    + intros f Hf. by apply elem_of_nil in Hf.
  - cbn [loadPartitions].
    set (fs1 := {| config := config fs; partitions := _; stats := stats fs;
                   index := index fs; disk := _ |}).
    destruct (IH fs1) as (Hi & Hs & Hc & Hp & Hl).
    split; [done|]. split; [done|]. split; [done|]. split.
    + intros k part H. destruct (Hp k part H) as [H1|(H1 & H2 & H3 & H4)].
      * subst fs1. cbn [partitions] in H1.
        destruct (decide (filepath_Base pf file = k)) as [<-|Hne].
        -- rewrite lookup_insert_eq in H1. inversion H1; subst part. cbn.
           right. repeat split; try done. by left.
        -- rewrite lookup_insert_ne in H1 by done. by left.
      * right. repeat split; try done. by right.
    + intros f Hf Hnd. rewrite fmap_cons in Hnd. apply NoDup_cons in Hnd as [Hn1 Hnd].
      apply elem_of_cons in Hf as [->|Hf]; [|by apply Hl].
      destruct (loadPartitions_keeps_keys pf rest fs1 (filepath_Base pf file))
        as [part E].
      { subst fs1. cbn [partitions]. by rewrite lookup_insert_eq. }
      destruct (Hp _ _ E) as [H1|(H1 & H2 & H3 & H4)].
      * subst fs1. cbn [partitions] in H1. rewrite lookup_insert_eq in H1.
        inversion H1; subst part. eexists. split; [exact E|]. done.
      * exfalso. apply Hn1. rewrite H4.
        apply list_elem_of_fmap. by exists (path part).
Qed.

Lemma Delete_partitions (before : Z) (fs : FileStore) (k : string) (part : partition) :
  partitions (Delete before fs) !! k = Some part
  <-> partitions fs !! k = Some part /\ expired before part = false.
Proof. unfold Delete. cbn [partitions]. by rewrite map_lookup_filter_Some. Qed.

Lemma Delete_disk (before : Z) (fs : FileStore) :
  (forall k part, partitions fs !! k = Some part -> expired before part = true ->
                  disk (Delete before fs) !! path part = None)
  /\ (forall f, (forall k part, partitions fs !! k = Some part ->
                                expired before part = true -> path part <> f) ->
                disk (Delete before fs) !! f = disk fs !! f).
Proof.
  unfold Delete. cbn [disk].
  apply (map_fold_weak_ind
           (fun d m =>
              (forall k part, m !! k = Some part -> expired before part = true ->
                              d !! path part = None)
              /\ (forall f, (forall k part, m !! k = Some part ->
                                            expired before part = true ->
                                            path part <> f) ->
                            d !! f = disk fs !! f))).
  - split; [intros k part H; by rewrite lookup_empty in H | done].
  - intros i x m r Hi [IH1 IH2]. split.
    + intros k part Hk He. destruct (decide (i = k)) as [->|Hne].
      * rewrite lookup_insert_eq in Hk. inversion Hk; subst x.
        rewrite He. apply lookup_delete_eq.
      * rewrite lookup_insert_ne in Hk by done.
        destruct (expired before x); [|by apply (IH1 k)].
        apply lookup_delete_None. right. by apply (IH1 k).
    + intros f Hf.
      assert (Hm : forall k part, m !! k = Some part ->
                     expired before part = true -> path part <> f).
      { intros k part Hk. apply (Hf k).
        rewrite lookup_insert_ne; [done|]. intros ->. congruence. }
      destruct (expired before x) eqn:Ex; [|by apply IH2].
      rewrite lookup_delete_ne; [by apply IH2|].
      apply (Hf i); [apply lookup_insert_eq | done].
Qed.

(** X11: what a restart leaves.  A store opened over existing partition
    files has an empty index and zero statistics, and the partitions it
    loads carry the zero time as start and end: [Get] finds no entry,
    whatever was written before, and [Query] finds no hit for any time range
    that does not start before the zero time, whatever the files hold and
    in whatever order the table is visited. *)
Theorem restart_hides_stored_entries (pf : Platform) (cfg : Config)
    (files : list string) (d : gmap string (list gobMessage))
    (i : string) (order : list string) (took : Z) (q : SearchQuery) :
  0 <= Start (Range q) ->
  let fs := NewFileStore pf cfg files d in
  Get pf i fs = inl ErrNotFound
  /\ FileStore_Query order took q fs
     = Some {| Hits := []; Total := 0; Took := took; TimedOut := false |}
  /\ TotalEntries (Stats fs) = 0.
Proof.
  intros Hstart fs.
  destruct (loadPartitions_spec pf files
              {| config := cfg; partitions := ∅;
                 stats := {| TotalEntries := 0; TotalSize := 0; OldestEntry := 0;
                             NewestEntry := 0 |};
                 index := ∅; disk := d |}) as (Hi & Hs & Hc & Hp & _).
  fold (NewFileStore pf cfg files d) in Hi, Hs, Hc, Hp. fold fs in Hi, Hs, Hc, Hp.
  cbn [index stats partitions] in Hi, Hs, Hp.
  split; [|split].
  - unfold Get. by rewrite Hi, lookup_empty.
  - unfold FileStore_Query.
    assert (Hnone : findPartitions order (Range q) fs = []).
    { unfold findPartitions. apply elem_of_nil_inv. intros part Hin.
      apply list_elem_of_filter in Hin as [Hov Hin].
      apply list_elem_of_omap in Hin as (k & _ & Hk).
      destruct (Hp k part Hk) as [H|(_ & He & _)];
        [by rewrite lookup_empty in H|].
      unfold overlaps, Go.After in Hov. rewrite He in Hov.
      destruct (Start (Range q) <? 0) eqn:E; [apply Z.ltb_lt in E; lia|].
      by rewrite andb_false_r in Hov. }
    by rewrite Hnone.
  - unfold Stats. by rewrite Hs.
Qed.

(** A platform for the examples: message sizes, every entry but those with
    the message "unencodable" can be encoded, hours since the zero time as
    the partition key. *)
Definition old_file : string := "/data/partition_17733240.gob".

Definition old_disk : gmap string (list gobMessage) :=
  {[ old_file := [GobTypeDef; GobValue (log_line "id-1" midday "started")] ]}.

Lemma restart_witness :
  Get gob_platform "id-1" (NewFileStore gob_platform DefaultConfig [old_file] old_disk)
  = inl ErrNotFound
  /\ FileStore_Query [old_file] 2 around_midday
       (NewFileStore gob_platform DefaultConfig [old_file] old_disk)
     = Some {| Hits := []; Total := 0; Took := 2; TimedOut := false |}.
Proof.
  destruct (restart_hides_stored_entries gob_platform DefaultConfig [old_file]
              old_disk "id-1" [old_file] 2 around_midday) as (H1 & H2 & _).
  - vm_compute. discriminate.
  - split; [exact H1 | exact H2].
Defined.

(** *** Retention *)

(** X12: [Delete] takes the partitions that end before the given instant
    out of the table and removes their files, keeps every other partition,
    and leaves the index and the statistics as they were: an entry indexed
    in a removed file is still counted and still found in the index, and
    [Get] for it fails on opening the file instead of reporting that the
    entry does not exist. *)
Theorem delete_keeps_index_and_statistics (pf : Platform) (before : Z)
    (fs : FileStore) (i k : string) (idx : indexEntry) (part : partition) :
  index fs !! i = Some idx ->
  partitions fs !! k = Some part ->
  expired before part = true ->
  path part = ixPartition idx ->
  let fs' := Delete before fs in
  partitions fs' !! k = None
  /\ disk fs' !! path part = None
  /\ (forall k' part', partitions fs !! k' = Some part' ->
        expired before part' = false -> partitions fs' !! k' = Some part')
  /\ index fs' !! i = Some idx
  /\ Stats fs' = Stats fs
  /\ Get pf i fs' = inl ErrOpen.
Proof.
  intros Hi Hk He Hp fs'.
  destruct (Delete_disk before fs) as [Hd _].
  specialize (Hd k part Hk He). fold fs' in Hd.
  split; [|split; [done|split; [|split; [done|split; [done|]]]]].
  - destruct (partitions fs' !! k) as [part'|] eqn:E; [|done].
    apply Delete_partitions in E as [E1 E2]. congruence.
  - intros k' part' Hk' He'. by apply Delete_partitions.
  - unfold Get. change (index fs') with (index fs). rewrite Hi, <- Hp, Hd. done.
Qed.

Lemma delete_witness :
  Get gob_platform "id-1" day_one = inr (log_line "id-1" midday "started")
  /\ Get gob_platform "id-1" (Delete (midday + 48 * Go.Hour) day_one) = inl ErrOpen
  /\ TotalEntries (Stats (Delete (midday + 48 * Go.Hour) day_one)) = 1.
Proof.
  split; [vm_compute; reflexivity|].
  destruct (delete_keeps_index_and_statistics gob_platform
              (midday + 48 * Go.Hour) day_one "id-1" "17733240"
              {| id := "id-1";
                 ixPartition := "/var/lib/logpipeline/data/partition_17733240.gob";
                 offset := 0; timestamp := midday |}
              {| path := "/var/lib/logpipeline/data/partition_17733240.gob";
                 startTime := 17733240 * Go.Hour;
                 endTime := 17733264 * Go.Hour;
                 encoder_sent := true; count := 1 |})
    as (_ & _ & _ & _ & H5 & H6).
  - vm_compute. reflexivity.
  - vm_compute. reflexivity.
  - vm_compute. reflexivity.
  - reflexivity.
  - split; [exact H6 | rewrite H5; vm_compute; reflexivity].
Defined.

(** X13: the partitions loaded at start-up end at the zero time, so the
    first [Delete] for any instant after the zero time removes every one of
    them together with its file, however recent the entries in it are. *)
Theorem delete_after_restart_removes_every_file (pf : Platform) (cfg : Config)
    (files : list string) (d : gmap string (list gobMessage)) (before : Z) :
  0 < before ->
  NoDup (filepath_Base pf <$> files) ->
  let fs := Delete before (NewFileStore pf cfg files d) in
  partitions fs = ∅ /\ forall f, f ∈ files -> disk fs !! f = None.
Proof.
  intros Hb Hnd fs.
  destruct (loadPartitions_spec pf files
              {| config := cfg; partitions := ∅;
                 stats := {| TotalEntries := 0; TotalSize := 0; OldestEntry := 0;
                             NewestEntry := 0 |};
                 index := ∅; disk := d |}) as (_ & _ & _ & Hp & Hl).
  fold (NewFileStore pf cfg files d) in Hp, Hl. cbn [partitions] in Hp.
  assert (Hexp : forall part, endTime part = 0 -> expired before part = true).
  { intros part H. unfold expired, Go.Before. rewrite H. by apply Z.ltb_lt. }
  split.
  - apply map_empty. intros k.
    destruct (partitions fs !! k) as [part|] eqn:E; [|done].
    apply Delete_partitions in E as [E1 E2].
    destruct (Hp k part E1) as [H|(_ & He & _)]; [by rewrite lookup_empty in H|].
    rewrite (Hexp part He) in E2. done.
  - intros f Hf. destruct (Hl f Hf Hnd) as (part & Hk & Hpath & He).
    destruct (Delete_disk before (NewFileStore pf cfg files d)) as [Hd _].
    rewrite <- Hpath. apply (Hd _ part Hk). by apply Hexp.
Qed.

Lemma delete_after_restart_witness :
  disk (Delete (midday - 720 * Go.Hour)
          (NewFileStore gob_platform DefaultConfig [old_file] old_disk)) !! old_file
  = None.
Proof.
  destruct (delete_after_restart_removes_every_file gob_platform DefaultConfig
              [old_file] old_disk (midday - 720 * Go.Hour)) as [_ H].
  - vm_compute. reflexivity.
  - apply NoDup_singleton.
  - apply H. by left.
Defined.

(** *** Batches and statistics *)

Lemma Write_encodable (pf : Platform) (e : LogEntry) (fs : FileStore) :
  encodable pf e = true ->
  (Write pf e fs).1 = None
  /\ (exists ix, index (Write pf e fs).2 = <[ID e := ix]> (index fs)
                 /\ timestamp ix = Timestamp e)
  /\ stats (Write pf e fs).2
     = {| TotalEntries := Go.wrapu64 (TotalEntries (stats fs) + 1);
          TotalSize := TotalSize (stats fs);
          OldestEntry :=
            if Go.IsZero (OldestEntry (stats fs))
               || Go.Before (Timestamp e) (OldestEntry (stats fs))
            then Timestamp e else OldestEntry (stats fs);
          NewestEntry :=
            if Go.After (Timestamp e) (NewestEntry (stats fs))
            then Timestamp e else NewestEntry (stats fs) |}.
Proof.
  intros He. unfold Write, getPartition.
  destruct (partitions fs !! _) as [part|]; unfold gob_Encode; rewrite He;
    cbn [negb fst snd index stats]; (split; [done|]); (split; [|done]);
    eexists; (split; [reflexivity|]); done.
Qed.

Lemma Write_not_encodable (pf : Platform) (e : LogEntry) (fs : FileStore) :
  encodable pf e = false ->
  (Write pf e fs).1 = Some ErrEncode
  /\ index (Write pf e fs).2 = index fs
  /\ stats (Write pf e fs).2 = stats fs.
Proof.
  intros He. unfold Write, getPartition.
  destruct (partitions fs !! _) as [part|]; unfold gob_Encode; rewrite He;
    cbn [negb fst snd index stats]; done.
Qed.

(** The update of [OldestEntry] by one write. *)
Definition oldest_step (o t : Z) : Z :=
  if Go.IsZero o || Go.Before t o then t else o.

Lemma WriteBatch_encodable (pf : Platform) (es : list LogEntry) (fs : FileStore) :
  Forall (fun e => encodable pf e = true) es ->
  (WriteBatch pf es fs).1 = None
  /\ (forall i, is_Some (index (WriteBatch pf es fs).2 !! i)
                <-> is_Some (index fs !! i) \/ i ∈ ID <$> es)
  /\ Go.wrapu64 (TotalEntries (stats (WriteBatch pf es fs).2))
     = Go.wrapu64 (TotalEntries (stats fs) + Z.of_nat (length es))
  /\ (es <> [] -> 0 <= TotalEntries (stats (WriteBatch pf es fs).2) < 2 ^ 64)
  /\ NewestEntry (stats (WriteBatch pf es fs).2)
     = foldl Z.max (NewestEntry (stats fs)) (Timestamp <$> es)
  /\ OldestEntry (stats (WriteBatch pf es fs).2)
     = foldl oldest_step (OldestEntry (stats fs)) (Timestamp <$> es).
Proof.
  revert fs. induction es as [|e es IH]; intros fs Hall.
  - cbn. split; [done|]. split.
    { intros i. split; [by left | intros [H|H]; [done | by apply elem_of_nil in H]]. }
    split; [by rewrite Z.add_0_r|]. done.
  - apply Forall_cons in Hall as [He Hall]. cbn [WriteBatch].
    destruct (Write_encodable pf e fs He) as (Hw & (ix & Hix & _) & Hst).
    destruct (Write pf e fs) as [err fs1]. cbn [fst snd] in *. subst err.
    destruct (IH fs1 Hall) as (H1 & H2 & H3 & H4 & H5 & H6).
    split; [done|]. split; [|split; [|split; [|split]]].
    + intros i. rewrite H2, Hix, lookup_insert_is_Some, fmap_cons, elem_of_cons.
      destruct (decide (ID e = i)) as [->|Hne]; [tauto|].
      split; [intros [[?|[_ ?]]|?]; tauto | intros [?|[?|?]]; try tauto].
      congruence.
    + rewrite H3, Hst. cbn [TotalEntries length]. unfold Go.wrapu64.
      rewrite Zplus_mod_idemp_l. f_equal. lia.
    + intros _. destruct es as [|e' es'].
      * cbn. rewrite Hst. cbn [TotalEntries]. unfold Go.wrapu64.
        apply Z.mod_pos_bound. lia.
      * by apply H4.
    + rewrite H5, Hst. cbn [NewestEntry fmap list_fmap foldl]. f_equal.
      unfold Go.After. destruct (NewestEntry (stats fs) <? Timestamp e) eqn:E.
      * apply Z.ltb_lt in E. lia.
      * apply Z.ltb_ge in E. lia.
    + rewrite H6, Hst. done.
Qed.

(** X14: [WriteBatch] is not atomic.  It writes the entries in order and
    stops at the first one that cannot be encoded: the call reports the
    error, the entries before the failing one stay written, indexed and
    counted exactly as if the batch had ended there, and the failing entry
    and the entries after it are neither indexed nor counted. *)
Theorem write_batch_stops_at_first_error (pf : Platform)
    (pre post : list LogEntry) (bad : LogEntry) (fs : FileStore) :
  Forall (fun e => encodable pf e = true) pre ->
  encodable pf bad = false ->
  let written := (WriteBatch pf pre fs).2 in
  let result := WriteBatch pf (pre ++ bad :: post) fs in
  (WriteBatch pf pre fs).1 = None
  /\ result.1 = Some ErrEncode
  /\ index result.2 = index written
  /\ Stats result.2 = Stats written
  /\ (forall i, is_Some (index result.2 !! i)
                <-> is_Some (index fs !! i) \/ i ∈ ID <$> pre).
Proof.
  intros Hpre Hbad. cbn zeta.
  assert (Happ : forall fs0,
            WriteBatch pf (pre ++ bad :: post) fs0
            = (Some ErrEncode, (Write pf bad (WriteBatch pf pre fs0).2).2)).
  { clear fs. induction pre as [|e pre IH]; intros fs0.
    - cbn [app WriteBatch snd].
      destruct (Write_not_encodable pf bad fs0 Hbad) as (Hw & _).
      destruct (Write pf bad fs0) as [err fs1]. cbn in Hw. by subst err.
    - apply Forall_cons in Hpre as [He Hpre]. cbn [app WriteBatch].
      destruct (Write_encodable pf e fs0 He) as (Hw & _).
      destruct (Write pf e fs0) as [err fs1]. cbn in Hw. subst err.
      by apply IH. }
  rewrite Happ. cbn [fst snd].
  destruct (WriteBatch_encodable pf pre fs Hpre) as (H1 & H2 & _).
  destruct (Write_not_encodable pf bad (WriteBatch pf pre fs).2 Hbad)
    as (_ & Hi & Hs).
  split; [done|]. split; [done|]. split; [done|]. split; [done|].
  intros i. by rewrite Hi.
Qed.

Lemma write_batch_witness :
  (WriteBatch gob_platform
     [log_line "id-1" midday "started"; log_line "id-2" midday "unencodable";
      log_line "id-3" midday "stopped"]
     (NewFileStore gob_platform DefaultConfig [] ∅)).1 = Some ErrEncode
  /\ Stats (WriteBatch gob_platform
              [log_line "id-1" midday "started"; log_line "id-2" midday "unencodable";
               log_line "id-3" midday "stopped"]
              (NewFileStore gob_platform DefaultConfig [] ∅)).2
     = Stats (WriteBatch gob_platform [log_line "id-1" midday "started"]
                (NewFileStore gob_platform DefaultConfig [] ∅)).2.
Proof.
  destruct (write_batch_stops_at_first_error gob_platform
              [log_line "id-1" midday "started"]
              [log_line "id-3" midday "stopped"]
              (log_line "id-2" midday "unencodable")
              (NewFileStore gob_platform DefaultConfig [] ∅))
    as (_ & H2 & _ & H4 & _).
  - repeat constructor.
  - reflexivity.
  - split; [exact H2 | exact H4].
Defined.

Lemma newest_fold (n : Z) (ts : list Z) :
  let m := foldl Z.max n ts in
  n <= m /\ (forall t, t ∈ ts -> t <= m) /\ (m = n \/ m ∈ ts).
Proof.
  revert n. induction ts as [|t ts IH]; intros n; cbn zeta.
  - cbn. split; [lia|]. split; [|by left]. intros t H. by apply elem_of_nil in H.
  - cbn [foldl]. destruct (IH (Z.max n t)) as (H1 & H2 & H3).
    split; [lia|]. split.
    + intros t' Ht'. apply elem_of_cons in Ht' as [->|Ht']; [lia | by apply H2].
    + destruct H3 as [H3|H3]; [|right; by right]. rewrite H3.
      destruct (Z.max_spec n t) as [[_ Hm]|[_ Hm]]; rewrite Hm;
        [right; by left | by left].
Qed.

Lemma oldest_fold (o : Z) (ts : list Z) :
  0 < o -> Forall (fun t => 0 < t) ts ->
  let m := foldl oldest_step o ts in
  0 < m <= o /\ (forall t, t ∈ ts -> m <= t) /\ (m = o \/ m ∈ ts).
Proof.
  revert o. induction ts as [|t ts IH]; intros o Ho Hts; cbn zeta.
  - cbn. split; [lia|]. split; [|by left]. intros t H. by apply elem_of_nil in H.
  - apply Forall_cons in Hts as [Ht Hts]. cbn [foldl].
    assert (Hstep : oldest_step o t = Z.min o t).
    { unfold oldest_step, Go.IsZero, Go.Before.
      destruct (o =? 0) eqn:E0; [apply Z.eqb_eq in E0; lia|]. cbn [orb].
      destruct (t <? o) eqn:E1; [apply Z.ltb_lt in E1 | apply Z.ltb_ge in E1]; lia. }
    rewrite Hstep. destruct (IH (Z.min o t)) as (H1 & H2 & H3); [lia | done |].
    split; [lia|]. split.
    + intros t' Ht'. apply elem_of_cons in Ht' as [->|Ht']; [lia | by apply H2].
    + destruct H3 as [H3|H3]; [|right; by right]. rewrite H3.
      destruct (Z.min_spec o t) as [[_ Hm]|[_ Hm]]; rewrite Hm;
        [by left | right; by left].
Qed.

(** X15: the statistics of a store that starts without entries.  After a
    batch of encodable entries with non-zero timestamps has been written,
    [TotalEntries] has grown by the number of entries (modulo 2^64),
    [OldestEntry] is the smallest and [NewestEntry] the largest timestamp
    written. *)
Theorem statistics_track_oldest_and_newest (pf : Platform)
    (es : list LogEntry) (fs : FileStore) :
  Forall (fun e => encodable pf e = true) es ->
  Forall (fun e => 0 < Timestamp e) es ->
  es <> [] ->
  OldestEntry (stats fs) = 0 ->
  NewestEntry (stats fs) = 0 ->
  let s := Stats (WriteBatch pf es fs).2 in
  (WriteBatch pf es fs).1 = None
  /\ TotalEntries s = Go.wrapu64 (TotalEntries (stats fs) + Z.of_nat (length es))
  /\ (forall e, e ∈ es -> OldestEntry s <= Timestamp e <= NewestEntry s)
  /\ (exists e, e ∈ es /\ OldestEntry s = Timestamp e)
  /\ (exists e, e ∈ es /\ NewestEntry s = Timestamp e).
Proof.
  intros Henc Hpos Hne Ho Hn. cbn zeta. unfold Stats.
  destruct (WriteBatch_encodable pf es fs Henc) as (H1 & _ & H3 & H4 & H5 & H6).
  split; [done|]. split.
  { rewrite <- H3. unfold Go.wrapu64. symmetry. apply Z.mod_small. by apply H4. }
  rewrite H5, H6, Ho, Hn.
  assert (Hts : Forall (fun t => 0 < t) (Timestamp <$> es)).
  { apply Forall_fmap. eapply Forall_impl; [exact Hpos|]. done. }
  destruct (newest_fold 0 (Timestamp <$> es)) as (N1 & N2 & N3).
  destruct es as [|e es]; [done|].
  rewrite fmap_cons in *. apply Forall_cons in Hts as [Ht Hts].
  cbn [foldl] in *.
  assert (Hfirst : oldest_step 0 (Timestamp e) = Timestamp e) by done.
  rewrite Hfirst.
  destruct (oldest_fold (Timestamp e) (Timestamp <$> es) Ht Hts) as (O1 & O2 & O3).
  split; [|split].
  - intros e' He'. split.
    + apply elem_of_cons in He' as [->|He']; [lia|].
      apply O2. by apply list_elem_of_fmap_2.
    + apply N2. rewrite <- fmap_cons. by apply list_elem_of_fmap_2.
  - destruct O3 as [O3|O3].
    + exists e. split; [by left | done].
    + apply list_elem_of_fmap in O3 as (e' & Heq & Hin).
      exists e'. split; [by right | done].
  - destruct N3 as [N3|N3].
    + assert (Timestamp e <= foldl Z.max (0 `max` Timestamp e) (Timestamp <$> es))
        by (apply N2; by left).
      lia.
    + rewrite <- fmap_cons in N3.
      apply list_elem_of_fmap in N3 as (e' & Heq & Hin).
      exists e'. split; [done | done].
Qed.

Lemma statistics_witness :
  let s := Stats (WriteBatch gob_platform
                    [log_line "id-1" (midday + 5) "b"; log_line "id-2" midday "a";
                     log_line "id-3" (midday + 9) "c"]
                    (NewFileStore gob_platform DefaultConfig [] ∅)).2 in
  TotalEntries s = 3
  /\ OldestEntry s <= midday <= NewestEntry s.
Proof.
  cbn zeta.
  destruct (statistics_track_oldest_and_newest gob_platform
              [log_line "id-1" (midday + 5) "b"; log_line "id-2" midday "a";
               log_line "id-3" (midday + 9) "c"]
              (NewFileStore gob_platform DefaultConfig [] ∅))
    as (_ & H2 & H3 & _).
  - repeat constructor.
  - repeat constructor.
  - done.
  - reflexivity.
  - reflexivity.
  - split; [rewrite H2; reflexivity|].
    apply (H3 (log_line "id-2" midday "a")). right. by left.
Defined.

End StoreMoreProps.

(** ** Aggregations *)

Module AggregationProps.

Import Models QueryEngine Aggregation.

(** The counting loop both aggregations run: [key e] is the bucket of [e],
    or [None] when the entry is skipped. *)
Definition tally (key : LogEntry -> option string) (counts : gmap string Z)
    (entries : list LogEntry) : gmap string Z :=
  foldl (fun counts e => match key e with
                         | Some k => bump k counts
                         | None => counts
                         end) counts entries.

(** Number of entries that fall into bucket [k]. *)
Definition members (key : LogEntry -> option string) (k : string)
    (entries : list LogEntry) : nat :=
  length (filter (fun e => key e = Some k) entries).

Lemma members_cons (key : LogEntry -> option string) (k : string) (e : LogEntry)
    (entries : list LogEntry) :
  members key k (e :: entries)
  = if decide (key e = Some k) then S (members key k entries)
    else members key k entries.
Proof. unfold members. rewrite filter_cons. by destruct (decide _). Qed.

Lemma members_le (key : LogEntry -> option string) (k : string)
    (entries : list LogEntry) :
  (members key k entries <= length entries)%nat.
Proof. unfold members. apply length_filter. Qed.

Lemma tally_lookup (key : LogEntry -> option string) (entries : list LogEntry)
    (counts : gmap string Z) (k : string) :
  tally key counts entries !! k
  = match members key k entries with
    | O => counts !! k
    | S n => Some (Nat.iter (S n) Go.incr (default 0 (counts !! k)))
    end.
Proof.
  revert counts. induction entries as [|e entries IH]; intros counts; [done|].
  unfold tally in *. cbn [foldl]. rewrite IH, members_cons.
  destruct (decide (key e = Some k)) as [Hk|Hk].
  - rewrite Hk. unfold bump. rewrite lookup_insert_eq. cbn [default].
    destruct (members key k entries) as [|n]; [done|].
    f_equal. unfold id. by rewrite (Nat.iter_succ_r (S n)).
  - destruct (key e) as [k'|]; [|done].
    assert (k' <> k) by congruence.
    unfold bump. by rewrite lookup_insert_ne.
Qed.

Lemma iter_incr (n : nat) :
  Z.of_nat n <= Go.int64_max -> Nat.iter n Go.incr 0 = Z.of_nat n.
Proof.
  induction n as [|n IH]; intros Hn; [done|].
  rewrite Nat.iter_succ, IH by lia. rewrite incr_small; [lia|].
  unfold Go.int64_min. lia.
Qed.

Lemma tally_count (key : LogEntry -> option string) (entries : list LogEntry)
    (k : string) :
  Z.of_nat (length entries) <= Go.int64_max ->
  tally key ∅ entries !! k
  = if decide (members key k entries = 0%nat) then None
    else Some (Z.of_nat (members key k entries)).
Proof.
  intros Hlen. rewrite tally_lookup, lookup_empty. cbn [default].
  pose proof (members_le key k entries).
  destruct (members key k entries) as [|n] eqn:E; [done|].
  rewrite decide_False by done. f_equal. apply iter_incr. lia.
Qed.

(** X16: the buckets of the two aggregations.  In [termsAggregation] the
    count under a key is the number of entries whose value for the field is
    that key, entries without a value (or with the empty string as value)
    are left out, and no bucket is empty.  In [dateHistogram] the count
    under a key is the number of entries whose timestamp, rounded down to
    the interval, formats to that key, so every entry is counted once; an
    interval other than "minute", "hour" or "day" means an hour. *)
Theorem aggregation_buckets_count_entries (Sprint : FieldValue -> string)
    (RFC3339 : Z -> string) (entries : list LogEntry) (field key : string) :
  Z.of_nat (length entries) <= Go.int64_max ->
  let terms := length (filter (fun e => terms_value Sprint field e = key) entries) in
  let dated :=
    length (filter (fun e => RFC3339 (Go.Truncate (Timestamp e)
                                        (interval_duration field)) = key)
                   entries) in
  termsAggregation Sprint entries field !! key
  = (if decide (key = ""%string \/ terms = 0%nat) then None
     else Some (Z.of_nat terms))
  /\ dateHistogram RFC3339 entries field !! key
     = (if decide (dated = 0%nat) then None else Some (Z.of_nat dated))
  /\ (field <> "minute"%string -> field <> "day"%string ->
      interval_duration field = Go.Hour).
Proof.
  intros Hlen terms dated. split; [|split].
  - set (classify := fun e =>
           if String.eqb (terms_value Sprint field e) "" then None
           else Some (terms_value Sprint field e)).
    assert (Hsame : termsAggregation Sprint entries field = tally classify ∅ entries).
    { unfold termsAggregation, tally. generalize (∅ : gmap string Z).
      induction entries as [|e entries IH]; intros c; [done|].
      cbn [foldl]. rewrite IH by (cbn in Hlen; lia). f_equal.
      unfold classify. by destruct (String.eqb _ _). }
    rewrite Hsame, tally_count by done.
    destruct (decide (key = ""%string)) as [->|Hkey].
    + rewrite (decide_True (P := _ \/ _)) by (by left).
      rewrite decide_True; [done|].
      unfold members. apply length_zero_iff_nil, elem_of_nil_inv.
      intros e He. apply list_elem_of_filter in He as [He _].
      unfold classify in He.
      destruct (String.eqb_spec (terms_value Sprint field e) ""); congruence.
    + assert (Hmem : members classify key entries = terms).
      { unfold members, terms. f_equal. apply list_filter_iff. intros e.
        unfold classify.
        destruct (String.eqb_spec (terms_value Sprint field e) "") as [He|He].
        - split; [done | congruence].
        - split; congruence. }
      rewrite Hmem. destruct (decide (terms = 0%nat)) as [H0|H0].
      * by rewrite decide_True by (by right).
      * by rewrite decide_False by tauto.
  - set (bucket := fun e =>
           Some (RFC3339 (Go.Truncate (Timestamp e) (interval_duration field)))).
    assert (Hsame : dateHistogram RFC3339 entries field = tally bucket ∅ entries)
      by done.
    rewrite Hsame, tally_count by done.
    assert (Hmem : members bucket key entries = dated).
    { unfold members, dated. f_equal. apply list_filter_iff. intros e.
      unfold bucket. split; congruence. }
    by rewrite Hmem.
  - intros Hm Hd. unfold interval_duration.
    apply String.eqb_neq in Hm, Hd. rewrite Hm, Hd.
    by destruct (String.eqb field "hour").
Qed.

Definition event (lvl : LogLevel) (t : Z) : LogEntry :=
  {| ID := ""; Timestamp := t; Level := lvl; Message := ""; Source := "";
     Host := ""; Service := ""; Fields := []; Tags := []; Raw := "" |}.

Lemma aggregation_witness :
  termsAggregation (fun _ => ""%string)
    [event LogLevelError 10; event LogLevelInfo 20; event LogLevelError 30]
    "level" !! "ERROR"%string = Some 2.
Proof.
  destruct (aggregation_buckets_count_entries (fun _ => ""%string) (fun t => pretty t)
              [event LogLevelError 10; event LogLevelInfo 20; event LogLevelError 30]
              "level" "ERROR") as [H _].
  - vm_compute. discriminate.
  - exact H.
Defined.

Import Storage StoreQuery.

(** X17: [Engine.Aggregate] hands the query to the store as it is.  Over
    the file store, with a limit that is not negative, every aggregation
    works on at most [Limit] hits: "count" returns the number of hits the
    store returned, never more than [Limit] (so 0 for a query whose limit
    was left at 0), "terms" and "date_histogram" bucket exactly those
    hits, and any other aggregation type is refused. *)
Theorem aggregate_sees_at_most_limit_hits (Sprint : FieldValue -> string)
    (RFC3339 : Z -> string) (order : list string) (took : Z)
    (fs : FileStore) (q : SearchQuery) (aggType field : string) :
  0 <= Limit q ->
  let store : Store := fun q => FileStore_Query order took q fs in
  exists res,
    store q = Some res
    /\ Z.of_nat (length (Hits res)) <= Limit q
    /\ Aggregate Sprint RFC3339 store q "count" field
       = inr (AggCount (Z.of_nat (length (Hits res))))
    /\ Aggregate Sprint RFC3339 store q "terms" field
       = inr (AggBuckets (termsAggregation Sprint (Hits res) field))
    /\ Aggregate Sprint RFC3339 store q "date_histogram" field
       = inr (AggBuckets (dateHistogram RFC3339 (Hits res) field))
    /\ (aggType <> "count"%string -> aggType <> "terms"%string ->
        aggType <> "date_histogram"%string ->
        Aggregate Sprint RFC3339 store q aggType field = inl ErrUnsupported).
Proof.
  intros Hl store.
  destruct (StoreMoreProps.FileStore_Query_sound order took q fs Hl)
    as (res & Hq & Hlen & Htot & _).
  exists res. unfold Aggregate. subst store. cbn beta. rewrite Hq.
  split; [done|]. split; [done|]. split; [by rewrite Htot|].
  split; [done|]. split; [done|].
  intros H1 H2 H3. apply String.eqb_neq in H1, H2, H3. by rewrite H1, H2, H3.
Qed.

(** A query whose limit was left at zero. *)
Definition unlimited : SearchQuery :=
  {| Query := ""; Range := Range StoreMoreProps.around_midday; Filters := [];
     Limit := 0; Offset := 0; SortBy := ""; SortOrder := ""; Projection := [] |}.

Lemma aggregate_witness :
  Aggregate (fun _ => ""%string) (fun t => pretty t)
    (fun q => FileStore_Query ["17733240"%string] 3 q StoreMoreProps.day_one)
    unlimited "count" ""
  = inr (AggCount 0).
Proof.
  destruct (aggregate_sees_at_most_limit_hits (fun _ => ""%string)
              (fun t => pretty t) ["17733240"%string] 3 StoreMoreProps.day_one
              unlimited "count" "")
    as (res & _ & H2 & H3 & _).
  - cbn. lia.
  - rewrite H3. do 2 f_equal. cbn [Limit unlimited] in H2. lia.
Defined.

End AggregationProps.

(** ** The receiver: authentication, and what a request hands off *)

Module ReceiverMoreProps.

Import Receiver ReceiverAuth.

Lemma bearer_token_of_key (key : string) :
  key <> ""%string -> bearer_token ("Bearer " +:+ key) = key.
Proof.
  intros Hk. unfold bearer_token. rewrite length_append.
  change (String.length "Bearer ") with 7%nat.
  pose proof (substring_append_l "Bearer " key) as Hl.
  pose proof (substring_append_r "Bearer " key (String.length key)) as Hr.
  change (String.length "Bearer ") with 7%nat in Hl, Hr.
  rewrite Hl.
  replace (7 + String.length key - 7)%nat with (String.length key) by lia.
  rewrite Hr, substring_all, String.eqb_refl, andb_true_r.
  destruct key as [|c key]; [done|]. done.
Qed.

Lemma bearer_token_inv (h : string) :
  bearer_token h <> ""%string -> h = ("Bearer " +:+ bearer_token h)%string.
Proof.
  unfold bearer_token.
  destruct ((7 <? String.length h)%nat
            && String.eqb (String.substring 0 7 h) "Bearer ") eqn:E; [|done].
  intros _. apply andb_prop in E as [E1 E2].
  apply Nat.ltb_lt in E1. apply String.eqb_eq in E2.
  rewrite <- E2 at 1. apply substring_split. lia.
Qed.

Lemma valid_token_iff (cfg : Config) (token : string) :
  valid_token cfg token = true <-> exists name, APIKeys cfg !! name = Some token.
Proof.
  unfold valid_token. rewrite existsb_exists. split.
  - intros ([name key] & Hin & Heq). apply String.eqb_eq in Heq. cbn in Heq.
    subst key. exists name. apply elem_of_map_to_list.
    by apply list_elem_of_In.
  - intros [name H]. exists (name, token). split.
    + apply list_elem_of_In. by apply elem_of_map_to_list.
    + apply String.eqb_refl.
Qed.

(** X18: the authentication middleware.  Without [RequireAuth] every
    request goes on to the handler.  With it, a request without an
    Authorization header is answered 401; a header "Bearer <key>" with a
    configured, non-empty key goes on; when no configured key is empty, any
    header that is not "Bearer <key>" for a configured key is answered 401
    and counted as an error, and the handler is not run.  The token of a
    header that does not start with "Bearer " is the empty string, so if an
    empty key is configured every such header is accepted. *)
Theorem auth_middleware_accepts_configured_keys
    (next : Receiver -> Receiver * Response) (h : string) (r : Receiver) :
  let keys := APIKeys (config r) in
  let rejected :=
    (with_stats r (add_Errors (stats r)), http_Error StatusUnauthorized) in
  (RequireAuth (config r) = false -> authMiddleware next h r = next r)
  /\ (RequireAuth (config r) = true ->
      authMiddleware next "" r = rejected
      /\ (forall name key,
            keys !! name = Some key -> key <> ""%string ->
            authMiddleware next ("Bearer " +:+ key) r = next r)
      /\ ((forall name, keys !! name <> Some ""%string) ->
          (forall name key, keys !! name = Some key ->
                            h <> ("Bearer " +:+ key)%string) ->
          authMiddleware next h r = rejected)
      /\ (forall name,
            keys !! name = Some ""%string -> h <> ""%string ->
            String.prefix "Bearer " h = false ->
            authMiddleware next h r = next r)).
Proof.
  cbn zeta. unfold authMiddleware, fail. split.
  - intros ->. done.
  - intros ->. cbn [negb]. split; [done|]. split; [|split].
    + intros name key Hk Hne. rewrite bearer_token_of_key by done.
      assert (Hv : valid_token (config r) key = true)
        by (apply valid_token_iff; by exists name).
      rewrite Hv. done.
    + intros Hnoempty Hnokey. destruct (String.eqb h "") eqn:Eh; [done|].
      destruct (valid_token (config r) (bearer_token h)) eqn:Ev; [|done].
      apply valid_token_iff in Ev as [name Hname].
      destruct (decide (bearer_token h = ""%string)) as [He|He].
      * rewrite He in Hname. by apply Hnoempty in Hname.
      * apply bearer_token_inv in He. by apply (Hnokey name) in Hname.
    + intros name Hname Hne Hpre. apply String.eqb_neq in Hne. rewrite Hne.
      assert (Ht : bearer_token h = ""%string).
      { destruct (decide (bearer_token h = ""%string)) as [He|He]; [done|].
        apply bearer_token_inv in He.
        assert (String.prefix "Bearer " h = true); [|congruence].
        rewrite He. clear. by destruct (bearer_token h). }
      rewrite Ht.
      assert (Hv : valid_token (config r) "" = true)
        by (apply valid_token_iff; by exists name).
      by rewrite Hv.
Qed.

(** *** What one request hands off *)

Import IngestProps.

Lemma add_uint64_range (c d : Z) : is_uint64 (Go.AddUint64 c d).
Proof.
  unfold Go.AddUint64, Go.wrapu64, is_uint64. apply Z.mod_pos_bound. lia.
Qed.

(** Whatever way the hand-off loop ends, it has sent a prefix of the
    entries, in order, and counted each entry sent. *)
Lemma handoff_loop_prefix (env : nat -> tick) (entries : list Models.LogEntry)
    (k : nat) (r : Receiver) :
  is_uint64 (LogsReceived (stats r)) ->
  exists sent,
    sent `prefix_of` entries
    /\ handed_off (handoff_loop env k entries r).2 = handed_off r ++ sent
    /\ LogsReceived (stats (handoff_loop env k entries r).2)
       = Go.AddUint64 (LogsReceived (stats r)) (Z.of_nat (length sent))
    /\ ((handoff_loop env k entries r).1 = HandoffComplete -> sent = entries)
    /\ ((handoff_loop env k entries r).1 <> HandoffComplete ->
        (length sent < length entries)%nat).
Proof.
  revert k r. induction entries as [|e rest IH]; intros k r Hu.
  - exists []. cbn. rewrite app_nil_r, AddUint64_0 by done. done.
  - cbn [handoff_loop].
    destruct ((length (output (env_step (env k) r)) <? output_cap (env_step (env k) r))%nat
              && negb (ctx_done (env_step (env k) r) && choose_done (env k))).
    + destruct (IH (S k) (send_entry e (env_step (env k) r)))
        as (sent & Hp & Hh & Hl & Hc & Hn).
      { cbn. apply add_uint64_range. }
      exists (e :: sent). split; [by apply prefix_cons|].
      split; [rewrite Hh; cbn; by rewrite <- app_assoc|].
      split.
      { rewrite Hl. cbn. rewrite AddUint64_AddUint64. f_equal. lia. }
      split.
      { intros H. by rewrite Hc. }
      { intros H. specialize (Hn H). cbn. lia. }
    + exists []. split; [apply prefix_nil|].
      destruct (ctx_done (env_step (env k) r)); cbn;
        rewrite app_nil_r, AddUint64_0 by done;
        (split; [done|]); (split; [done|]); (split; [done|]); intros _; lia.
Qed.

(** X19: whatever [handleIngest] answers, what the request has put on
    the output channel is a prefix of the batch decoded from its body, in
    the batch's order, and [LogsReceived] has gone up by exactly the number
    of entries put there (as a uint64).  An answer other than 200 and 503
    (405, 429, 400, 413) means nothing was handed off and the channel is as
    it was; 405 leaves the whole receiver as it was. *)
Theorem ingest_hands_off_a_prefix_of_the_batch (io : Library)
    (env : nat -> tick) (c : clocks) (now : Z) (req : Request) (r : Receiver) :
  is_uint64 (LogsReceived (stats r)) ->
  let r' := (handleIngest io env c now req r).1 in
  let resp := (handleIngest io env c now req r).2 in
  exists sent,
    handed_off r' = handed_off r ++ sent
    /\ LogsReceived (stats r')
       = Go.AddUint64 (LogsReceived (stats r)) (Z.of_nat (length sent))
    /\ (sent = []
        \/ exists body batch,
             io_ReadAll io (String.eqb (ContentEncoding req) "gzip") (Body req)
             = Some body
             /\ json_Unmarshal io body = Some batch
             /\ sent `prefix_of` Models.Entries batch)
    /\ (status resp <> StatusOK -> status resp <> StatusServiceUnavailable ->
        sent = [] /\ output r' = output r)
    /\ (status resp = StatusMethodNotAllowed -> r' = r).
Proof.
  intros Hu. cbn zeta. unfold handleIngest, fail.
  assert (Hnil : forall (r0 : Receiver) (code : Z),
            handed_off r0 = handed_off r -> output r0 = output r ->
            LogsReceived (stats r0) = LogsReceived (stats r) ->
            code <> StatusMethodNotAllowed ->
            exists sent,
              handed_off (r0, http_Error code).1 = handed_off r ++ sent
              /\ LogsReceived (stats (r0, http_Error code).1)
                 = Go.AddUint64 (LogsReceived (stats r)) (Z.of_nat (length sent))
              /\ (sent = []
                  \/ exists body batch,
                       io_ReadAll io (String.eqb (ContentEncoding req) "gzip") (Body req)
                       = Some body
                       /\ json_Unmarshal io body = Some batch
                       /\ sent `prefix_of` Models.Entries batch)
              /\ (status (r0, http_Error code).2 <> StatusOK ->
                  status (r0, http_Error code).2 <> StatusServiceUnavailable ->
                  sent = [] /\ output (r0, http_Error code).1 = output r)
              /\ (status (r0, http_Error code).2 = StatusMethodNotAllowed ->
                  (r0, http_Error code).1 = r)).
  { intros r0 code H1 H2 H3 H4. exists []. cbn [fst snd status http_Error].
    rewrite app_nil_r, AddUint64_0 by done.
    split; [done|]. split; [done|]. split; [by left|]. split; [done|]. done. }
  destruct (negb (String.eqb (Method req) "POST")).
  { exists []. cbn [fst snd]. rewrite app_nil_r, AddUint64_0 by done.
    split; [done|]. split; [done|]. split; [by left|]. done. }
  destruct (checkRateLimit _ _ c _ _) as [ok rls].
  destruct ok; cbn [negb]; [|by apply Hnil].
  destruct (String.eqb (ContentEncoding req) "gzip" && negb (gzip_NewReader io (Body req)));
    [by apply Hnil|].
  destruct (io_ReadAll io _ (Body req)) as [body|] eqn:Eb; [|by apply Hnil].
  destruct (json_Unmarshal io body) as [batch|] eqn:Ej; [|by apply Hnil].
  match goal with
  | |- context [if ?b then _ else _] => destruct b; [by apply Hnil|]
  end.
  match goal with
  | |- context [handoff_loop ?e ?k ?es ?r0] =>
      destruct (handoff_loop_prefix e es k r0) as (sent & Hp & Hh & Hl & Hc & Hn);
        [exact Hu|];
      destruct (handoff_loop e k es r0) as [res r1]
  end.
  cbn [fst snd] in Hh, Hl, Hc, Hn. cbn [handed_off stats LogsReceived with_stats
    with_rateLimits add_BytesReceived add_RequestsReceived] in Hh, Hl.
  exists sent.
  unfold StatusOK, StatusServiceUnavailable, StatusMethodNotAllowed.
  destruct res; cbn [fst snd status http_Error handed_off stats LogsReceived
                     with_stats set_LastReceived];
    (split; [done|]); (split; [done|]);
    (split; [right; by exists body, batch|]);
    (split; [intros H1 H2; congruence | intros H1; discriminate]).
Qed.

Lemma ingest_prefix_witness :
  let r := receiver_with_room 2 in
  let r' := (handleIngest codec3 quiet at_noon 0 ingest_request r).1 in
  exists sent,
    handed_off r' = handed_off r ++ sent
    /\ LogsReceived (stats r')
       = Go.AddUint64 (LogsReceived (stats r)) (Z.of_nat (length sent))
    /\ sent = [entry "e1"; entry "e2"].
Proof.
  cbn zeta.
  destruct (ingest_hands_off_a_prefix_of_the_batch codec3 quiet at_noon 0
              ingest_request (receiver_with_room 2))
    as (sent & H1 & H2 & _).
  - unfold is_uint64. cbn. lia.
  - exists sent. split; [exact H1|]. split; [exact H2|].
    vm_compute in H1. inversion H1. reflexivity.
Defined.

End ReceiverMoreProps.

(** ** The shipper: batching, and the circuit breaker under mixed traffic *)

Module ShipperMoreProps.

Import Models Shipper ShipperBatch.

(** The entries inside the shipper, oldest first: those of the batches
    handed to [sendWithRetry], those of the current batch, those still on
    the channel. *)
Definition flow (s : Shipper) : list LogEntry :=
  concat (Entries <$> (fst <$> attempted s)) ++ Entries (batch s) ++ inputChan s.

Lemma flow_sendCurrentBatch (w : world) (s : Shipper) :
  flow (sendCurrentBatch w s) = flow s
  /\ Entries (batch (sendCurrentBatch w s)) = []
  /\ config (sendCurrentBatch w s) = config s
  /\ (attempted (sendCurrentBatch w s) = attempted s
      \/ exists out, Entries (batch s) <> []
                     /\ attempted (sendCurrentBatch w s)
                        = attempted s ++ [(batch s, out)]).
Proof.
  unfold sendCurrentBatch, Batch_IsEmpty.
  destruct (length (Entries (batch s)) =? 0)%nat eqn:E.
  - apply Nat.eqb_eq, length_zero_iff_nil in E.
    split; [done|]. split; [done|]. split; [done|]. by left.
  - apply Nat.eqb_neq in E.
    destruct (sendWithRetry _ _ _ _) as [[out eps] tr].
    split; [|split; [done|split; [done|]]].
    + unfold flow. cbn [attempted batch inputChan NewBatch Entries].
      rewrite !fmap_app, concat_app. cbn. rewrite app_nil_r, <- app_assoc. done.
    + right. exists out. split; [|done]. intros H. by rewrite H in E.
Qed.

(** Every batch handed to [sendWithRetry] holds between 1 and [BatchSize]
    entries, and the current batch is not full. *)
Definition batches_ok (s : Shipper) : Prop :=
  Forall (fun b => (1 <= length (Entries b.1))%nat
                   /\ Z.of_nat (length (Entries b.1)) <= BatchSize (config s))
         (attempted s)
  /\ Z.of_nat (length (Entries (batch s))) < BatchSize (config s).

Lemma batches_ok_sendCurrentBatch (w : world) (s : Shipper) :
  1 <= BatchSize (config s) ->
  Forall (fun b => (1 <= length (Entries b.1))%nat
                   /\ Z.of_nat (length (Entries b.1)) <= BatchSize (config s))
         (attempted s) ->
  Z.of_nat (length (Entries (batch s))) <= BatchSize (config s) ->
  batches_ok (sendCurrentBatch w s).
Proof.
  intros Hsize Hall Hb.
  destruct (flow_sendCurrentBatch w s) as (_ & He & Hc & Ha).
  unfold batches_ok. rewrite He, Hc. split; [|cbn; lia].
  destruct Ha as [-> | (out & Hne & ->)]; [done|].
  apply Forall_app. split; [done|]. apply Forall_singleton. cbn [fst].
  split; [|done]. destruct (Entries (batch s)); [done | cbn; lia].
Qed.

Lemma act_invariant (sys : system) (a : action) :
  1 <= BatchSize (config (shipper sys)) ->
  accepted sys = flow (shipper sys) ->
  batches_ok (shipper sys) ->
  (processing sys = false -> Entries (batch (shipper sys)) = []) ->
  let sys' := act sys a in
  config (shipper sys') = config (shipper sys)
  /\ accepted sys' = flow (shipper sys')
  /\ batches_ok (shipper sys')
  /\ (processing sys' = false -> Entries (batch (shipper sys')) = []).
Proof.
  intros Hsize Hflow Hok Hstop. cbn zeta.
  destruct sys as [s alive acc]. cbn [shipper processing accepted] in *.
  destruct a as [choose entry| |c w]; cbn [act shipper processing accepted].
  - unfold Ship.
    destruct ((Z.of_nat (length (inputChan s)) <? inputChan_cap (config s))
              && negb (ctx_done s && choose)).
    + cbn [shipper processing accepted config batch]. split; [done|]. split.
      * rewrite Hflow. unfold flow. cbn [attempted batch inputChan].
        by rewrite !app_assoc.
      * done.
    + destruct (ctx_done s); cbn [shipper processing accepted]; done.
  - cbn [config batch]. done.
  - destruct alive; [|done].
    destruct Hok as [Hall Hb].
    unfold process_step. destruct c.
    + destruct (ctx_done s); [|done]. cbn [shipper processing accepted].
      destruct (flow_sendCurrentBatch w s) as (Hf & He & Hc & _).
      split; [done|]. split; [by rewrite Hf|].
      split; [apply batches_ok_sendCurrentBatch; [done | done | lia] | done].
    + destruct (inputChan s) as [|entry rest] eqn:Eq; [done|].
      set (s1 := {| config := config s; batch := Batch_Add entry (batch s);
                    inputChan := rest; ctx_done := ctx_done s;
                    endpoints := endpoints s; attempted := attempted s |}).
      assert (Hf1 : flow s1 = flow s).
      { unfold flow. subst s1. cbn [attempted batch inputChan Batch_Add Entries].
        rewrite Eq, <- !app_assoc. done. }
      assert (Hlen : Z.of_nat (length (Entries (batch s1)))
                     = Z.of_nat (length (Entries (batch s))) + 1).
      { subst s1. cbn [batch Batch_Add Entries]. rewrite length_app. cbn. lia. }
      destruct (BatchSize (config s) <=? Batch_Size (batch s1)) eqn:Efull.
      * cbn [shipper processing accepted].
        destruct (flow_sendCurrentBatch w s1) as (Hf & He & Hc & _).
        split; [done|]. split; [by rewrite Hf, Hf1|].
        split; [|done].
        apply batches_ok_sendCurrentBatch; [done | done | cbn [config s1]; lia].
      * apply Z.leb_gt in Efull. unfold Batch_Size in Efull.
        cbn [shipper processing accepted].
        split; [done|]. split; [by rewrite Hf1|]. split; [|done].
        split; [done | done].
    + cbn [shipper processing accepted].
      destruct (flow_sendCurrentBatch w s) as (Hf & He & Hc & _).
      split; [done|]. split; [by rewrite Hf|].
      split; [apply batches_ok_sendCurrentBatch; [done | done | lia] | done].
Qed.

(** X20: nothing is lost, duplicated or reordered between [Ship] and
    [sendWithRetry].  Whatever calls of [Ship], cancellation and iterations
    of [processBatches] a new shipper goes through, the entries [Ship] has
    accepted are, in order, those of the batches handed to [sendWithRetry],
    then those of the current batch, then those still on the channel.
    Every batch handed over holds at least one and at most [BatchSize]
    entries.  Once [processBatches] has returned the current batch is
    empty; what is then on the channel is never sent. *)
Theorem shipper_batches_preserve_order (cfg : Config) (agentID : string)
    (t0 : Z) (actions : list action) :
  1 <= BatchSize cfg ->
  let sys := foldl act (start cfg agentID t0) actions in
  let s := shipper sys in
  accepted sys
  = concat (Entries <$> (fst <$> attempted s)) ++ Entries (batch s) ++ inputChan s
  /\ Forall (fun b => (1 <= length (Entries b.1))%nat
                      /\ Z.of_nat (length (Entries b.1)) <= BatchSize cfg)
            (attempted s)
  /\ Z.of_nat (length (Entries (batch s))) < BatchSize cfg
  /\ (processing sys = false ->
      Entries (batch s) = []
      /\ forall more, (forall a, a ∈ more -> exists c w, a = DoProcess c w) ->
           shipper (foldl act sys more) = s).
Proof.
  intros Hsize. cbn zeta.
  assert (Hinv : let sys := foldl act (start cfg agentID t0) actions in
                 config (shipper sys) = cfg
                 /\ accepted sys = flow (shipper sys)
                 /\ batches_ok (shipper sys)
                 /\ (processing sys = false -> Entries (batch (shipper sys)) = [])).
  { induction actions as [|a actions IH] using rev_ind.
    - cbn. split; [done|]. split; [done|]. split; [|done].
      split; [done | cbn; lia].
    - rewrite foldl_app. cbn [foldl].
      destruct IH as (Hc & Hf & Hok & Hstop).
      destruct (act_invariant (foldl act (start cfg agentID t0) actions) a)
        as (Hc' & Hf' & Hok' & Hstop'); try done; [by rewrite Hc|].
      split; [by rewrite Hc', Hc|]. done. }
  destruct Hinv as (Hc & Hf & [Hall Hb] & Hstop).
  rewrite Hc in Hall, Hb.
  split; [exact Hf|]. split; [exact Hall|]. split; [exact Hb|].
  intros Hdead. split; [by apply Hstop|].
  intros more Hmore.
  set (sys := foldl act (start cfg agentID t0) actions) in *.
  assert (G : foldl act sys more = sys).
  { clear -Hdead Hmore. induction more as [|a more IH]; [done|].
    destruct (Hmore a) as (c & w & ->); [by left|].
    cbn [foldl act]. rewrite Hdead. apply IH.
    intros a Ha. apply Hmore. by right. }
  by rewrite G.
Qed.

Definition pairs : Config :=
  {| Endpoints := ["http://collector:9090"%string]; BatchSize := 2;
     BatchTimeout := 5 * Go.Second; MaxRetries := 3;
     RetryBackoff := 1 * Go.Second; FailureThreshold := 5;
     SuccessThreshold := 2; OpenTimeout := 30 * Go.Second |}.

Definition line (i : string) : LogEntry :=
  {| ID := i; Timestamp := 63839700000 * Go.Second; Level := LogLevelInfo;
     Message := "started"; Source := "file"; Host := "web-1"; Service := "api";
     Fields := []; Tags := []; Raw := "started" |}.

(** A world in which every send succeeds. *)
Definition calm : world :=
  {| now := 63839700000 * Go.Second;
     attempts := fun _ => {| select_clock := fun _ => 63839700000 * Go.Second;
                             select_rand := 0%nat; send_ok := fun _ => true;
                             failure_clock := 63839700000 * Go.Second |};
     fuel := 10%nat |}.

Definition three_shipped : list action :=
  [DoShip false (line "e1"); DoShip false (line "e2"); DoShip false (line "e3");
   DoProcess CaseEntry calm; DoProcess CaseEntry calm; DoProcess CaseEntry calm].

Lemma shipper_batches_witness :
  let sys := foldl act (start pairs "agent-1" 0) three_shipped in
  let s := shipper sys in
  accepted sys
  = concat (Entries <$> (fst <$> attempted s)) ++ Entries (batch s) ++ inputChan s
  /\ accepted sys = [line "e1"; line "e2"; line "e3"]
  /\ Entries <$> (fst <$> attempted s) = [[line "e1"; line "e2"]].
Proof.
  cbn zeta.
  destruct (shipper_batches_preserve_order pairs "agent-1" 0 three_shipped)
    as (H1 & _).
  - cbn. lia.
  - split; [exact H1|]. split; vm_compute; reflexivity.
Defined.

(** *** The circuit breaker *)

(** X21: while every endpoint's circuit is open and none has been open
    for longer than [OpenTimeout], [sendWithRetry] gives up at once: it
    makes no send attempt, does not sleep and leaves the endpoints as they
    are; [sendCurrentBatch] then has dropped the batch without a single
    attempt. *)
Theorem no_attempt_while_all_circuits_are_open (w : world) (s : Shipper) :
  0 <= MaxRetries (config s) ->
  (0 < fuel w)%nat ->
  Entries (batch s) <> [] ->
  (forall j ep, endpoints s !! j = Some ep ->
     state ep = circuitOpen
     /\ Go.Since (select_clock (attempts w 0) j) (lastFailure ep)
        <= OpenTimeout (config s)) ->
  sendWithRetry (config s) (attempts w) (fuel w) (endpoints s)
  = (NoEndpoints, endpoints s, [])
  /\ attempted (sendCurrentBatch w s) = attempted s ++ [(batch s, NoEndpoints)]
  /\ Entries (batch (sendCurrentBatch w s)) = []
  /\ endpoints (sendCurrentBatch w s) = endpoints s.
Proof.
  intros Hretries Hfuel Hbatch Hopen.
  assert (Hsend : sendWithRetry (config s) (attempts w) (fuel w) (endpoints s)
                  = (NoEndpoints, endpoints s, [])).
  { unfold sendWithRetry. destruct (fuel w) as [|n]; [lia|].
    cbn [sendWithRetry_loop].
    destruct (0 <=? MaxRetries (config s)) eqn:E; [|apply Z.leb_gt in E; lia].
    pose proof (CircuitProps.selectEndpoint_eligible (config s)
                  (select_clock (attempts w 0)) (select_rand (attempts w 0))
                  (endpoints s)) as Hel.
    pose proof (CircuitProps.selectEndpoint_after (config s)
                  (select_clock (attempts w 0)) (select_rand (attempts w 0))
                  (endpoints s)) as Haft.
    destruct (selectEndpoint _ _ _ _) as [[j|] eps1]; cbn [fst snd] in *.
    - destruct (Hel j eq_refl) as (ep & Hj & He).
      destruct (Hopen j ep Hj) as [Hs Ht].
      unfold CircuitProps.eligible in He. rewrite Hs in He.
      apply Z.ltb_lt in He. lia.
    - f_equal. f_equal. apply list_eq. intros k. rewrite Haft.
      destruct (endpoints s !! k) as [ep|] eqn:Ek; [|done]. cbn.
      destruct (Hopen k ep Ek) as [Hs Ht].
      unfold CircuitProps.probe. rewrite Hs.
      destruct (_ <? _) eqn:E2; [apply Z.ltb_lt in E2; lia | done]. }
  split; [exact Hsend|].
  unfold sendCurrentBatch, Batch_IsEmpty. rewrite Hsend.
  destruct (Entries (batch s)) eqn:Eb; [done|]. cbn. done.
Qed.

Definition tripped : Shipper :=
  {| config := pairs;
     batch := Batch_Add (line "e1") (NewBatch "agent-1" 0);
     inputChan := []; ctx_done := false;
     endpoints := [{| url := "http://collector:9090"; state := circuitOpen;
                      failures := 5; successes := 0;
                      lastFailure := 63839700000 * Go.Second - 10 * Go.Second;
                      consecutiveFail := 5 |}];
     attempted := [] |}.

Lemma no_attempt_witness :
  attempted (sendCurrentBatch calm tripped) = [(batch tripped, NoEndpoints)].
Proof.
  destruct (no_attempt_while_all_circuits_are_open calm tripped)
    as (_ & H & _).
  - cbn. lia.
  - cbn. lia.
  - done.
  - intros [|j] ep Hj; [|done]. inversion Hj; subst ep.
    split; [done|]. vm_compute. discriminate.
  - exact H.
Defined.

(** What happens to one endpoint: a successful send, a failed send, a pass
    of [selectEndpoint] over it. *)
Inductive happening :=
  | Succeeded
  | Failed (now : Z)
  | Looked (now : Z).

Definition happen (cfg : Config) (ep : endpoint) (h : happening) : endpoint :=
  match h with
  | Succeeded => recordSuccess cfg ep
  | Failed now => recordFailure cfg now ep
  | Looked now => CircuitProps.probe cfg now ep
  end.

Definition is_success (h : happening) : bool :=
  match h with Succeeded => true | _ => false end.

Definition is_failure (h : happening) : bool :=
  match h with Failed _ => true | _ => false end.

(** Number of failed sends in a stretch of happenings. *)
Definition failures_in (hs : list happening) : Z :=
  Z.of_nat (length (filter (fun h => is_failure h = true) hs)).

(** A stretch without a successful send. *)
Definition no_success (hs : list happening) : Prop :=
  Forall (fun h => is_success h = false) hs.

Lemma failures_in_cons (h : happening) (hs : list happening) :
  failures_in (h :: hs) = (if is_failure h then 1 else 0) + failures_in hs.
Proof.
  unfold failures_in. rewrite filter_cons.
  destruct (is_failure h); [rewrite decide_True by done | rewrite decide_False by done];
    cbn [length]; lia.
Qed.

Lemma failures_in_nonneg (hs : list happening) : 0 <= failures_in hs.
Proof. unfold failures_in. lia. Qed.

Lemma stays_closed (cfg : Config) (hs : list happening) (ep : endpoint) (c : Z) :
  FailureThreshold cfg <= Go.int64_max ->
  state ep = circuitClosed ->
  consecutiveFail ep = c -> 0 <= c ->
  (forall run post, hs = run ++ post -> no_success run ->
                    c + failures_in run < FailureThreshold cfg) ->
  (forall pre run post, hs = pre ++ run ++ post -> no_success run ->
                        failures_in run < FailureThreshold cfg) ->
  state (foldl (happen cfg) ep hs) = circuitClosed
  /\ 0 <= consecutiveFail (foldl (happen cfg) ep hs) < FailureThreshold cfg.
Proof.
  intros Hmax. revert ep c. induction hs as [|h hs IH]; intros ep c Hs Hc Hc0 Hpre Hseg.
  - cbn. split; [done|]. specialize (Hpre [] [] eq_refl (Forall_nil_2 _)).
    change (failures_in []) with 0 in Hpre. lia.
  - cbn [foldl].
    assert (Hseg' : forall pre run post, hs = pre ++ run ++ post -> no_success run ->
                      failures_in run < FailureThreshold cfg).
    { intros pre run post -> Hrun. by apply (Hseg (h :: pre) run post). }
    destruct h as [|t|t]; cbn [happen].
    + apply (IH _ 0).
      * unfold recordSuccess. by rewrite Hs.
      * unfold recordSuccess. by rewrite Hs.
      * lia.
      * intros run post -> Hrun. rewrite Z.add_0_l.
        by apply (Hseg [Succeeded] run post).
      * exact Hseg'.
    + assert (Hone : c + 1 < FailureThreshold cfg).
      { specialize (Hpre [Failed t] hs eq_refl).
        rewrite failures_in_cons in Hpre. change (failures_in []) with 0 in Hpre.
        cbn in Hpre. rewrite Z.add_0_r in Hpre. apply Hpre.
        by apply Forall_singleton. }
      assert (Hincr : Go.incr (consecutiveFail ep) = c + 1).
      { rewrite Hc. apply incr_small. unfold Go.int64_min. lia. }
      apply (IH _ (c + 1)).
      * unfold recordFailure. rewrite Hs, Hincr. cbn [state].
        destruct (FailureThreshold cfg <=? c + 1) eqn:E;
          [apply Z.leb_le in E; lia | done].
      * unfold recordFailure. rewrite Hs. cbn [consecutiveFail]. exact Hincr.
      * lia.
      * intros run post -> Hrun.
        specialize (Hpre (Failed t :: run) post eq_refl).
        rewrite failures_in_cons in Hpre. cbn [is_failure] in Hpre.
        assert (no_success (Failed t :: run)) by (by apply Forall_cons).
        specialize (Hpre H). lia.
      * exact Hseg'.
    + apply (IH _ c).
      * unfold CircuitProps.probe. by rewrite Hs.
      * unfold CircuitProps.probe. by rewrite Hs.
      * lia.
      * intros run post -> Hrun.
        specialize (Hpre (Looked t :: run) post eq_refl).
        rewrite failures_in_cons in Hpre. cbn [is_failure] in Hpre.
        assert (no_success (Looked t :: run)) by (by apply Forall_cons).
        specialize (Hpre H). lia.
      * exact Hseg'.
Qed.

(** X22: the circuit of an endpoint opens only after [FailureThreshold]
    failed sends in a row.  Starting from a closed endpoint without
    consecutive failures, as long as every stretch of sends without a
    success in it holds fewer than [FailureThreshold] failures, the circuit
    stays closed through any mix of successes, failures and passes of
    [selectEndpoint], and the endpoint stays available. *)
Theorem circuit_stays_closed_below_threshold (cfg : Config)
    (hs : list happening) (ep : endpoint) (now : Z) :
  1 <= FailureThreshold cfg <= Go.int64_max ->
  state ep = circuitClosed ->
  consecutiveFail ep = 0 ->
  (forall pre run post, hs = pre ++ run ++ post -> no_success run ->
                        failures_in run < FailureThreshold cfg) ->
  let ep' := foldl (happen cfg) ep hs in
  state ep' = circuitClosed
  /\ 0 <= consecutiveFail ep' < FailureThreshold cfg
  /\ CircuitProps.eligible cfg now ep' = true.
Proof.
  intros Hft Hs Hc Hseg. cbn zeta.
  destruct (stays_closed cfg hs ep 0) as [H1 H2]; try done; try lia.
  { intros run post -> Hrun. rewrite Z.add_0_l. by apply (Hseg [] run post). }
  split; [done|]. split; [done|].
  unfold CircuitProps.eligible. by rewrite H1.
Qed.

(** Four failed sends, a success in between, a pass of [selectEndpoint]. *)
Definition rough_patch : list happening :=
  [Failed 10; Failed 20; Succeeded; Failed 30; Looked 35; Failed 40].

Lemma circuit_stays_closed_witness :
  let ep' := foldl (happen pairs) (new_endpoint "http://collector:9090")
                   rough_patch in
  state ep' = circuitClosed /\ consecutiveFail ep' = 2.
Proof.
  cbn zeta.
  destruct (circuit_stays_closed_below_threshold pairs rough_patch
              (new_endpoint "http://collector:9090") 50)
    as (H1 & _).
  - cbn. unfold Go.int64_max. lia.
  - reflexivity.
  - reflexivity.
  - intros pre run post E _.
    assert (Hall : failures_in rough_patch = 4) by reflexivity.
    rewrite E in Hall. unfold failures_in in *.
    rewrite !filter_app, !length_app in Hall. cbn [FailureThreshold pairs]. lia.
  - split; [exact H1 | vm_compute; reflexivity].
Defined.

End ShipperMoreProps.

(** ** The tailer: adding files, and reading the lines of a file *)

Module TailerMoreProps.

Import Tailer TailerRun.

(** A line as [ReadString] returns it: bytes other than the terminator,
    followed by the terminator. *)
Fixpoint no_newline (s : string) : Prop :=
  match s with
  | EmptyString => True
  | String c s' => c <> newline /\ no_newline s'
  end.

Definition terminated (l : string) : Prop :=
  exists body, l = (body +:+ String newline "")%string /\ no_newline body.

(** The bytes of the lines, one after the other. *)
Fixpoint join (ls : list string) : string :=
  match ls with
  | [] => ""
  | l :: ls' => (l +:+ join ls')%string
  end.

Lemma read_line_terminated (l rest : string) :
  terminated l -> read_line (l +:+ rest) = Some l.
Proof.
  intros (body & -> & Hb). revert Hb. induction body as [|c body IH]; intros Hb.
  - rewrite append_nil_l, append_cons. cbn [read_line].
    by rewrite Ascii.eqb_refl.
  - destruct Hb as [Hc Hb]. rewrite !append_cons. cbn [read_line].
    apply Ascii.eqb_neq in Hc. rewrite Hc. by rewrite IH.
Qed.

Lemma read_line_no_newline (s : string) : no_newline s -> read_line s = None.
Proof.
  induction s as [|c s IH]; [done|]. intros [Hc Hs]. cbn [read_line].
  apply Ascii.eqb_neq in Hc. rewrite Hc. by rewrite IH.
Qed.

Lemma skip_append (a b : string) : skip (String.length a) (a +:+ b) = b.
Proof. induction a as [|c a IH]; [by destruct b|]. rewrite append_cons. exact IH. Qed.

Lemma skip_skip (n m : nat) (s : string) : skip (n + m) s = skip m (skip n s).
Proof.
  revert s. induction n as [|n IH]; intros s; [done|].
  destruct s as [|c s]; cbn [Nat.add skip]; [by destruct m | apply IH].
Qed.

Lemma terminated_length (l : string) : terminated l -> (1 <= String.length l)%nat.
Proof. intros (body & -> & _). rewrite length_append. cbn. lia. Qed.

Lemma updateOffset_states (path : string) (off : Z) (ft : FileTailer) (st : FileState) :
  states ft !! path = Some st ->
  states (updateOffset path off ft) !! path
  = Some {| Path := Path st; Offset := off; Inode := Inode st;
            Device := Device st; Size := Size st; ModTime := ModTime st |}
  /\ config (updateOffset path off ft) = config ft.
Proof.
  intros H. unfold updateOffset. rewrite H. cbn. by rewrite lookup_insert_eq.
Qed.

Lemma read_cycles_S (fs : FileSystem) (n : nat) (rd : reader) (ft : FileTailer) :
  read_cycles fs (S n) rd ft
  = match tail_step fs ReadCycle rd ft with
    | (None, sent, ft') => (None, sent, ft')
    | (Some rd', sent, ft') =>
        let '(rd'', sent', ft'') := read_cycles fs n rd' ft' in
        (rd'', sent ++ sent', ft'')
    end.
Proof. reflexivity. Qed.

(** The reader has read [lines] and stands before [partial]. *)
Lemma read_cycles_lines (fs : FileSystem) (f : inode_data) (lines : list string)
    (partial : string) (rd : reader) (ft : FileTailer) (st : FileState) :
  rd_open rd = true ->
  inodes fs !! rd_handle rd = Some f ->
  0 <= rd_pos rd ->
  skip (Z.to_nat (rd_pos rd)) (content f) = (join lines +:+ partial)%string ->
  Forall terminated lines ->
  no_newline partial ->
  0 <= rd_offset rd ->
  rd_offset rd + Z.of_nat (String.length (join lines)) <= Go.int64_max ->
  states ft !! rd_path rd = Some st ->
  exists rd' ft' st',
    read_cycles fs (S (length lines)) rd ft = (Some rd', rd_batch rd ++ lines, ft')
    /\ rd_batch rd' = []
    /\ rd_offset rd' = rd_offset rd + Z.of_nat (String.length (join lines))
    /\ rd_pos rd'
       = rd_pos rd + Z.of_nat (String.length (join lines))
         + Z.of_nat (String.length partial)
    /\ rd_handle rd' = rd_handle rd /\ rd_path rd' = rd_path rd
    /\ states ft' !! rd_path rd = Some st'
    /\ Inode st' = Inode st /\ Device st' = Device st
    /\ (lines <> [] -> Offset st' = rd_offset rd')
    /\ (lines = [] -> ft' = ft).
Proof.
  intros Hopen Hf. revert rd ft st Hopen Hf.
  induction lines as [|l lines IH];
    intros rd ft st Hopen Hf Hpos Hdata Hlines Hpartial Hoff Hmax Hst.
  - cbn [join] in *. rewrite append_nil_l in Hdata.
    cbn [length read_cycles]. unfold tail_step. rewrite Hopen, Hf, Hdata.
    rewrite read_line_no_newline by done.
    eexists _, ft, st. rewrite !app_nil_r. split; [reflexivity|].
    cbn [rd_batch rd_offset rd_pos rd_handle rd_path String.length].
    repeat split; try done; lia.
  - apply Forall_cons in Hlines as [Hl Hlines].
    cbn [join] in Hdata, Hmax |- *. rewrite append_assoc in Hdata.
    rewrite length_append in Hmax.
    pose proof (terminated_length l Hl) as Hlen.
    cbn [length]. rewrite read_cycles_S. unfold tail_step at 1.
    rewrite Hopen, Hf, Hdata, (read_line_terminated l _ Hl).
    assert (Hwrap : Go.wrap64 (rd_offset rd + Z.of_nat (String.length l))
                    = rd_offset rd + Z.of_nat (String.length l)).
    { apply wrap64_id. unfold Go.int64_min. lia. }
    rewrite Hwrap.
    destruct (updateOffset_states (rd_path rd)
                (rd_offset rd + Z.of_nat (String.length l)) ft st Hst)
      as [Hst1 Hcfg].
    set (ft1 := updateOffset (rd_path rd)
                  (rd_offset rd + Z.of_nat (String.length l)) ft) in *.
    set (st1 := {| Path := Path st;
                   Offset := rd_offset rd + Z.of_nat (String.length l);
                   Inode := Inode st; Device := Device st; Size := Size st;
                   ModTime := ModTime st |}) in *.
    assert (Hskip :
              skip (Z.to_nat (rd_pos rd + Z.of_nat (String.length l))) (content f)
              = (join lines +:+ partial)%string).
    { replace (Z.to_nat (rd_pos rd + Z.of_nat (String.length l)))
        with (Z.to_nat (rd_pos rd) + String.length l)%nat by lia.
      by rewrite skip_skip, Hdata, skip_append. }
    destruct (BatchSize (config ft) <=? Z.of_nat (length (rd_batch rd ++ [l]))).
    + match goal with
      | |- context [read_cycles fs _ ?r ft1] =>
          destruct (IH r ft1 st1) as (rd' & ft' & st' & Hrun & Hb & Ho & Hp & Hh
                                      & Hpa & Hs' & Hi & Hd & Hne & Hnil)
      end;
        [done | done | cbn; lia | exact Hskip | done | done | cbn; lia
        | cbn; lia | exact Hst1 | ];
        cbn [rd_open rd_handle rd_pos rd_offset rd_path rd_batch] in *.
      rewrite Hrun. exists rd', ft', st'.
      split; [by rewrite app_nil_l, <- app_assoc|].
      split; [done|]. split; [rewrite Ho, length_append; lia|].
      split; [rewrite Hp, length_append; lia|].
      split; [done|]. split; [done|]. split; [done|].
      split; [done|]. split; [done|]. split; [|done].
      intros _. destruct lines as [|l' lines'].
      * rewrite (Hnil eq_refl), Hst1 in Hs'. inversion Hs'; subst st'.
        cbn [Offset]. rewrite Ho. cbn. lia.
      * by apply Hne.
    + match goal with
      | |- context [read_cycles fs _ ?r ft1] =>
          destruct (IH r ft1 st1) as (rd' & ft' & st' & Hrun & Hb & Ho & Hp & Hh
                                      & Hpa & Hs' & Hi & Hd & Hne & Hnil)
      end;
        [done | done | cbn; lia | exact Hskip | done | done | cbn; lia
        | cbn; lia | exact Hst1 | ];
        cbn [rd_open rd_handle rd_pos rd_offset rd_path rd_batch] in *.
      rewrite Hrun. exists rd', ft', st'.
      split; [by rewrite app_nil_l, <- app_assoc|].
      split; [done|]. split; [rewrite Ho, length_append; lia|].
      split; [rewrite Hp, length_append; lia|].
      split; [done|]. split; [done|]. split; [done|].
      split; [done|]. split; [done|]. split; [|done].
      intros _. destruct lines as [|l' lines'].
      * rewrite (Hnil eq_refl), Hst1 in Hs'. inversion Hs'; subst st'.
        cbn [Offset]. rewrite Ho. cbn. lia.
      * by apply Hne.
Qed.

(** X23: tailing a new file.  When a file that has no state yet is added
    and its reader runs over a content made of complete lines followed by
    an unterminated rest, the lines handed to [sendBatch] are exactly the
    complete lines, each with its terminator, in file order and once; the
    offset saved in the file's state is the number of bytes of the complete
    lines; the unterminated rest has been consumed by the reader without
    being emitted, so the read position is at the end of the file while the
    saved offset is not. *)
Theorem new_file_is_read_line_by_line (fs : FileSystem) (path : string)
    (ft : FileTailer) (h : Z * Z) (f : inode_data) (lines : list string)
    (partial : string) :
  states ft !! resolve fs path = None ->
  names fs !! resolve fs path = Some h ->
  inodes fs !! h = Some f ->
  content f = (join lines +:+ partial)%string ->
  Forall terminated lines ->
  no_newline partial ->
  Z.of_nat (String.length (join lines)) <= Go.int64_max ->
  let added := AddFile fs true path ft in
  exists rd0 rd' ft' st',
    added.1 = None
    /\ tailFile_open fs (resolve fs path) added.2 = Some rd0
    /\ read_cycles fs (S (length lines)) rd0 added.2 = (Some rd', lines, ft')
    /\ states ft' !! resolve fs path = Some st'
    /\ Offset st' = Z.of_nat (String.length (join lines))
    /\ (Device st', Inode st') = h
    /\ rd_offset rd' = Z.of_nat (String.length (join lines))
    /\ rd_pos rd' = Z.of_nat (String.length (content f))
    /\ rd_batch rd' = [].
Proof.
  intros Hnew Hname Hino Hcontent Hlines Hpartial Hmax. cbn zeta.
  unfold AddFile. rewrite Hnew, Hname. destruct h as [dev ino]. rewrite Hino.
  cbn [fst snd]. unfold tailFile_open. cbn [states]. rewrite Hname, lookup_insert_eq.
  cbn [Offset].
  set (st := {| Path := resolve fs path; Offset := 0; Inode := ino; Device := dev;
                Size := Z.of_nat (String.length (content f)); ModTime := mtime f |}).
  set (ft1 := {| config := config ft; states := <[resolve fs path := st]> (states ft);
                 goroutines := goroutines ft ++ [Starting (resolve fs path)] |}).
  set (rd0 := {| rd_path := resolve fs path; rd_handle := (dev, ino); rd_open := true;
                 rd_pos := 0; rd_offset := 0; rd_batch := []; rd_eofCount := 0 |}).
  destruct (read_cycles_lines fs f lines partial rd0 ft1 st)
    as (rd' & ft' & st' & Hrun & Hb & Ho & Hp & _ & _ & Hs & Hi & Hd & Hne & Hnil);
    [done | exact Hino | done | exact Hcontent | done | done | done
    | cbn; lia | apply lookup_insert_eq | ].
  exists rd0, rd', ft', st'. cbn [rd_batch rd_offset rd_pos rd_path rd0] in *.
  rewrite app_nil_l in Hrun. rewrite Z.add_0_l in Ho, Hp.
  split; [done|]. split; [done|]. split; [done|]. split; [done|].
  split.
  { destruct lines as [|l lines']; [|by rewrite Hne].
    rewrite (Hnil eq_refl) in Hs. subst ft1. cbn [states] in Hs.
    rewrite lookup_insert_eq in Hs. by inversion Hs. }
  split; [by rewrite Hi, Hd|]. split; [done|]. split; [|done].
  rewrite Hp, Hcontent, length_append. lia.
Qed.

Definition lf (s : string) : string := (s +:+ String newline "")%string.

Definition access_log : string := "/var/log/access.log".

Definition two_and_a_half : FileSystem :=
  {| symlinks := ∅;
     names := {[ access_log := (1, 7) ]};
     inodes := {[ (1, 7) := {| content := (lf "a" +:+ lf "b" +:+ "c")%string;
                               mtime := 0 |} ]} |}.

Definition fresh_tailer : FileTailer :=
  New {| BufferSize := 65536; StateFile := "/var/lib/agent/state.json";
         PollInterval := 1 * Go.Second; BatchSize := 10;
         BatchTimeout := 1 * Go.Second |} ∅.

Lemma new_file_witness :
  exists rd0 rd' ft' st',
    tailFile_open two_and_a_half access_log
      (AddFile two_and_a_half true access_log fresh_tailer).2 = Some rd0
    /\ read_cycles two_and_a_half 3 rd0
         (AddFile two_and_a_half true access_log fresh_tailer).2
       = (Some rd', [lf "a"; lf "b"], ft')
    /\ states ft' !! access_log = Some st'
    /\ Offset st' = 4
    /\ rd_pos rd' = 5.
Proof.
  destruct (new_file_is_read_line_by_line two_and_a_half access_log fresh_tailer
              (1, 7) {| content := (lf "a" +:+ lf "b" +:+ "c")%string; mtime := 0 |}
              [lf "a"; lf "b"] "c")
    as (rd0 & rd' & ft' & st' & _ & H2 & H3 & H4 & H5 & _ & _ & H8 & _).
  - reflexivity.
  - reflexivity.
  - reflexivity.
  - reflexivity.
  - apply Forall_cons. split.
    { exists "a"%string. split; [reflexivity|]. split; [vm_compute; discriminate | done]. }
    apply Forall_cons. split; [|apply Forall_nil_2].
    exists "b"%string. split; [reflexivity|]. split; [vm_compute; discriminate | done].
  - cbn. split; [|done]. vm_compute. discriminate.
  - vm_compute. discriminate.
  - exists rd0, rd', ft', st'.
    split; [exact H2|]. split; [exact H3|]. split; [exact H4|].
    split; [exact H5 | exact H8].
Defined.

(** X24: [AddFile] acts once per path.  A failed [stat] leaves the tailer
    as it was.  In every other case the path has a state afterwards, and
    any later [AddFile] for a path that resolves to the same name returns
    success and changes nothing: it neither starts a reader nor refreshes
    the recorded inode, device, size or offset, whatever file the name
    denotes by then.  This holds also when the first call failed on adding
    the watch: the state was stored before the watch was tried, so no
    reader is ever started for that path. *)
Theorem add_file_acts_once (fs fs' : FileSystem) (watch_ok watch_ok' : bool)
    (path path' : string) (ft : FileTailer) :
  resolve fs' path' = resolve fs path ->
  let first := AddFile fs watch_ok path ft in
  (first.1 = Some ErrStat -> first.2 = ft)
  /\ (first.1 <> Some ErrStat ->
      is_Some (states first.2 !! resolve fs path)
      /\ AddFile fs' watch_ok' path' first.2 = (None, first.2))
  /\ (first.1 = Some ErrWatch ->
      goroutines first.2 = goroutines ft
      /\ states ft !! resolve fs path = None)
  /\ (first.1 = None -> states ft !! resolve fs path = None ->
      goroutines first.2 = goroutines ft ++ [Starting (resolve fs path)]).
Proof.
  intros Hres. cbn zeta.
  assert (Hnoop : forall ft0, is_Some (states ft0 !! resolve fs path) ->
            AddFile fs' watch_ok' path' ft0 = (None, ft0)).
  { intros ft0 [st H]. unfold AddFile. by rewrite Hres, H. }
  destruct (AddFile fs watch_ok path ft) as [err ft1] eqn:E. cbn [fst snd].
  unfold AddFile in E.
  destruct (states ft !! resolve fs path) as [st|] eqn:Est.
  - inversion E; subst err ft1. split; [done|]. split; [|done].
    intros _. split; [by rewrite Est | apply Hnoop; by rewrite Est].
  - destruct (names fs !! resolve fs path) as [[dev ino]|];
      [|inversion E; subst err ft1; done].
    destruct (inodes fs !! (dev, ino)) as [f|];
      [|inversion E; subst err ft1; done].
    destruct watch_ok; inversion E; subst err ft1; cbn [states goroutines].
    + split; [done|]. split; [|done]. intros _.
      split; [by rewrite lookup_insert_eq|].
      apply Hnoop. cbn [states]. by rewrite lookup_insert_eq.
    + split; [done|]. split; [|done]. intros _.
      split; [by rewrite lookup_insert_eq|].
      apply Hnoop. cbn [states]. by rewrite lookup_insert_eq.
Qed.

Lemma add_file_witness :
  AddFile two_and_a_half true access_log
    (AddFile two_and_a_half false access_log fresh_tailer).2
  = (None, (AddFile two_and_a_half false access_log fresh_tailer).2)
  /\ goroutines (AddFile two_and_a_half false access_log fresh_tailer).2 = [].
Proof.
  destruct (add_file_acts_once two_and_a_half two_and_a_half false true
              access_log access_log fresh_tailer eq_refl) as (_ & H2 & H3 & _).
  split.
  - apply H2. vm_compute. discriminate.
  - apply H3. vm_compute. reflexivity.
Defined.

End TailerMoreProps.

(** ** Log entries in memory: fields, tags and clones *)

Module EntryProps.

Import Objects ObjectsTags.

(** The scalar members of two entries agree. *)
Definition same_scalars (a b : LogEntry) : Prop :=
  ID a = ID b /\ Timestamp a = Timestamp b /\ Level a = Level b
  /\ Message a = Message b /\ Source a = Source b /\ Host a = Host b
  /\ Service a = Service b /\ Raw a = Raw b.

(** X25: [AddField] followed by [GetField].  On an entry whose [Fields]
    is nil or a map, [AddField] succeeds (allocating the map when it is nil),
    after it [GetField] returns the value just stored under the key, every
    other key reads as before, and the scalar members and the tags of the
    entry are untouched. *)
Theorem add_field_then_get_field (p : nat) (k : string) (v : value) (h : heap)
    (l : LogEntry) (m : gmap string value) :
  entry_at h p = Some l ->
  fields_of h (Fields l) = Some m ->
  (p < next h)%nat ->
  exists h' l',
    AddField p k v h = Some h'
    /\ entry_at h' p = Some l'
    /\ fields_of h' (Fields l') = Some (<[k := v]> m)
    /\ GetField p k h' = Some v
    /\ (forall k', k' <> k -> GetField p k' h' = m !! k')
    /\ same_scalars l' l /\ Tags l' = Tags l.
Proof.
  intros Hl Hm Hp. unfold AddField. rewrite Hl.
  unfold entry_at in Hl.
  destruct (cells h !! p) as [[e| | |]|] eqn:Ep; try discriminate.
  inversion Hl; subst e. clear Hl.
  destruct (Fields l) as [a|] eqn:Ef.
  - cbn [fields_of] in Hm.
    destruct (cells h !! a) as [[|m0| |]|] eqn:Ea; try discriminate.
    inversion Hm; subst m0. clear Hm.
    assert (Hap : a <> p) by (intros ->; congruence).
    unfold map_assign. rewrite Ea.
    exists (store a (OMap (<[k := v]> m)) h), l.
    split; [done|].
    assert (He : entry_at (store a (OMap (<[k := v]> m)) h) p = Some l).
    { unfold entry_at, store. cbn [cells]. by rewrite lookup_insert_ne, Ep. }
    split; [exact He|]. split.
    { rewrite Ef. unfold fields_of, store. cbn [cells]. by rewrite lookup_insert_eq. }
    unfold GetField. rewrite He, Ef. unfold map_index, store. cbn [cells].
    rewrite lookup_insert_eq.
    split; [apply lookup_insert_eq|]. split; [|done].
    intros k' Hk'. by apply lookup_insert_ne.
  - cbn [fields_of] in Hm. inversion Hm; subst m. clear Hm.
    cbn [alloc]. eexists _, _. split; [reflexivity|].
    assert (Hne : next h <> p) by lia.
    unfold entry_at, store. cbn [cells]. rewrite lookup_insert_eq.
    split; [reflexivity|]. cbn [Fields fields_of cells].
    rewrite lookup_insert_ne, lookup_insert_eq by done.
    split; [by rewrite insert_empty|].
    unfold GetField, entry_at, map_index. cbn [cells]. rewrite lookup_insert_eq.
    cbn [Fields]. rewrite lookup_insert_ne, lookup_insert_eq by done.
    split; [apply lookup_singleton_eq|]. split; [|done].
    intros k' Hk'. rewrite lookup_singleton_ne by done. by rewrite lookup_empty.
Qed.

(** X26: a clone reads like its original.  [Clone] of a well-formed
    entry succeeds and returns a new entry with the scalar members of the
    original, a [Fields] map with the same keys and values, so that
    [GetField] gives the same answer on both for every key, and the same
    tags, so that [HasTag] gives the same answer for every tag; the
    original still reads as before.  The clone's [Fields] and [Tags] are
    never nil, even when the original's are. *)
Theorem clone_reads_like_the_original (p : nat) (h : heap) (l : LogEntry)
    (m : gmap string value) (ts : list string) :
  entry_at h p = Some l ->
  fields_of h (Fields l) = Some m ->
  tags_of h (Tags l) = Some ts ->
  (p < next h)%nat ->
  (forall a, Fields l = Some a -> (a < next h)%nat) ->
  (forall t, Tags l = Some t -> (arr t < next h)%nat) ->
  exists c h1 l',
    Clone p h = Some (c, h1)
    /\ c <> p
    /\ entry_at h1 c = Some l'
    /\ same_scalars l' l
    /\ fields_of h1 (Fields l') = Some m
    /\ tags_of h1 (Tags l') = Some ts
    /\ is_Some (Fields l') /\ is_Some (Tags l')
    /\ (forall k, GetField c k h1 = m !! k /\ GetField p k h1 = m !! k)
    /\ (forall tag, HasTag c tag h1 = Some (existsb (String.eqb tag) ts)
                    /\ HasTag p tag h1 = Some (existsb (String.eqb tag) ts))
    /\ entry_at h1 p = Some l.
Proof.
  intros Hl Hm Hts Hp Hfa Hta.
  destruct (CloneProps.Clone_result p h l m ts Hl Hm Hts) as (h1 & HC & Hn & Hc).
  assert (Hold : forall a, (a < next h)%nat -> cells h1 !! a = cells h !! a).
  { intros a Ha. rewrite Hc. by rewrite !lookup_insert_ne by lia. }
  assert (Hentry : entry_at h1 (S (S (next h)))
            = Some {| ID := ID l; Timestamp := Timestamp l;
                      Level := Level l; Message := Message l;
                      Source := Source l; Host := Host l;
                      Service := Service l; Raw := Raw l;
                      Fields := Some (next h);
                      Tags := Some {| arr := S (next h); first := 0%nat;
                                      len := length ts |} |}).
  { unfold entry_at. rewrite Hc. rewrite !lookup_insert_ne by lia.
    by rewrite lookup_insert_eq. }
  assert (Hmap : cells h1 !! next h = Some (OMap m)).
  { rewrite Hc. rewrite lookup_insert_ne by lia. by rewrite lookup_insert_eq. }
  assert (Htags : cells h1 !! S (next h) = Some (OStrings ts)).
  { rewrite Hc. by rewrite lookup_insert_eq. }
  assert (Horig : entry_at h1 p = Some l).
  { unfold entry_at in *. by rewrite Hold. }
  assert (Hof : fields_of h1 (Fields l) = Some m).
  { unfold fields_of in *. destruct (Fields l) as [a|] eqn:Ef; [|done].
    rewrite Hold; [done|]. by apply Hfa. }
  assert (Hot : tags_of h1 (Tags l) = Some ts).
  { unfold tags_of in *. destruct (Tags l) as [t|] eqn:Et; [|done].
    rewrite Hold; [done|]. by apply Hta. }
  eexists _, h1, _. split; [exact HC|]. split; [lia|].
  split; [exact Hentry|]. split; [done|].
  cbn [Fields Tags fields_of tags_of arr first len].
  rewrite Hmap, Htags. split; [done|].
  split; [by rewrite drop_0, firstn_all|].
  split; [done|]. split; [done|]. split; [|split; [|done]].
  - intros k. unfold GetField. rewrite Hentry, Horig. cbn [Fields].
    unfold map_index. rewrite Hmap. split; [done|].
    unfold fields_of in Hof. destruct (Fields l) as [a|]; [|by inversion Hof].
    destruct (cells h1 !! a) as [[|m0| |]|]; try discriminate.
    by inversion Hof.
  - intros tag. unfold HasTag. rewrite Hentry, Horig, Hot.
    cbn [Tags tags_of arr first len]. rewrite Htags.
    by rewrite drop_0, firstn_all.
Qed.

Lemma add_field_witness :
  exists h',
    AddField 3 "user" (VStr "eve") CloneProps.heap0 = Some h'
    /\ GetField 3 "user" h' = Some (VStr "eve")
    /\ GetField 3 "request" h' = Some (VMap 0).
Proof.
  destruct (add_field_then_get_field 3 "user" (VStr "eve") CloneProps.heap0
              CloneProps.original
              {[ "user"%string := VStr "bob"; "request"%string := VMap 0 ]})
    as (h' & l' & H1 & _ & _ & H4 & H5 & _).
  - reflexivity.
  - reflexivity.
  - cbn. lia.
  - exists h'. split; [exact H1|]. split; [exact H4|].
    rewrite H5 by discriminate. reflexivity.
Defined.

Lemma clone_reads_witness :
  exists c h1,
    Clone 3 CloneProps.heap0 = Some (c, h1)
    /\ GetField c "user" h1 = Some (VStr "bob")
    /\ HasTag c "prod" h1 = Some true.
Proof.
  destruct (clone_reads_like_the_original 3 CloneProps.heap0 CloneProps.original
              {[ "user"%string := VStr "bob"; "request"%string := VMap 0 ]}
              ["prod"%string])
    as (c & h1 & l' & H1 & _ & _ & _ & _ & _ & _ & _ & H9 & H10 & _).
  - reflexivity.
  - reflexivity.
  - reflexivity.
  - cbn. lia.
  - intros a Ha. inversion Ha. cbn. lia.
  - intros t Ht. inversion Ht. cbn. lia.
  - exists c, h1. split; [exact H1|].
    split; [rewrite (proj1 (H9 "user"%string)); reflexivity|].
    rewrite (proj1 (H10 "prod"%string)). reflexivity.
Defined.

End EntryProps.

(** ** The field processors *)

Module ProcessorProps.

Import Objects Processor.

(** The entry at [p] is well formed and its fields are [m]. *)
Definition has_fields (h : heap) (p : nat) (m : gmap string value) : Prop :=
  exists l, entry_at h p = Some l /\ fields_of h (Fields l) = Some m
            /\ (p < next h)%nat.

Lemma GetField_has_fields (h : heap) (p : nat) (m : gmap string value) (k : string) :
  has_fields h p m -> GetField p k h = m !! k.
Proof.
  intros (l & Hl & Hm & _). unfold GetField. rewrite Hl.
  unfold fields_of in Hm. destruct (Fields l) as [a|].
  - unfold map_index. destruct (cells h !! a) as [[|m0| |]|]; try discriminate.
    by inversion Hm.
  - inversion Hm. by rewrite lookup_empty.
Qed.

Lemma AddField_has_fields (h : heap) (p : nat) (m : gmap string value)
    (k : string) (v : value) :
  has_fields h p m ->
  exists h', AddField p k v h = Some h' /\ has_fields h' p (<[k := v]> m).
Proof.
  intros (l & Hl & Hm & Hp). unfold AddField. rewrite Hl.
  unfold entry_at in Hl.
  destruct (cells h !! p) as [[e| | |]|] eqn:Ep; try discriminate.
  inversion Hl; subst e. clear Hl.
  destruct (Fields l) as [a|] eqn:Ef.
  - cbn [fields_of] in Hm.
    destruct (cells h !! a) as [[|m0| |]|] eqn:Ea; try discriminate.
    inversion Hm; subst m0. clear Hm.
    assert (Hap : a <> p) by (intros ->; congruence).
    unfold map_assign. rewrite Ea. eexists. split; [reflexivity|].
    exists l. unfold entry_at, store. cbn [cells next].
    rewrite lookup_insert_ne, Ep by done. split; [done|].
    rewrite Ef. cbn [fields_of cells]. by rewrite lookup_insert_eq.
  - cbn [fields_of] in Hm. inversion Hm; subst m. clear Hm.
    cbn [alloc]. eexists. split; [reflexivity|].
    eexists. unfold entry_at, store. cbn [cells next].
    rewrite lookup_insert_eq. split; [reflexivity|].
    cbn [Fields fields_of cells].
    rewrite lookup_insert_ne, lookup_insert_eq by lia.
    split; [by rewrite insert_empty | lia].
Qed.

Lemma delete_field_has_fields (h : heap) (p : nat) (m : gmap string value)
    (k : string) :
  has_fields h p m ->
  exists h', delete_field p k h = Some h' /\ has_fields h' p (delete k m).
Proof.
  intros (l & Hl & Hm & Hp). unfold delete_field. rewrite Hl.
  unfold entry_at in Hl.
  destruct (cells h !! p) as [[e| | |]|] eqn:Ep; try discriminate.
  inversion Hl; subst e. clear Hl.
  destruct (Fields l) as [a|] eqn:Ef.
  - cbn [fields_of] in Hm.
    destruct (cells h !! a) as [[|m0| |]|] eqn:Ea; try discriminate.
    inversion Hm; subst m0. clear Hm.
    assert (Hap : a <> p) by (intros ->; congruence).
    eexists. split; [reflexivity|].
    exists l. unfold entry_at, store. cbn [cells next].
    rewrite lookup_insert_ne, Ep by done. split; [done|].
    rewrite Ef. cbn [fields_of cells]. by rewrite lookup_insert_eq.
  - cbn [fields_of] in Hm. inversion Hm; subst m. clear Hm.
    eexists. split; [reflexivity|]. exists l. unfold entry_at.
    rewrite Ep, Ef. cbn [fields_of]. by rewrite delete_empty.
Qed.

(** What one renaming does to the fields. *)
Definition renamed_one (m : gmap string value) (names : string * string)
    : gmap string value :=
  match m !! names.1 with
  | Some v => delete names.1 (<[names.2 := v]> m)
  | None => m
  end.

Lemma RenameFields_has_fields (mapping : list (string * string)) (h : heap)
    (p : nat) (m : gmap string value) :
  has_fields h p m ->
  exists h', RenameFields_Process mapping p h = Some h'
             /\ has_fields h' p (foldl renamed_one m mapping).
Proof.
  unfold RenameFields_Process. revert h m.
  induction mapping as [|[o n] mapping IH]; intros h m Hwf.
  - by exists h.
  - cbn [foldl]. unfold rename_one at 2. cbn [mbind option_bind fst snd].
    rewrite (GetField_has_fields h p m o Hwf). unfold renamed_one at 2.
    cbn [fst snd]. destruct (m !! o) as [v|] eqn:Eo.
    + destruct (AddField_has_fields h p m n v Hwf) as (h1 & H1 & Hwf1).
      rewrite H1. cbn [mbind option_bind].
      destruct (delete_field_has_fields h1 p _ o Hwf1) as (h2 & H2 & Hwf2).
      rewrite H2. by apply IH.
    + by apply IH.
Qed.

(** The mapping as a processor is configured with it: no field name
    occurs twice as a key or twice as a new name, and no new name is also a
    key. *)
Definition plain_mapping (mapping : list (string * string)) : Prop :=
  NoDup (fst <$> mapping) /\ NoDup (snd <$> mapping)
  /\ forall o n, o ∈ fst <$> mapping -> n ∈ snd <$> mapping -> o <> n.

Lemma renamed_lookup (mapping : list (string * string)) (m : gmap string value)
    (k : string) :
  plain_mapping mapping ->
  let m' := foldl renamed_one m mapping in
  (k ∈ fst <$> mapping -> m' !! k = None)
  /\ (forall o, (o, k) ∈ mapping -> is_Some (m !! o) -> m' !! k = m !! o)
  /\ (k ∉ fst <$> mapping ->
      (forall o, (o, k) ∈ mapping -> m !! o = None) -> m' !! k = m !! k).
Proof.
  revert m. induction mapping as [|[o n] mapping IH]; intros m Hplain; cbn zeta.
  - cbn. split; [intros H; by apply elem_of_nil in H|].
    split; [intros o H; by apply elem_of_nil in H | done].
  - destruct Hplain as (Hnd1 & Hnd2 & Hdisj).
    rewrite !fmap_cons in Hnd1, Hnd2. cbn [fst snd] in Hnd1, Hnd2.
    apply NoDup_cons in Hnd1 as [Ho Hnd1]. apply NoDup_cons in Hnd2 as [Hn Hnd2].
    assert (Hon : o <> n).
    { apply Hdisj; rewrite fmap_cons; by left. }
    assert (Hplain' : plain_mapping mapping).
    { split; [done|]. split; [done|]. intros o' n' Ho' Hn'.
      apply Hdisj; rewrite fmap_cons; by right. }
    assert (Hn_old : n ∉ fst <$> mapping).
    { intros H.
      apply (Hdisj n n); [rewrite fmap_cons; by right | rewrite fmap_cons; by left | done]. }
    assert (Ho_new : o ∉ snd <$> mapping).
    { intros H.
      apply (Hdisj o o); [rewrite fmap_cons; by left | rewrite fmap_cons; by right | done]. }
    cbn [foldl]. set (m1 := renamed_one m (o, n)).
    destruct (IH m1 Hplain') as (I1 & I2 & I3). cbn zeta in I1, I2, I3.
    assert (Hm1 : forall x, x <> o -> x <> n -> m1 !! x = m !! x).
    { intros x Hxo Hxn. subst m1. unfold renamed_one. cbn [fst snd].
      destruct (m !! o); [|done].
      by rewrite lookup_delete_ne, lookup_insert_ne. }
    assert (Hm1o : m1 !! o = None).
    { subst m1. unfold renamed_one. cbn [fst snd].
      destruct (m !! o) eqn:E; [apply lookup_delete_eq | done]. }
    assert (Hm1n : m1 !! n = match m !! o with Some v => Some v | None => m !! n end).
    { subst m1. unfold renamed_one. cbn [fst snd].
      destruct (m !! o); [|done].
      by rewrite lookup_delete_ne, lookup_insert_eq. }
    assert (Hold : forall o' k', (o', k') ∈ mapping -> m1 !! o' = m !! o').
    { intros o' k' Hin. apply Hm1.
      - intros ->. apply Ho. apply list_elem_of_fmap. by exists (o, k').
      - intros ->. apply Hn_old. apply list_elem_of_fmap. by exists (n, k'). }
    split; [|split].
    + rewrite fmap_cons. cbn [fst]. intros Hk.
      apply elem_of_cons in Hk as [->|Hk]; [|by apply I1].
      rewrite I3; [done | done |].
      intros o' Hin. exfalso. apply Ho_new.
      apply list_elem_of_fmap. by exists (o', o).
    + intros o' Hin Hsome. apply elem_of_cons in Hin as [Heq|Hin].
      * inversion Heq; subst o' k. rewrite I3; [| done |].
        -- rewrite Hm1n. by destruct Hsome as [v ->].
        -- intros o' Hin. exfalso. apply Hn.
           apply list_elem_of_fmap. by exists (o', n).
      * rewrite (I2 o' Hin); rewrite (Hold o' k Hin); done.
    + rewrite fmap_cons. cbn [fst]. intros Hk Hnone.
      apply not_elem_of_cons in Hk as [Hko Hk].
      rewrite I3; [| done |].
      * destruct (decide (k = n)) as [->|Hkn]; [|by apply Hm1].
        rewrite Hm1n. by rewrite (Hnone o) by (by left).
      * intros o' Hin. rewrite (Hold o' k Hin). apply Hnone. by right.
Qed.

(** X27: [RenameFieldsProcessor.Process] with a mapping in which no name
    is used twice and no new name is also a key.  Whatever the order in
    which the mapping is visited, the call succeeds, every key of the
    mapping is gone from the fields, a new name carries the value its key
    had (replacing a value the entry had under the new name), and every
    other field is as it was; so the result does not depend on the order.
    A mapping of a name to itself is not of that kind: it deletes the
    field. *)
Theorem rename_fields_moves_values (mapping : list (string * string))
    (p : nat) (h : heap) (m : gmap string value) :
  has_fields h p m ->
  plain_mapping mapping ->
  exists h' m',
    RenameFields_Process mapping p h = Some h'
    /\ has_fields h' p m'
    /\ (forall k, k ∈ fst <$> mapping -> m' !! k = None)
    /\ (forall o n, (o, n) ∈ mapping -> is_Some (m !! o) -> m' !! n = m !! o)
    /\ (forall k, k ∉ fst <$> mapping ->
          (forall o, (o, k) ∈ mapping -> m !! o = None) -> m' !! k = m !! k)
    /\ (forall mapping' h'',
          mapping' ≡ₚ mapping ->
          RenameFields_Process mapping' p h = Some h'' -> has_fields h'' p m')
    /\ (forall a h'',
          RenameFields_Process [(a, a)] p h = Some h'' ->
          has_fields h'' p (delete a m)).
Proof.
  intros Hwf Hplain.
  destruct (RenameFields_has_fields mapping h p m Hwf) as (h' & Hrun & Hwf').
  exists h', (foldl renamed_one m mapping).
  split; [done|]. split; [done|].
  split; [intros k; apply (renamed_lookup mapping m k Hplain)|].
  split; [intros o n; apply (renamed_lookup mapping m n Hplain)|].
  split; [intros k; apply (renamed_lookup mapping m k Hplain)|].
  split.
  - intros mapping' h'' Hperm Hrun'.
    destruct (RenameFields_has_fields mapping' h p m Hwf) as (h2 & Hrun2 & Hwf2).
    rewrite Hrun' in Hrun2. inversion Hrun2; subst h2.
    assert (Hplain2 : plain_mapping mapping').
    { destruct Hplain as (H1 & H2 & H3).
      split; [by rewrite Hperm|]. split; [by rewrite Hperm|].
      intros o n. rewrite Hperm. apply H3. }
    replace (foldl renamed_one m mapping) with (foldl renamed_one m mapping');
      [done|].
    apply map_eq. intros k.
    destruct (renamed_lookup mapping m k Hplain) as (A1 & A2 & A3).
    destruct (renamed_lookup mapping' m k Hplain2) as (B1 & B2 & B3).
    cbn zeta in *.
    destruct (decide (k ∈ fst <$> mapping)) as [Hk|Hk].
    { rewrite A1 by done. apply B1. by rewrite Hperm. }
    destruct (decide (Exists (fun on => on.2 = k /\ is_Some (m !! on.1)) mapping))
      as [Hyes|Hno].
    { apply Exists_exists in Hyes as ([o k'] & Hin & Hk' & Hs).
      cbn [fst snd] in Hk', Hs. subst k'.
      rewrite (A2 o Hin Hs). apply B2; [by rewrite Hperm | done]. }
    assert (Hnone : forall o, (o, k) ∈ mapping -> m !! o = None).
    { intros o Hin. destruct (m !! o) eqn:E; [|done].
      exfalso. apply Hno. apply Exists_exists. exists (o, k).
      split; [done|]. cbn [fst snd]. by rewrite E. }
    rewrite A3 by done. apply B3; [by rewrite Hperm|].
    intros o Hin. apply Hnone. by rewrite <- Hperm.
  - intros a h'' Hrun'.
    destruct (RenameFields_has_fields [(a, a)] h p m Hwf) as (h2 & Hrun2 & Hwf2).
    rewrite Hrun' in Hrun2. inversion Hrun2; subst h2.
    cbn in Hwf2. unfold renamed_one in Hwf2. cbn [fst snd] in Hwf2.
    destruct (m !! a) eqn:E.
    + by rewrite delete_insert_eq in Hwf2.
    + by rewrite delete_id.
Qed.

Lemma rename_fields_witness :
  exists h',
    RenameFields_Process [("user", "username")]%string 3 CloneProps.heap0 = Some h'
    /\ GetField 3 "username" h' = Some (VStr "bob")
    /\ GetField 3 "user" h' = None
    /\ GetField 3 "request" h' = Some (VMap 0).
Proof.
  destruct (rename_fields_moves_values [("user", "username")]%string 3
              CloneProps.heap0
              {[ "user"%string := VStr "bob"; "request"%string := VMap 0 ]})
    as (h' & m' & H1 & H2 & H3 & H4 & H5 & _).
  - exists CloneProps.original. split; [reflexivity|]. split; [reflexivity|].
    cbn. lia.
  - split; [apply NoDup_singleton|]. split; [apply NoDup_singleton|].
    intros o n Ho Hn. apply list_elem_of_singleton in Ho, Hn. by subst.
  - exists h'. split; [exact H1|].
    rewrite !(GetField_has_fields h' 3 m' _ H2).
    split; [rewrite (H4 "user"%string "username"%string); [reflexivity | by left | by eexists]|].
    split; [apply H3; by left|].
    rewrite H5; [reflexivity | |].
    + intros Hin. apply list_elem_of_singleton in Hin. discriminate.
    + intros o Hin. apply list_elem_of_singleton in Hin. discriminate.
Defined.

End ProcessorProps.

(** ** The pipeline workers *)

Module PipelineProps.

Import Models Pipeline.

Definition is_holding (w : worker) : bool :=
  match w with Holding _ _ => true | _ => false end.

(** Number of workers with an entry in hand. *)
Definition in_hand (ws : list worker) : Z :=
  Z.of_nat (length (filter (fun w => is_holding w = true) ws)).

Lemma in_hand_insert (ws : list worker) (i : nat) (w w' : worker) :
  ws !! i = Some w ->
  in_hand (<[i := w']> ws)
  = in_hand ws - (if is_holding w then 1 else 0) + (if is_holding w' then 1 else 0).
Proof.
  revert i. induction ws as [|x ws IH]; intros i Hi; [done|].
  destruct i as [|i]; cbn in Hi.
  - inversion Hi; subst x. unfold in_hand. cbn [insert list_insert].
    rewrite !filter_cons.
    repeat case_decide; destruct (is_holding w), (is_holding w');
      try done; cbn [length]; lia.
  - change (<[S i := w']> (x :: ws)) with (x :: <[i := w']> ws).
    specialize (IH i Hi). unfold in_hand in *.
    rewrite !filter_cons. destruct (decide (is_holding x = true)); cbn [length]; rewrite ?Nat2Z.inj_succ; destruct (is_holding w), (is_holding w'); lia.
Qed.

(** The entries of [taken] on which [processEntry] returns an error. *)
Definition rejected (p : Pipeline) : list LogEntry :=
  filter (fun e => processEntry (parser p) (processors p) e = None) (taken p).

(** The bookkeeping of the workers. *)
Definition accounted (p : Pipeline) : Prop :=
  0 <= Processed (stats p) /\ 0 <= Dropped (stats p)
  /\ Processed (stats p) = Z.of_nat (length (sent p))
  /\ Failed (stats p) = Z.of_nat (length (rejected p))
  /\ Processed (stats p) + Failed (stats p) + Dropped (stats p)
     + in_hand (workers p) + Z.of_nat (length (abandoned p))
     = Z.of_nat (length (taken p))
  /\ (forall e', e' ∈ sent p \/ e' ∈ abandoned p
                 \/ (exists i start, workers p !! i = Some (Holding e' start)) ->
        exists e, e ∈ taken p
                  /\ processEntry (parser p) (processors p) e = Some e').

Lemma wrapu64_small (z : Z) : 0 <= z < 2 ^ 64 -> Go.wrapu64 z = z.
Proof. intros H. unfold Go.wrapu64. by apply Z.mod_small. Qed.

Lemma act_taken (p : Pipeline) (a : action) :
  (length (taken p) <= length (taken (act p a)))%nat
  /\ parser (act p a) = parser p /\ processors (act p a) = processors p.
Proof.
  destruct a as [i c t|i c t t'|e|n| |]; cbn [act]; try done.
  - unfold receive. destruct (workers p !! i) as [[| |]|]; try done.
    destruct (ctx_done p && _); [done|].
    destruct (input p) as [|e rest]; [by destruct (input_closed p)|].
    destruct (processEntry _ _ e); cbn; rewrite length_app; cbn;
      (split; [lia | done]).
  - unfold deliver. destruct (workers p !! i) as [[|e s|]|]; try done.
    destruct (_ && _); [done|]. by destruct (ctx_done p).
Qed.

Lemma act_accounted (p : Pipeline) (a : action) :
  accounted p ->
  Z.of_nat (length (taken (act p a))) < 2 ^ 64 ->
  accounted (act p a).
Proof.
  intros (Hp & Hd & Hsent & Hfail & Hsum & Horigin) Hbound.
  assert (Hh : 0 <= in_hand (workers p)) by (unfold in_hand; lia).
  destruct a as [i c t|i c t t'|e|n| |]; cbn [act] in *;
    try (split; [done|]; split; [done|]; split; [done|]; split; [done|];
         split; [done|]; exact Horigin).
  - unfold receive in *. destruct (workers p !! i) as [[| |]|] eqn:Ew;
      try (split; [done|]; split; [done|]; split; [done|]; split; [done|];
           split; [done|]; exact Horigin).
    assert (Hret : accounted
              (update p (input p) (output p) (stats p)
                      (<[i := Returned]> (workers p))
                      (taken p) (sent p) (abandoned p))).
    { split; [done|]. split; [done|]. split; [done|]. split; [done|].
      cbn [update stats workers abandoned taken sent parser processors].
      split; [rewrite (in_hand_insert _ _ Idle) by done; cbn; lia|].
      intros e' [H|[H|(j & s & H)]]; apply Horigin; [by left | right; by left |].
      right. right. exists j, s.
      destruct (decide (i = j)) as [->|Hne].
      - rewrite list_lookup_insert_eq in H by (by eapply lookup_lt_Some). done.
      - by rewrite list_lookup_insert_ne in H. }
    destruct (ctx_done p && _); [exact Hret|].
    destruct (input p) as [|e rest]; [destruct (input_closed p); [exact Hret|]|].
    { split; [done|]. split; [done|]. split; [done|]. split; [done|].
      split; [done|]. exact Horigin. }
    destruct (processEntry (parser p) (processors p) e) as [e'|] eqn:Epe;
      unfold accounted;
      cbn [update stats workers abandoned taken sent parser processors
           recordFailure Processed Failed Dropped] in *.
    + rewrite length_app in Hbound. cbn [length] in Hbound.
      split; [done|]. split; [done|]. split; [done|]. split.
      { unfold rejected. cbn [taken parser processors update]. rewrite filter_app.
        rewrite filter_cons, decide_False by congruence.
        rewrite filter_nil, app_nil_r. exact Hfail. }
      split.
      { rewrite (in_hand_insert _ _ Idle) by done. rewrite length_app. cbn. lia. }
      intros e2 [H|[H|(j & s & H)]].
      * destruct (Horigin e2) as (e0 & H1 & H2); [by left|].
        exists e0. split; [apply elem_of_app; by left | done].
      * destruct (Horigin e2) as (e0 & H1 & H2); [right; by left|].
        exists e0. split; [apply elem_of_app; by left | done].
      * destruct (decide (i = j)) as [->|Hne].
        -- rewrite list_lookup_insert_eq in H by (by eapply lookup_lt_Some).
           inversion H; subst e2. exists e.
           split; [apply elem_of_app; right; by left | done].
        -- rewrite list_lookup_insert_ne in H by done.
           destruct (Horigin e2) as (e0 & H1 & H2); [right; right; by exists j, s|].
           exists e0. split; [apply elem_of_app; by left | done].
    + rewrite length_app in Hbound. cbn [length] in Hbound.
      assert (Hrej : rejected
                (update p rest (output p) (recordFailure (stats p)) (workers p)
                        (taken p ++ [e]) (sent p) (abandoned p))
              = rejected p ++ [e]).
      { unfold rejected. cbn [taken parser processors update]. rewrite filter_app.
        by rewrite filter_cons, decide_True by done. }
      assert (Hf1 : Go.wrapu64 (Failed (stats p) + 1) = Failed (stats p) + 1).
      { apply wrapu64_small. lia. }
      split; [done|]. split; [done|]. split; [done|]. split.
      { unfold rejected in *. cbn [taken parser processors update] in *.
        rewrite Hrej, length_app, Hf1. cbn. lia. }
      split.
      { rewrite Hf1, length_app. cbn. lia. }
      intros e2 H. destruct (Horigin e2 H) as (e0 & H1 & H2).
      exists e0. split; [apply elem_of_app; by left | done].
  - unfold deliver in *. destruct (workers p !! i) as [[|e s|]|] eqn:Ew;
      try (split; [done|]; split; [done|]; split; [done|]; split; [done|];
           split; [done|]; exact Horigin).
    assert (Hin : forall w' e2,
              (e2 ∈ sent p \/ e2 ∈ abandoned p \/ e2 = e
               \/ exists j s', <[i := w']> (workers p) !! j = Some (Holding e2 s')
                               /\ i <> j) ->
              exists e0, e0 ∈ taken p
                         /\ processEntry (parser p) (processors p) e0 = Some e2).
    { intros w' e2 [H|[H|[->|(j & s' & H & Hne)]]].
      - apply Horigin. by left.
      - apply Horigin. right. by left.
      - apply Horigin. right. right. by exists i, s.
      - rewrite list_lookup_insert_ne in H by done.
        apply Horigin. right. right. by exists j, s'. }
    destruct ((length (output p) <? output_cap p)%nat && negb (ctx_done p && c)).
    + unfold accounted.
      cbn [update stats workers abandoned taken sent parser processors
           recordSuccess Processed Failed Dropped] in *.
      assert (Hp1 : Go.wrapu64 (Processed (stats p) + 1) = Processed (stats p) + 1).
      { apply wrapu64_small.
        pose proof (in_hand_insert (workers p) i (Holding e s) Idle Ew) as Hi.
        cbn in Hi. assert (1 <= in_hand (workers p)).
        { assert (0 <= in_hand (<[i:=Idle]> (workers p))) by (unfold in_hand; lia).
          lia. }
        lia. }
      rewrite Hp1. split; [lia|]. split; [done|].
      split; [rewrite length_app; cbn; lia|]. split; [done|]. split.
      { rewrite (in_hand_insert _ _ (Holding e s)) by done. cbn. lia. }
      intros e2 [H|[H|(j & s' & H)]].
      * apply elem_of_app in H as [H|H]; [apply (Hin Idle); by left|].
        apply list_elem_of_singleton in H. apply (Hin Idle). right. right. by left.
      * apply (Hin Idle). right. by left.
      * destruct (decide (i = j)) as [->|Hne].
        -- rewrite list_lookup_insert_eq in H by (by eapply lookup_lt_Some). done.
        -- apply (Hin Idle). right. right. right. by exists j, s'.
    + destruct (ctx_done p).
      * unfold accounted.
        cbn [update stats workers abandoned taken sent parser processors] in *.
        split; [done|]. split; [done|]. split; [done|]. split; [done|]. split.
        { rewrite (in_hand_insert _ _ (Holding e s)) by done.
          rewrite length_app. cbn. lia. }
        intros e2 [H|[H|(j & s' & H)]].
        -- apply (Hin Returned). by left.
        -- apply elem_of_app in H as [H|H]; [apply (Hin Returned); right; by left|].
           apply list_elem_of_singleton in H. apply (Hin Returned).
           right. right. by left.
        -- destruct (decide (i = j)) as [->|Hne].
           ++ rewrite list_lookup_insert_eq in H by (by eapply lookup_lt_Some). done.
           ++ apply (Hin Returned). right. right. right. by exists j, s'.
      * unfold accounted.
        cbn [update stats workers abandoned taken sent parser processors
             recordDrop Processed Failed Dropped] in *.
        assert (Hd1 : Go.wrapu64 (Dropped (stats p) + 1) = Dropped (stats p) + 1).
        { apply wrapu64_small.
          pose proof (in_hand_insert (workers p) i (Holding e s) Idle Ew) as Hi.
          cbn in Hi. assert (1 <= in_hand (workers p)).
          { assert (0 <= in_hand (<[i:=Idle]> (workers p))) by (unfold in_hand; lia).
            lia. }
          lia. }
        rewrite Hd1. split; [done|]. split; [lia|]. split; [done|].
        split; [done|]. split.
        { rewrite (in_hand_insert _ _ (Holding e s)) by done. cbn. lia. }
        intros e2 [H|[H|(j & s' & H)]].
        -- apply (Hin Idle). by left.
        -- apply (Hin Idle). right. by left.
        -- destruct (decide (i = j)) as [->|Hne].
           ++ rewrite list_lookup_insert_eq in H by (by eapply lookup_lt_Some). done.
           ++ apply (Hin Idle). right. right. right. by exists j, s'.
Qed.

Lemma New_accounted (parse : option stage) (procs : list stage) (cap n : nat) :
  accounted (New parse procs cap n).
Proof.
  unfold accounted, rejected, New. cbn.
  assert (Hn : in_hand (replicate n Idle) = 0).
  { unfold in_hand. induction n as [|n IH]; [done|].
    cbn [replicate]. by rewrite filter_cons, decide_False by done. }
  rewrite Hn. repeat split; try done.
  intros e' [H|[H|(i & s & H)]]; try by apply elem_of_nil in H.
  apply lookup_replicate in H as [H _]. discriminate.
Qed.

Lemma run_accounted (p : Pipeline) (acts : list action) :
  accounted p ->
  Z.of_nat (length (taken (foldl act p acts))) < 2 ^ 64 ->
  accounted (foldl act p acts)
  /\ parser (foldl act p acts) = parser p
  /\ processors (foldl act p acts) = processors p.
Proof.
  intros Hp. induction acts as [|a acts IH] using rev_ind; [done|].
  rewrite foldl_app. cbn [foldl]. intros Hb.
  destruct (act_taken (foldl act p acts) a) as (Hlen & Hpa & Hpr).
  destruct IH as (IH & IHp & IHr); [lia|].
  split; [by apply act_accounted|]. split; congruence.
Qed.

(** A processor that fails on an entry without a message. *)
Definition needs_message : stage :=
  fun e => if String.eqb (Message e) "" then None else Some e.

(** A processor that marks the entries it has seen. *)
Definition mark : stage :=
  fun e => Some (mkLogEntry (ID e) (Timestamp e) (Level e) (Message e)
                            (Source e) (Host e) (Service e) (Fields e)
                            ("seen" :: Tags e) (Raw e)).

Definition record (i msg : string) : LogEntry :=
  mkLogEntry i 1000 LogLevelInfo msg "app.log" "web-1" "api" [] [] msg.

(** Two workers and an output channel with room for one entry: three
    entries arrive, the first is sent, the second is dropped because the
    output is full, the third fails in the processors. *)
Definition busy_day : list action :=
  [Produce (record "a" "started"); Produce (record "b" "listening");
   Produce (record "c" ""); Receive 0 false 10; Receive 1 false 11;
   Deliver 0 false 12 13; Deliver 1 false 14 15; Receive 0 false 16].

(** X28: the counters of a pipeline account for every entry its workers
    received.  Whatever the workers, the receiver, the storage writer and
    [Stop] do, in any interleaving, starting from a new pipeline and as
    long as fewer than 2^64 entries were received: [Processed] is the
    number of entries sent on the output channel, [Failed] is the number of
    received entries on which the parser or a processor returned an error,
    and every received entry is counted exactly once as processed, failed
    or dropped, unless a worker still has it in hand or had it in hand when
    it returned on cancellation.  Every entry sent on the output channel is
    the result of the parser and all processors on a received entry. *)
Theorem pipeline_counters_account_for_every_entry (parse : option stage)
    (procs : list stage) (cap n : nat) (acts : list action) :
  let p := foldl act (New parse procs cap n) acts in
  Z.of_nat (length (taken p)) < 2 ^ 64 ->
  Processed (GetStats p) = Z.of_nat (length (sent p))
  /\ Failed (GetStats p)
     = Z.of_nat (length (filter (fun e => processEntry parse procs e = None)
                                (taken p)))
  /\ 0 <= Dropped (GetStats p)
  /\ Processed (GetStats p) + Failed (GetStats p) + Dropped (GetStats p)
     + in_hand (workers p) + Z.of_nat (length (abandoned p))
     = Z.of_nat (length (taken p))
  /\ (forall e', e' ∈ sent p ->
        exists e, e ∈ taken p /\ processEntry parse procs e = Some e').
Proof.
  intros p Hb.
  destruct (run_accounted (New parse procs cap n) acts (New_accounted _ _ _ _) Hb)
    as ((Hp & Hd & Hsent & Hfail & Hsum & Horigin) & Hpa & Hpr).
  fold p in Hp, Hd, Hsent, Hfail, Hsum, Horigin, Hpa, Hpr.
  unfold rejected in Hfail. rewrite Hpa, Hpr in Hfail.
  unfold GetStats. split; [done|]. split; [done|]. split; [done|].
  split; [done|]. intros e' He'.
  destruct (Horigin e') as (e & H1 & H2); [by left|].
  rewrite Hpa, Hpr in H2. by exists e.
Qed.

Lemma pipeline_counters_witness :
  let p := foldl act (New None [needs_message; mark] 1 2) busy_day in
  GetStats p = mkPipelineStats 1 1 1 2 13
  /\ Z.of_nat (length (sent p)) = 1
  /\ Processed (GetStats p) + Failed (GetStats p) + Dropped (GetStats p)
     + in_hand (workers p) + Z.of_nat (length (abandoned p)) = 3.
Proof.
  intros p.
  destruct (pipeline_counters_account_for_every_entry
              None [needs_message; mark] 1 2 busy_day)
    as (H1 & _ & _ & H4 & _).
  - vm_compute. reflexivity.
  - fold p in H1, H4. split; [vm_compute; reflexivity|].
    split; [rewrite <- H1; vm_compute; reflexivity|].
    rewrite H4. vm_compute. reflexivity.
Defined.

End PipelineProps.

(** ** The agent's memory buffer *)

Module BufferProps.

Import Models Buffer.

(** What is done to a buffer. *)
Inductive operation :=
  | OpAdd (w : world) (entry : LogEntry)
  | OpAddBatch (w : nat -> world) (batch : list LogEntry)
  | OpRemove (ids : list string).

Definition run (mb : MemoryBuffer) (o : operation) : MemoryBuffer :=
  match o with
  | OpAdd w entry => (Add w entry mb).2
  | OpAddBatch w batch => (AddBatch w 0 batch mb).2
  | OpRemove ids => Remove ids mb
  end.

(** The files a history of writes leaves: the last write under a name is
    the one that counts. *)
Definition disk_of (history : list (string * file)) : gmap string file :=
  list_to_map (reverse history).

Lemma disk_of_snoc (history : list (string * file)) (name : string) (f : file) :
  disk_of (history ++ [(name, f)]) = <[name := f]> (disk_of history).
Proof. unfold disk_of. by rewrite reverse_app. Qed.

Lemma disk_of_distinct (history : list (string * file)) (name : string) (f : file) :
  NoDup (fst <$> history) -> (name, f) ∈ history ->
  disk_of history !! name = Some f.
Proof.
  intros Hnd Hin. unfold disk_of. apply elem_of_list_to_map_1.
  - by rewrite fmap_reverse, reverse_Permutation.
  - by apply elem_of_reverse.
Qed.

Lemma disk_of_written (history : list (string * file)) (name : string) (f : file) :
  disk_of history !! name = Some f -> (name, f) ∈ history.
Proof.
  unfold disk_of. intros H. apply elem_of_list_to_map_2 in H.
  by apply (proj1 (elem_of_reverse _ _)).
Qed.

(** The files are what the writes have left. *)
Definition files_follow_writes (mb : MemoryBuffer) : Prop :=
  files mb = disk_of (written mb).

(** The entries the spills have moved out of memory, in order. *)
Definition spilled (mb : MemoryBuffer) : list LogEntry :=
  concat ((fun nf => default [] nf.2) <$> written mb).

(** The entries a buffer has taken in and not given up by [Remove]: those
    moved out by a spill, then those in memory. *)
Definition held (mb : MemoryBuffer) : list LogEntry :=
  spilled mb ++ entries mb.

(** An entry is in one of the overflow files. *)
Definition on_disk (mb : MemoryBuffer) (e : LogEntry) : Prop :=
  exists name content, files mb !! name = Some (Some content) /\ e ∈ content.

Lemma spilled_snoc (mb : MemoryBuffer) (history : list (string * file))
    (name : string) (f : file) :
  concat ((fun nf => default [] nf.2) <$> (history ++ [(name, f)]))
  = concat ((fun nf => default [] nf.2) <$> history) ++ default [] f.
Proof. rewrite fmap_app, concat_app. cbn. by rewrite app_nil_r. Qed.

Lemma Add_invariant (w : world) (entry : LogEntry) (mb : MemoryBuffer) :
  1 <= maxEntries mb ->
  Z.of_nat (length (entries mb)) <= maxEntries mb ->
  let r := Add w entry mb in
  maxEntries r.2 = maxEntries mb
  /\ Z.of_nat (length (entries r.2)) <= maxEntries mb
  /\ (r.1 = None -> held r.2 = held mb ++ [entry])
  /\ (r.1 <> None -> held r.2 = held mb /\ entries r.2 = entries mb)
  /\ (fault w = None -> r.1 = None)
  /\ (files_follow_writes mb -> files_follow_writes r.2).
Proof.
  intros Hmax Hlen. cbn zeta. unfold Add, spillToDisk.
  destruct (maxEntries mb <=? Z.of_nat (length (entries mb))) eqn:Ef.
  - apply Z.leb_le in Ef.
    destruct (entries mb) as [|e es] eqn:Ee; [cbn in Ef; lia|].
    destruct (fault w) as [[| |[|]]|]; cbn [fst snd entries maxEntries].
    + split; [done|]. split; [by rewrite Ee|]. split; [done|].
      split; [|split; [done|]]; [|done]. by rewrite Ee.
    + split; [done|]. split; [by rewrite Ee|]. split; [done|].
      split; [|split; [done|]]; [|done]. by rewrite Ee.
    + split; [done|]. split; [exact Hlen|]. split; [done|].
      split; [|split; [done|]].
      * intros _. split; [|done]. unfold held, spilled. cbn [written entries].
        rewrite (spilled_snoc mb). cbn. by rewrite app_nil_r, Ee.
      * unfold files_follow_writes. cbn [files written]. intros ->.
        by rewrite disk_of_snoc.
    + split; [done|]. split; [by rewrite Ee|]. split; [done|].
      split; [|split; [done|]]; [|done]. by rewrite Ee.
    + split; [done|]. split; [cbn; lia|]. split; [|split; [done|split; [done|]]].
      * intros _. unfold held, spilled. cbn [written entries].
        rewrite (spilled_snoc mb). cbn [default]. by rewrite Ee.
      * unfold files_follow_writes. cbn [files written]. intros ->.
        by rewrite disk_of_snoc.
  - apply Z.leb_gt in Ef. cbn [fst snd entries maxEntries].
    split; [done|]. split; [rewrite length_app; cbn; lia|].
    split; [|split; [done|split; [done|done]]].
    intros _. unfold held, spilled. cbn [written entries]. by rewrite app_assoc.
Qed.

Lemma AddBatch_invariant (w : nat -> world) (k : nat) (batch : list LogEntry)
    (mb : MemoryBuffer) :
  1 <= maxEntries mb ->
  Z.of_nat (length (entries mb)) <= maxEntries mb ->
  let r := AddBatch w k batch mb in
  maxEntries r.2 = maxEntries mb
  /\ Z.of_nat (length (entries r.2)) <= maxEntries mb
  /\ (files_follow_writes mb -> files_follow_writes r.2)
  /\ ((forall i, fault (w i) = None) -> r.1 = None)
  /\ exists taken, taken `prefix_of` batch
                   /\ held r.2 = held mb ++ taken
                   /\ (r.1 = None -> taken = batch).
Proof.
  revert k mb. induction batch as [|e batch IH]; intros k mb Hmax Hlen; cbn zeta.
  - cbn. split; [done|]. split; [done|]. split; [done|]. split; [done|].
    exists []. by rewrite app_nil_r.
  - cbn [AddBatch].
    destruct (Add_invariant (w k) e mb Hmax Hlen)
      as (Hm & Hl & Hok & Hfail & Hnone & Hfw).
    destruct (Add (w k) e mb) as [[err|] mb1]; cbn [fst snd] in *.
    + split; [done|]. split; [done|]. split; [done|].
      split; [intros Hw; by specialize (Hnone (Hw k))|].
      exists []. rewrite app_nil_r. split; [apply prefix_nil|].
      split; [by apply Hfail | done].
    + destruct (IH (S k) mb1) as (Hm2 & Hl2 & Hfw2 & Hnone2 & taken & Hp & Hh & Hall);
        [lia | lia |].
      split; [lia|]. split; [lia|]. split; [by intros H; apply Hfw2, Hfw|].
      split; [exact Hnone2|].
      exists (e :: taken). split; [by apply prefix_cons|].
      split; [rewrite Hh, Hok by done; by rewrite <- app_assoc|].
      intros H. by rewrite Hall.
Qed.

(** [New] gives a memory buffer room for at least one entry. *)
Lemma memory_capacity_pos (MaxSize : Z) : 1 <= memory_capacity MaxSize.
Proof. unfold memory_capacity. destruct (MaxSize <=? 0) eqn:E; lia. Qed.

(** With every overflow file written once, what the buffer holds is in
    memory or in a file. *)
Lemma held_on_disk (mb : MemoryBuffer) (e : LogEntry) :
  files_follow_writes mb -> NoDup (fst <$> written mb) ->
  e ∈ held mb -> e ∈ entries mb \/ on_disk mb e.
Proof.
  intros Hfw Hnd He. unfold held in He. apply elem_of_app in He as [He|He];
    [|by left].
  right. unfold spilled in He. apply list_elem_of_In, in_concat in He.
  destruct He as (c & Hc & He). apply list_elem_of_In in Hc, He.
  apply list_elem_of_fmap in Hc as ([name f] & -> & Hin). cbn [snd] in He.
  destruct f as [content|]; cbn [default] in He; [|by apply elem_of_nil in He].
  exists name, content. split; [|done]. rewrite Hfw. by apply disk_of_distinct.
Qed.

Lemma on_disk_held (mb : MemoryBuffer) (e : LogEntry) :
  files_follow_writes mb -> on_disk mb e -> e ∈ held mb.
Proof.
  intros Hfw (name & content & Hf & He). rewrite Hfw in Hf.
  apply disk_of_written in Hf. unfold held, spilled. apply elem_of_app. left.
  apply list_elem_of_In, in_concat. exists content.
  split; [|by apply list_elem_of_In]. apply list_elem_of_In.
  apply list_elem_of_fmap. by exists (name, Some content).
Qed.

Lemma run_invariant (cap : Z) (dir : string) (ops : list operation) :
  1 <= cap ->
  let mb := foldl run (NewMemoryBuffer cap dir) ops in
  maxEntries mb = cap /\ Z.of_nat (length (entries mb)) <= cap
  /\ files_follow_writes mb.
Proof.
  intros Hcap. cbn zeta. induction ops as [|o ops IH] using rev_ind.
  - cbn. split; [done|]. split; [lia | done].
  - rewrite foldl_app. cbn [foldl].
    set (mb := foldl run (NewMemoryBuffer cap dir) ops) in *.
    destruct IH as (Hm & Hl & Hfw). destruct o as [w e|w batch|ids]; cbn [run].
    + destruct (Add_invariant w e mb) as (H1 & H2 & _ & _ & _ & H3); [lia | lia |].
      split; [lia|]. split; [lia | by apply H3].
    + destruct (AddBatch_invariant w 0 batch mb) as (H1 & H2 & H3 & _); [lia | lia |].
      split; [lia|]. split; [lia | by apply H3].
    + cbn [Remove maxEntries entries]. split; [done|]. split; [|done].
      pose proof (length_filter (fun e => ID e ∉ ids) (entries mb)). lia.
Qed.

(** X29: the memory buffer spills instead of failing or growing.  For
    [maxEntries] of at least 1 (which [New] guarantees), whatever is added
    to the buffer or removed from it, it never holds more than [maxEntries]
    entries in memory: when it is full, the next entry first moves
    everything it holds into an overflow file.  [Get] returns a prefix of
    what is in memory and never reads an overflow file.  An [AddBatch] takes
    in a prefix of the batch, the whole batch unless a spill failed, which
    cannot happen while the disk works.  The overflow file is named after
    the clock reading and a write replaces a file of the same name; so, as
    long as no two writes of the buffer went to the same file name, nothing
    added disappears: every entry that was in memory or in an overflow file
    before the [AddBatch], and every entry taken from the batch, is in
    memory or in an overflow file after it. *)
Theorem memory_buffer_spills_and_keeps (cap : Z) (dir : string)
    (ops : list operation) :
  1 <= cap ->
  let mb := foldl run (NewMemoryBuffer cap dir) ops in
  0 <= Size mb <= cap
  /\ maxEntries mb = cap
  /\ (forall limit got, Get limit mb = Some got ->
        got `prefix_of` entries mb /\ Z.of_nat (length got) <= Z.min limit cap)
  /\ (forall (w : nat -> world) (batch : list LogEntry),
        let r := AddBatch w 0 batch mb in
        exists taken,
          taken `prefix_of` batch
          /\ (r.1 = None -> taken = batch)
          /\ ((forall k, fault (w k) = None) -> r.1 = None)
          /\ (NoDup (fst <$> written r.2) ->
              forall e, e ∈ entries mb \/ on_disk mb e \/ e ∈ taken ->
                        e ∈ entries r.2 \/ on_disk r.2 e)).
Proof.
  intros Hcap. cbn zeta.
  destruct (run_invariant cap dir ops Hcap) as (Hm & Hl & Hfw).
  set (mb := foldl run (NewMemoryBuffer cap dir) ops) in *.
  unfold Size. split; [lia|]. split; [done|]. split.
  - intros limit got Hget. unfold Get in Hget.
    destruct (Z.of_nat (length (entries mb)) <? limit) eqn:E1.
    + apply Z.ltb_lt in E1.
      destruct (Z.of_nat (length (entries mb)) <? 0) eqn:E2;
        [apply Z.ltb_lt in E2; lia|].
      inversion Hget; subst got. split; [apply prefix_take|].
      rewrite length_take. lia.
    + apply Z.ltb_ge in E1. destruct (limit <? 0) eqn:E2; [done|].
      apply Z.ltb_ge in E2. inversion Hget; subst got.
      split; [apply prefix_take|]. rewrite length_take. lia.
  - intros w batch.
    destruct (AddBatch_invariant w 0 batch mb)
      as (_ & _ & Hfw' & Hnone & taken & Hp & Hh & Hall); [lia | lia |].
    exists taken. split; [done|]. split; [done|]. split; [done|].
    intros Hnd e He. apply held_on_disk; [by apply Hfw' | done |].
    rewrite Hh. apply elem_of_app. destruct He as [He|[He|He]].
    + left. unfold held. apply elem_of_app. by right.
    + left. by apply on_disk_held.
    + by right.
Qed.

Definition note (i : string) : LogEntry :=
  {| ID := i; Timestamp := 1000; Level := LogLevelInfo; Message := "started";
     Source := "file"; Host := "web-1"; Service := "api"; Fields := [];
     Tags := []; Raw := "started" |}.

(** A disk that works, at the instant [nano]. *)
Definition working_disk (nano : Z) : world :=
  {| unix_nano := nano; fault := None;
     filepath_Join := fun a b => (a +:+ "/" +:+ b)%string |}.

Lemma memory_buffer_witness :
  let mb := foldl run (NewMemoryBuffer 2 "/var/lib/agent")
                  [OpAdd (working_disk 1700000000000000000) (note "a");
                   OpAdd (working_disk 1700000000000000001) (note "b")] in
  let r := AddBatch (fun k => working_disk (1700000000000000002 + Z.of_nat k)) 0
                    [note "c"; note "d"; note "e"] mb in
  0 <= Size mb <= 2
  /\ r.1 = None
  /\ entries r.2 = [note "e"]
  /\ files r.2
     = {[ "/var/lib/agent/overflow/overflow_1700000000000000002.json"%string
            := Some [note "a"; note "b"];
          "/var/lib/agent/overflow/overflow_1700000000000000004.json"%string
            := Some [note "c"; note "d"] ]}
  /\ on_disk r.2 (note "a").
Proof.
  cbn zeta.
  destruct (memory_buffer_spills_and_keeps 2 "/var/lib/agent"
              [OpAdd (working_disk 1700000000000000000) (note "a");
               OpAdd (working_disk 1700000000000000001) (note "b")])
    as (H1 & _ & _ & H4).
  - lia.
  - destruct (H4 (fun k => working_disk (1700000000000000002 + Z.of_nat k))
                 [note "c"; note "d"; note "e"])
      as (taken & _ & _ & Hok & Hkept).
    split; [exact H1|]. split; [by apply Hok|].
    split; [vm_compute; reflexivity|]. split; [vm_compute; reflexivity|].
    destruct (Hkept ltac:(vm_compute; apply NoDup_cons; split;
                            [by intros ?%list_elem_of_singleton
                            |apply NoDup_singleton])
                    (note "a")) as [Hmem|Hdisk].
    + left. vm_compute. by left.
    + vm_compute in Hmem. apply list_elem_of_singleton in Hmem. discriminate.
    + exact Hdisk.
Defined.

(** Two spills at the same clock reading go to the same file: the second
    replaces what the first wrote, and the entries of the first are neither
    in memory nor in any file. *)
Lemma same_instant_spill_replaces_the_file :
  let w := working_disk 1700000000000000000 in
  let mb := foldl run (NewMemoryBuffer 1 "/var/lib/agent")
                  [OpAdd w (note "a"); OpAdd w (note "b"); OpAdd w (note "c")] in
  entries mb = [note "c"]
  /\ files mb
     = {[ "/var/lib/agent/overflow/overflow_1700000000000000000.json"%string
            := Some [note "b"] ]}
  /\ (note "a" ∉ entries mb)
  /\ (~ on_disk mb (note "a")).
Proof.
  cbn zeta. split; [vm_compute; reflexivity|]. split; [vm_compute; reflexivity|].
  split.
  - vm_compute. intros H. apply list_elem_of_singleton in H. discriminate.
  - intros (name & content & Hf & He). vm_compute in Hf.
    destruct (decide (name = "/var/lib/agent/overflow/overflow_1700000000000000000.json"%string))
      as [->|Hne].
    + vm_compute in Hf. inversion Hf; subst content.
      apply list_elem_of_singleton in He. discriminate.
    + change (({[ "/var/lib/agent/overflow/overflow_1700000000000000000.json"%string
                    := Some [note "b"] ]} : gmap string file) !! name
              = Some (Some content)) in Hf.
      by rewrite lookup_singleton_ne in Hf.
Qed.

(** X30: the consume protocol of the buffer.  [Get] returns the first
    [limit] entries (all of them when there are fewer) and leaves the buffer
    unchanged; removing the identifiers of what [Get] returned leaves, of
    the entries that followed, those whose identifier is not among them, in
    order -- all of them when the identifiers in the buffer are distinct. *)
Theorem get_then_remove_consumes_a_prefix (limit : Z) (mb : MemoryBuffer) :
  0 <= limit ->
  let got := take (Z.to_nat limit) (entries mb) in
  let ids := ID <$> got in
  Get limit mb = Some got
  /\ entries (Remove ids mb)
     = filter (fun e => ID e ∉ ids) (drop (Z.to_nat limit) (entries mb))
  /\ (forall e, e ∈ entries (Remove ids mb) -> ID e ∉ ids)
  /\ (NoDup (ID <$> entries mb) ->
      entries (Remove ids mb) = drop (Z.to_nat limit) (entries mb))
  /\ written (Remove ids mb) = written mb.
Proof.
  intros Hlimit. cbn zeta.
  set (n := Z.to_nat limit). set (ids := ID <$> take n (entries mb)).
  assert (Hsplit : filter (fun e => ID e ∉ ids) (entries mb)
                   = filter (fun e => ID e ∉ ids) (drop n (entries mb))).
  { rewrite <- (take_drop n (entries mb)) at 1. rewrite filter_app.
    assert (Hnone : filter (fun e => ID e ∉ ids) (take n (entries mb)) = []).
    { apply elem_of_nil_inv. intros e He.
      apply list_elem_of_filter in He as [Hnot Hin]. apply Hnot.
      subst ids. by apply list_elem_of_fmap_2. }
    by rewrite Hnone. }
  split; [|split; [exact Hsplit|split; [|split; [|done]]]].
  - unfold Get. destruct (Z.of_nat (length (entries mb)) <? limit) eqn:E1.
    + apply Z.ltb_lt in E1.
      destruct (Z.of_nat (length (entries mb)) <? 0) eqn:E2;
        [apply Z.ltb_lt in E2; lia|].
      f_equal. rewrite Nat2Z.id. rewrite !take_ge; [done | lia | lia].
    + destruct (limit <? 0) eqn:E2; [apply Z.ltb_lt in E2; lia | done].
  - intros e He. cbn [Remove entries] in He.
    by apply list_elem_of_filter in He as [Hnot _].
  - intros Hnd. cbn [Remove entries]. rewrite Hsplit.
    rewrite <- (take_drop n (entries mb)), fmap_app in Hnd.
    apply NoDup_app in Hnd as (_ & Hdisj & _).
    assert (Hall : forall l : list LogEntry,
              (forall e, e ∈ l -> ID e ∉ ids) ->
              filter (fun e => ID e ∉ ids) l = l).
    { induction l as [|e l IHl]; intros Hl; [done|].
      rewrite filter_cons_True by (apply Hl; by left).
      f_equal. apply IHl. intros e' He'. apply Hl. by right. }
    apply Hall. intros e He Hin. apply (Hdisj (ID e) Hin).
    by apply list_elem_of_fmap_2.
Qed.

Lemma get_then_remove_witness :
  let mb := {| entries := [note "a"; note "b"; note "c"]; maxEntries := 10;
               overflowed := false; diskPath := "/var/lib/agent";
               files := ∅; written := [] |} in
  Get 2 mb = Some [note "a"; note "b"]
  /\ entries (Remove ["a"; "b"]%string mb) = [note "c"].
Proof.
  cbn zeta.
  destruct (get_then_remove_consumes_a_prefix 2
              {| entries := [note "a"; note "b"; note "c"]; maxEntries := 10;
                 overflowed := false; diskPath := "/var/lib/agent";
                 files := ∅; written := [] |}) as (H1 & _).
  - lia.
  - split; [exact H1|]. vm_compute. reflexivity.
Defined.

End BufferProps.
